(** * Transaction log applier of lake tablets

    A shallow embedding of [be/src/storage/lake/txn_log_applier.cpp]: the
    primary-key and the non-primary-key applier, the rowset splice of
    compaction, rowset id allocation, the recover wrapper and replication,
    with the properties of the applier proved over the embedding.

    Conventions of the embedding:
    - [uint32] protobuf fields ([id], [next_rowset_id], [cumulative_point])
      are [Z] values; every arithmetic operation the code performs on them
      is followed by [wrap32], the reduction modulo [2^32];
    - a repeated field is a [list]; an iterator into it is its position
      (a [nat]), the [end()] iterator is the length of the list;
    - a [Status] is [OK] or [Failed code msg]; [RETURN_IF_ERROR] is
      [and_then];
    - [DCHECK]s and [TEST_ERROR_POINT]s compile to nothing in a release
      build and are not part of the embedding; logging is left out;
    - the collaborators whose code lives elsewhere (update manager, index
      cache, meta file builder, recover routine, metadata store) are the
      fields of the class [Collaborators], over a state [World] of their
      own; every call the applier makes to one of them is also recorded, in
      order, in a trace of events that no collaborator can touch. *)

From stdpp Require Import list strings pretty.
From Stdlib Require Import ZArith Lia.

Open Scope Z_scope.

(** ** Status *)

Inductive StatusCode := INTERNAL_ERROR | CORRUPTION | IO_ERROR | ALREADY_EXIST.

Inductive Status :=
| OK
| Failed (code : StatusCode) (msg : string).

Definition InternalError (msg : string) : Status := Failed INTERNAL_ERROR msg.
Definition Corruption (msg : string) : Status := Failed CORRUPTION msg.

Definition ok (st : Status) : bool :=
  match st with OK => true | Failed _ _ => false end.

(** A step of an applier over a state [S]; [and_then] is the sequencing
    that [RETURN_IF_ERROR(a); b] performs. *)
Definition Step (S : Type) : Type := S -> Status * S.

Definition and_then {S : Type} (a b : Step S) : Step S :=
  fun s => let '(st, s') := a s in if ok st then b s' else (st, s').

Definition skip {S : Type} : Step S := fun s => (OK, s).

(** ** Machine integers *)

Definition wrap32 (x : Z) : Z := x mod 2 ^ 32.
Definition uint32_ok (x : Z) : Prop := 0 <= x < 2 ^ 32.
Definition INT_MAX : Z := 2 ^ 31 - 1.

(** ** Protobuf messages *)

(** Modelled from the spec: the messages are declared in the protobuf files
    of the repository, which are not among the sources. The records carry
    the fields the applier reads or writes, under the names of their
    accessors; [id], [next_rowset_id] and [cumulative_point] are [uint32]
    (the code computes on them in [uint32_t]), versions, transaction ids and
    row counts are [int64]; the schema, the delete predicate and the delvec
    metadata are copied and never inspected. *)

Inductive KeysType := DUP_KEYS | UNIQUE_KEYS | AGG_KEYS | PRIMARY_KEYS.

Record TabletSchema := mkTabletSchema {
  keys_type : KeysType;
  schema_id : Z
}.

Record RowsetMetadata := mkRowsetMetadata {
  rowset_id : Z;                        (* optional uint32 id *)
  segments : list string;               (* repeated string segments *)
  num_rows : Z;                         (* optional int64 num_rows *)
  delete_predicate : option string      (* optional DeletePredicatePB *)
}.

Definition default_rowset : RowsetMetadata := mkRowsetMetadata 0 [] 0 None.

Definition segments_size (r : RowsetMetadata) : Z := Z.of_nat (length (segments r)).

Definition has_delete_predicate (r : RowsetMetadata) : bool :=
  match delete_predicate r with Some _ => true | None => false end.

Definition set_id (v : Z) (r : RowsetMetadata) : RowsetMetadata :=
  mkRowsetMetadata v (segments r) (num_rows r) (delete_predicate r).

(** [DelvecMetadataPB] is only copied and cleared by the applier: the
    locator of a segment's delete vector is kept as a pair. *)
Definition DelvecMetadata : Type := list (Z * Z).

Record TabletMetadata := mkTabletMetadata {
  tablet_id : Z;
  version : Z;
  schema : TabletSchema;
  enable_persistent_index : bool;
  rowsets : list RowsetMetadata;
  next_rowset_id : Z;                   (* uint32 *)
  cumulative_point : Z;                 (* uint32 *)
  delvec_meta : DelvecMetadata;
  compaction_inputs : list RowsetMetadata;
  source_schema : option TabletSchema
}.

Definition set_version (v : Z) (m : TabletMetadata) : TabletMetadata :=
  mkTabletMetadata (tablet_id m) v (schema m) (enable_persistent_index m) (rowsets m)
    (next_rowset_id m) (cumulative_point m) (delvec_meta m) (compaction_inputs m)
    (source_schema m).

Definition set_schema (v : TabletSchema) (m : TabletMetadata) : TabletMetadata :=
  mkTabletMetadata (tablet_id m) (version m) v (enable_persistent_index m) (rowsets m)
    (next_rowset_id m) (cumulative_point m) (delvec_meta m) (compaction_inputs m)
    (source_schema m).

Definition set_enable_persistent_index (v : bool) (m : TabletMetadata) : TabletMetadata :=
  mkTabletMetadata (tablet_id m) (version m) (schema m) v (rowsets m)
    (next_rowset_id m) (cumulative_point m) (delvec_meta m) (compaction_inputs m)
    (source_schema m).

Definition set_rowsets (v : list RowsetMetadata) (m : TabletMetadata) : TabletMetadata :=
  mkTabletMetadata (tablet_id m) (version m) (schema m) (enable_persistent_index m) v
    (next_rowset_id m) (cumulative_point m) (delvec_meta m) (compaction_inputs m)
    (source_schema m).

Definition set_next_rowset_id (v : Z) (m : TabletMetadata) : TabletMetadata :=
  mkTabletMetadata (tablet_id m) (version m) (schema m) (enable_persistent_index m) (rowsets m)
    v (cumulative_point m) (delvec_meta m) (compaction_inputs m) (source_schema m).

Definition set_cumulative_point (v : Z) (m : TabletMetadata) : TabletMetadata :=
  mkTabletMetadata (tablet_id m) (version m) (schema m) (enable_persistent_index m) (rowsets m)
    (next_rowset_id m) v (delvec_meta m) (compaction_inputs m) (source_schema m).

Definition set_delvec_meta (v : DelvecMetadata) (m : TabletMetadata) : TabletMetadata :=
  mkTabletMetadata (tablet_id m) (version m) (schema m) (enable_persistent_index m) (rowsets m)
    (next_rowset_id m) (cumulative_point m) v (compaction_inputs m) (source_schema m).

Definition set_compaction_inputs (v : list RowsetMetadata) (m : TabletMetadata) : TabletMetadata :=
  mkTabletMetadata (tablet_id m) (version m) (schema m) (enable_persistent_index m) (rowsets m)
    (next_rowset_id m) (cumulative_point m) (delvec_meta m) v (source_schema m).

Definition set_source_schema (v : option TabletSchema) (m : TabletMetadata) : TabletMetadata :=
  mkTabletMetadata (tablet_id m) (version m) (schema m) (enable_persistent_index m) (rowsets m)
    (next_rowset_id m) (cumulative_point m) (delvec_meta m) (compaction_inputs m) v.

(** [add_rowsets] followed by [CopyFrom]: a copy of [r] becomes the last
    rowset. *)
Definition add_rowsets (r : RowsetMetadata) (m : TabletMetadata) : TabletMetadata :=
  set_rowsets (rowsets m ++ [r]) m.

(** *** Transaction log *)

Record TxnLogPB_OpWrite := mkOpWrite {
  ow_rowset : option RowsetMetadata;    (* optional RowsetMetadataPB rowset *)
  dels : list string                    (* repeated string dels *)
}.

(** The accessor [rowset()] of an absent field is the default message. *)
Definition rowset (w : TxnLogPB_OpWrite) : RowsetMetadata :=
  match ow_rowset w with Some r => r | None => default_rowset end.

Definition has_rowset (w : TxnLogPB_OpWrite) : bool :=
  match ow_rowset w with Some _ => true | None => false end.

Definition dels_size (w : TxnLogPB_OpWrite) : Z := Z.of_nat (length (dels w)).

Record TxnLogPB_OpCompaction := mkOpCompaction {
  input_rowsets : list Z;               (* repeated uint32 input_rowsets *)
  oc_output_rowset : option RowsetMetadata
}.

Definition output_rowset (c : TxnLogPB_OpCompaction) : RowsetMetadata :=
  match oc_output_rowset c with Some r => r | None => default_rowset end.

Definition has_output_rowset (c : TxnLogPB_OpCompaction) : bool :=
  match oc_output_rowset c with Some _ => true | None => false end.

Definition input_rowsets_size (c : TxnLogPB_OpCompaction) : Z :=
  Z.of_nat (length (input_rowsets c)).

Record TxnLogPB_OpSchemaChange := mkOpSchemaChange {
  sc_rowsets : list RowsetMetadata;
  sc_delvec_meta : option DelvecMetadata;
  alter_version : Z;
  linked_segment : bool
}.

Record MetadataUpdateInfoPB := mkMetadataUpdateInfo {
  mu_enable_persistent_index : option bool;
  mu_tablet_schema : option TabletSchema
}.

Record TxnLogPB_OpAlterMetadata := mkOpAlterMetadata {
  metadata_update_infos : list MetadataUpdateInfoPB
}.

Inductive ReplicationTxnStatePB :=
| TXN_PREPARED | TXN_SNAPSHOTED | TXN_REPLICATED.

Definition ReplicationTxnStatePB_Name (s : ReplicationTxnStatePB) : string :=
  match s with
  | TXN_PREPARED => "TXN_PREPARED"
  | TXN_SNAPSHOTED => "TXN_SNAPSHOTED"
  | TXN_REPLICATED => "TXN_REPLICATED"
  end.

Definition is_replicated (s : ReplicationTxnStatePB) : bool :=
  match s with TXN_REPLICATED => true | _ => false end.

Record ReplicationTxnMetaPB := mkReplicationTxnMeta {
  txn_state : ReplicationTxnStatePB;
  snapshot_version : Z;
  incremental_snapshot : bool;
  tm_txn_id : Z
}.

Record TxnLogPB_OpReplication := mkOpReplication {
  txn_meta : ReplicationTxnMetaPB;
  op_writes : list TxnLogPB_OpWrite;
  delvecs : list (Z * string);          (* map<uint32, DelvecDataPB>, in iteration order *)
  or_source_schema : option TabletSchema
}.

Record TxnLogPB := mkTxnLog {
  txn_id : Z;
  op_write : option TxnLogPB_OpWrite;
  op_compaction : option TxnLogPB_OpCompaction;
  op_schema_change : option TxnLogPB_OpSchemaChange;
  op_alter_metadata : option TxnLogPB_OpAlterMetadata;
  op_replication : option TxnLogPB_OpReplication
}.

(** ** Configuration flags *)

Record Config := mkConfig {
  enable_primary_key_recover : bool;
  enable_size_tiered_compaction_strategy : bool
}.

(** ** Iterators over a repeated field *)

(** Offset of the first element satisfying [pred], the length when there is
    none. *)
Fixpoint find_offset {A : Type} (pred : A -> bool) (l : list A) : nat :=
  match l with
  | [] => O
  | x :: l' => if pred x then O else S (find_offset pred l')
  end.

(** [std::find_if(begin + first, end, pred)]: the position found, or the
    length of [l] (the [end()] iterator). *)
Definition find_if {A : Type} (pred : A -> bool) (l : list A) (first : nat) : nat :=
  (first + find_offset pred (drop first l))%nat.

(** [struct Finder { int64_t id; bool operator()(r) { return r.id() == id; } }] *)
Definition Finder (id : Z) (r : RowsetMetadata) : bool := rowset_id r =? id.

(** [erase(first, last)] on a repeated field. *)
Definition erase {A : Type} (first last : nat) (l : list A) : list A :=
  take first l ++ drop last l.

(** The elements at positions [[first, last)]. *)
Definition slice {A : Type} (first last : nat) (l : list A) : list A :=
  take (last - first) (drop first l).

(** ** Shared rowset steps, on the metadata alone *)

(** The loop of both [apply_schema_change_log]s: every rowset of the op is
    appended with its own id and [next_rowset_id] is assigned the end of
    its range. *)
Definition schema_change_add_rowset (m : TabletMetadata) (r : RowsetMetadata) : TabletMetadata :=
  set_next_rowset_id (wrap32 (rowset_id r + Z.max 1 (segments_size r))) (add_rowsets r m).

Definition schema_change_add_rowsets (rs : list RowsetMetadata) (m : TabletMetadata)
  : TabletMetadata :=
  fold_left schema_change_add_rowset rs m.

(** Error messages of the compaction splice, as [fmt::format] builds them. *)
Definition msg_not_found (id : Z) : string :=
  "input rowset " +:+ pretty id +:+ " not found".
Definition msg_not_exist (id : Z) : string :=
  "input rowset " +:+ pretty id +:+ " not exist".
Definition msg_not_adjacent : string := "input rowset position not adjacent".
Definition msg_cumulative_point (cp sz : Z) : string :=
  "new cumulative point: " +:+ pretty cp +:+ " exceeds rowset size: " +:+ pretty sz.

(** ** Collaborators *)

Inductive RecoverFlag := RecoverFlag_OK | RECOVER | RECOVER_WITH_PUBLISH.

Definition is_flag_ok (f : RecoverFlag) : bool :=
  match f with RecoverFlag_OK => true | _ => false end.
Definition is_recover_with_publish (f : RecoverFlag) : bool :=
  match f with RECOVER_WITH_PUBLISH => true | _ => false end.

Record DelVector := mkDelVector {
  dv_version : Z;
  dv_data : string
}.

(** Modelled from the spec: [MetaFileBuilder] is declared in
    [storage/lake/meta_file.h], which is not among the sources. The spec
    gives it a [recover_flag] in [{OK, RECOVER, RECOVER_WITH_PUBLISH}] set by
    deeper layers, and [append_delvec], which accumulates the appended
    delete vectors keyed by segment id. [finalize] is a collaborator call. *)
Record MetaFileBuilder := mkMetaFileBuilder {
  recover_flag : RecoverFlag;
  appended_delvecs : list (Z * DelVector)
}.

Definition set_recover_flag (f : RecoverFlag) (b : MetaFileBuilder) : MetaFileBuilder :=
  mkMetaFileBuilder f (appended_delvecs b).

Definition append_delvec (d : DelVector) (segment_id : Z) (b : MetaFileBuilder)
  : MetaFileBuilder :=
  mkMetaFileBuilder (recover_flag b) (appended_delvecs b ++ [(segment_id, d)]).

(** A handle on a slot of the primary index cache
    ([DynamicCache<uint64_t, LakePrimaryIndex>::Entry*]). *)
Definition IndexEntry : Type := Z.

Inductive StatusOr (A : Type) :=
| Value (a : A)
| Error (code : StatusCode) (msg : string).
Arguments Value {A} a.
Arguments Error {A} code msg.

(** What a collaborator that is handed the metadata pointer and the builder
    can reach: the in-memory metadata, the builder and its own state. *)
Record Shared (World : Type) := mkShared {
  sh_metadata : TabletMetadata;
  sh_builder : MetaFileBuilder;
  sh_world : World
}.
Arguments mkShared {World} _ _ _.
Arguments sh_metadata {World} _.
Arguments sh_builder {World} _.
Arguments sh_world {World} _.

(** The interface of the code the applier calls and does not define; [World]
    is the state of the update manager, the index cache and the metadata
    store. *)
Class Collaborators (World : Type) := {
  (* UpdateManager *)
  update_mgr_check_meta_version : Z -> Z -> World -> Status;
  update_mgr_lock_shard_pk_index_shard : Z -> World -> World;
  update_mgr_unlock_shard_pk_index_shard : Z -> World -> World;
  update_mgr_prepare_primary_index : Z -> Z -> Shared World -> StatusOr IndexEntry * Shared World;
  update_mgr_publish_primary_key_tablet :
    TxnLogPB_OpWrite -> Z -> option IndexEntry -> Z -> Shared World -> Status * Shared World;
  update_mgr_publish_primary_compaction :
    TxnLogPB_OpCompaction -> Z -> option IndexEntry -> Z -> Shared World -> Status * Shared World;
  update_mgr_release_primary_index_cache : option IndexEntry -> World -> World;
  update_mgr_remove_primary_index_cache : option IndexEntry -> World -> World;
  update_mgr_unload_primary_index : Z -> World -> World;
  update_mgr_set_enable_persistent_index : Z -> bool -> World -> World;
  (* UpdateManager::index_cache() *)
  index_cache_try_remove_by_key : Z -> World -> World;
  index_cache_update_object_size : IndexEntry -> Z -> World -> World;
  (* LakePrimaryIndex, through an entry *)
  index_unload : IndexEntry -> World -> World;
  index_commit : IndexEntry -> Shared World -> Status * Shared World;
  index_memory_usage : IndexEntry -> World -> Z;
  (* LakePrimaryKeyRecover::recover *)
  lake_primary_key_recover : Shared World -> Status * Shared World;
  (* Tablet::put_metadata *)
  tablet_put_metadata : TabletMetadata -> World -> Status * World;
  (* MetaFileBuilder::finalize *)
  builder_finalize : Z -> Shared World -> Status * Shared World;
  (* DelVector::load *)
  delvec_load : Z -> string -> StatusOr DelVector
}.

(** The calls made to collaborators, in the order they are made. *)
Inductive Event :=
| EvCheckMetaVersion (base_version : Z)
| EvLockShard (tablet : Z)
| EvUnlockShard (tablet : Z)
| EvPreparePrimaryIndex (base_version new_version : Z)
| EvPublishWrite (txn : Z)
| EvPublishCompaction (txn : Z)
| EvReleaseIndexCache (entry : option IndexEntry)
| EvRemoveIndexCache (entry : option IndexEntry)
| EvUnloadPrimaryIndex (tablet : Z)
| EvSetEnablePersistentIndex (tablet : Z) (v : bool)
| EvTryRemoveByKey (tablet : Z)
| EvUpdateObjectSize (entry : IndexEntry)
| EvIndexUnload (entry : IndexEntry)
| EvIndexCommit (entry : IndexEntry)
| EvRecover
| EvPutMetadata (version : Z)
| EvFinalize (max_txn_id : Z)
| EvDelvecLoad (version : Z).

Definition is_recover_event (e : Event) : bool :=
  match e with EvRecover => true | _ => false end.
Definition is_lock_event (e : Event) : bool :=
  match e with EvLockShard _ => true | _ => false end.
Definition is_unload_event (tablet : Z) (e : Event) : bool :=
  match e with EvUnloadPrimaryIndex t => t =? tablet | _ => false end.

(** Number of events of a kind in a trace. *)
Fixpoint count (p : Event -> bool) (tr : list Event) : nat :=
  match tr with
  | [] => O
  | e :: tr' => ((if p e then 1 else 0) + count p tr')%nat
  end.

(** The state outside the applier object: the collaborators' state and the
    trace of the calls made so far. *)
Record Ext (World : Type) := mkExt {
  world : World;
  trace : list Event
}.
Arguments mkExt {World} _ _.
Arguments world {World} _.
Arguments trace {World} _.

Definition call {World : Type} (e : Event) (f : World -> World) (x : Ext World) : Ext World :=
  mkExt (f (world x)) (trace x ++ [e]).

Section AlterMeta.
Context {World : Type} `{!Collaborators World}.

(** One iteration of the loop of [apply_alter_meta_log]. *)
Definition alter_meta_one (s : TabletMetadata * Ext World) (alter_meta : MetadataUpdateInfoPB)
  : TabletMetadata * Ext World :=
  let '(m, x) := s in
  let '(m1, x1) :=
    match mu_enable_persistent_index alter_meta with
    | Some v =>
        let m1 := set_enable_persistent_index v m in
        let x1 := call (EvSetEnablePersistentIndex (tablet_id m1) v)
                       (update_mgr_set_enable_persistent_index (tablet_id m1) v) x in
        (m1, call (EvTryRemoveByKey (tablet_id m1)) (index_cache_try_remove_by_key (tablet_id m1)) x1)
    | None => (m, x)
    end in
  match mu_tablet_schema alter_meta with
  | Some sch => (set_schema sch m1, x1)
  | None => (m1, x1)
  end.

(** [apply_alter_meta_log] of the anonymous namespace. *)
Definition apply_alter_meta_log (op_alter_metas : TxnLogPB_OpAlterMetadata)
  : Step (TabletMetadata * Ext World) :=
  fun s => (OK, fold_left alter_meta_one (metadata_update_infos op_alter_metas) s).

End AlterMeta.

(** ** The primary-key applier *)

Module PrimaryKeyTxnLogApplier.
Section Applier.
Context {World : Type} `{!Collaborators World}.
Variable cfg : Config.

Record t := mk {
  _tablet : Z;                          (* the id of [_tablet] *)
  _metadata : TabletMetadata;
  _base_version : Z;
  _new_version : Z;
  _max_txn_id : Z;
  _builder : MetaFileBuilder;
  _index_entry : option IndexEntry;
  _has_finalized : bool;
  ext : Ext World
}.

Definition with_metadata (m : TabletMetadata) (s : t) : t :=
  mk (_tablet s) m (_base_version s) (_new_version s) (_max_txn_id s) (_builder s)
     (_index_entry s) (_has_finalized s) (ext s).
Definition with_base_version (v : Z) (s : t) : t :=
  mk (_tablet s) (_metadata s) v (_new_version s) (_max_txn_id s) (_builder s)
     (_index_entry s) (_has_finalized s) (ext s).
Definition with_max_txn_id (v : Z) (s : t) : t :=
  mk (_tablet s) (_metadata s) (_base_version s) (_new_version s) v (_builder s)
     (_index_entry s) (_has_finalized s) (ext s).
Definition with_builder (b : MetaFileBuilder) (s : t) : t :=
  mk (_tablet s) (_metadata s) (_base_version s) (_new_version s) (_max_txn_id s) b
     (_index_entry s) (_has_finalized s) (ext s).
Definition with_index_entry (e : option IndexEntry) (s : t) : t :=
  mk (_tablet s) (_metadata s) (_base_version s) (_new_version s) (_max_txn_id s) (_builder s)
     e (_has_finalized s) (ext s).
Definition with_has_finalized (b : bool) (s : t) : t :=
  mk (_tablet s) (_metadata s) (_base_version s) (_new_version s) (_max_txn_id s) (_builder s)
     (_index_entry s) b (ext s).
Definition with_ext (x : Ext World) (s : t) : t :=
  mk (_tablet s) (_metadata s) (_base_version s) (_new_version s) (_max_txn_id s) (_builder s)
     (_index_entry s) (_has_finalized s) x.

(** A call to a collaborator that only touches its own state. *)
Definition call_world (e : Event) (f : World -> World) (s : t) : t :=
  with_ext (call e f (ext s)) s.

(** A call to a collaborator that is handed [_metadata] and [&_builder]. *)
Definition shared_of (s : t) : Shared World :=
  mkShared (_metadata s) (_builder s) (world (ext s)).

Definition after_call (e : Event) (sh : Shared World) (s : t) : t :=
  mk (_tablet s) (sh_metadata sh) (_base_version s) (_new_version s) (_max_txn_id s)
     (sh_builder sh) (_index_entry s) (_has_finalized s)
     (mkExt (sh_world sh) (trace (ext s) ++ [e])).

Definition call_shared (e : Event) (f : Shared World -> Status * Shared World) : Step t :=
  fun s => let '(st, sh) := f (shared_of s) in (st, after_call e sh s).

(** The constructor: [_base_version] is the version of the metadata handed
    in, which is then overwritten by [new_version]; the builder is fresh. *)
Definition new (tablet : Z) (metadata : TabletMetadata) (new_version : Z) (x : Ext World) : t :=
  mk tablet (set_version new_version metadata) (version metadata) new_version 0
     (mkMetaFileBuilder RecoverFlag_OK []) None false x.

Definition check_meta_version : Step t :=
  fun s =>
    (update_mgr_check_meta_version (_tablet s) (_base_version s) (world (ext s)),
     with_ext (mkExt (world (ext s)) (trace (ext s) ++ [EvCheckMetaVersion (_base_version s)])) s).

Definition init : Step t := check_meta_version.

(** [handle_failure], run by the destructor. *)
Definition handle_failure (s : t) : t :=
  let s1 :=
    match _index_entry s with
    | Some e =>
        if negb (_has_finalized s) then
          let s1 := call_world (EvIndexUnload e) (index_unload e) s in
          call_world (EvRemoveIndexCache (Some e))
                     (update_mgr_remove_primary_index_cache (Some e)) s1
        else
          call_world (EvReleaseIndexCache (Some e))
                     (update_mgr_release_primary_index_cache (Some e)) s
    | None =>
        call_world (EvReleaseIndexCache None) (update_mgr_release_primary_index_cache None) s
    end in
  with_index_entry None s1.

Definition need_recover (s : t) : bool := negb (is_flag_ok (recover_flag (_builder s))).
Definition need_re_publish (s : t) : bool := is_recover_with_publish (recover_flag (_builder s)).

(** [check_and_recover]: [publish_func] is the closure over the step. *)
Definition check_and_recover (publish_func : Step t) : Step t :=
  fun s =>
    let '(ret, s1) := publish_func s in
    if enable_primary_key_recover cfg && need_recover s1 then
      let s2 := call_world (EvReleaseIndexCache (_index_entry s1))
                  (update_mgr_release_primary_index_cache (_index_entry s1)) s1 in
      let s3 := with_index_entry None s2 in
      let '(rst, s4) := call_shared EvRecover lake_primary_key_recover s3 in
      if ok rst then
        if need_re_publish s4 then
          publish_func (with_builder (set_recover_flag RecoverFlag_OK (_builder s4)) s4)
        else
          (OK, with_builder (set_recover_flag RecoverFlag_OK (_builder s4)) s4)
      else (rst, s4)
    else (ret, s1).

Definition lock_shard (s : t) : t :=
  call_world (EvLockShard (_tablet s)) (update_mgr_lock_shard_pk_index_shard (_tablet s)) s.
Definition unlock_shard (s : t) : t :=
  call_world (EvUnlockShard (_tablet s)) (update_mgr_unlock_shard_pk_index_shard (_tablet s)) s.

(** The step [body] runs between the lock of the index shard and the
    [DeferOp] that unlocks it on every exit. *)
Definition with_shard_lock (body : Step t) : Step t :=
  fun s => let '(st, s1) := body (lock_shard s) in (st, unlock_shard s1).

(** [if (_index_entry == nullptr) ASSIGN_OR_RETURN(_index_entry, prepare_primary_index(...))] *)
Definition prepare_index_entry : Step t :=
  fun s =>
    match _index_entry s with
    | Some _ => (OK, s)
    | None =>
        let e := EvPreparePrimaryIndex (_base_version s) (_new_version s) in
        match update_mgr_prepare_primary_index (_base_version s) (_new_version s) (shared_of s) with
        | (Value entry, sh) => (OK, with_index_entry (Some entry) (after_call e sh s))
        | (Error code msg, sh) => (Failed code msg, after_call e sh s)
        end
    end.

Definition apply_write_log (op_write : TxnLogPB_OpWrite) (txn_id : Z) : Step t :=
  with_shard_lock
    (and_then prepare_index_entry
       (fun s =>
          if (dels_size op_write =? 0) && (num_rows (rowset op_write) =? 0)
             && negb (has_delete_predicate (rowset op_write))
          then (OK, s)
          else call_shared (EvPublishWrite txn_id)
                 (update_mgr_publish_primary_key_tablet op_write txn_id (_index_entry s)
                    (_base_version s)) s)).

Definition apply_compaction_log (op_compaction : TxnLogPB_OpCompaction) (txn_id : Z) : Step t :=
  with_shard_lock
    (and_then prepare_index_entry
       (fun s =>
          match input_rowsets op_compaction with
          | [] => (OK, s)
          | _ =>
              call_shared (EvPublishCompaction txn_id)
                (update_mgr_publish_primary_compaction op_compaction txn_id (_index_entry s)
                   (_base_version s)) s
          end)).

(** The two closures [apply] hands to [check_and_recover]. *)
Inductive PublishStep :=
| PublishWrite (op_write : TxnLogPB_OpWrite) (txn_id : Z)
| PublishCompaction (op_compaction : TxnLogPB_OpCompaction) (txn_id : Z).

Definition publish_func (p : PublishStep) : Step t :=
  match p with
  | PublishWrite w txn => apply_write_log w txn
  | PublishCompaction c txn => apply_compaction_log c txn
  end.

Definition apply_schema_change_log (op : TxnLogPB_OpSchemaChange) : Step t :=
  fun s =>
    let m1 := schema_change_add_rowsets (sc_rowsets op) (_metadata s) in
    let m2 := match sc_delvec_meta op with
              | Some dv => set_delvec_meta dv m1
              | None => m1
              end in
    let s1 := with_metadata m2 s in
    if alter_version op + 1 <? _new_version s1 then
      let s2 := with_base_version (alter_version op) s1 in
      let base_meta := set_version (_base_version s2) (_metadata s2) in
      let '(st, w) := tablet_put_metadata base_meta (world (ext s2)) in
      (st, with_ext (mkExt w (trace (ext s2) ++ [EvPutMetadata (version base_meta)])) s2)
    else (OK, s1).

(** The first loop of a full-snapshot replication: the rowset of every
    embedded write is appended under its id plus [next_rowset_id], which the
    loop does not change; [acc] is [new_next_rowset_id]. *)
Definition rebase_add_rowset (acc : Z * TabletMetadata) (op_write : TxnLogPB_OpWrite)
  : Z * TabletMetadata :=
  let '(new_next_rowset_id, m) := acc in
  let new_rowset_id := wrap32 (rowset_id (rowset op_write) + next_rowset_id m) in
  let r := set_id new_rowset_id (rowset op_write) in
  (Z.max new_next_rowset_id (wrap32 (new_rowset_id + Z.max 1 (segments_size r))),
   add_rowsets r m).

(** The second loop: every delete vector is loaded at [_new_version] and
    appended to the builder; the first load that fails ends the step. *)
Fixpoint append_delvecs (dvs : list (Z * string)) : Step t :=
  fun s =>
    match dvs with
    | [] => (OK, s)
    | (segment_id, data) :: dvs' =>
        let s1 := with_ext (mkExt (world (ext s))
                              (trace (ext s) ++ [EvDelvecLoad (_new_version s)])) s in
        match delvec_load (_new_version s) data with
        | Error code msg => (Failed code msg, s1)
        | Value delvec =>
            append_delvecs dvs'
              (with_builder
                 (append_delvec delvec (wrap32 (segment_id + next_rowset_id (_metadata s1)))
                    (_builder s1)) s1)
        end
    end.

(** [for (op_write : op_writes) RETURN_IF_ERROR(apply_write_log(op_write, txn_id))] *)
Fixpoint apply_write_logs (ws : list TxnLogPB_OpWrite) (txn_id : Z) : Step t :=
  match ws with
  | [] => skip
  | w :: ws' => and_then (apply_write_log w txn_id) (apply_write_logs ws' txn_id)
  end.

Definition copy_source_schema (op : TxnLogPB_OpReplication) (m : TabletMetadata)
  : TabletMetadata :=
  match or_source_schema op with
  | Some sch => set_source_schema (Some sch) m
  | None => m
  end.

Definition apply_replication_log (op : TxnLogPB_OpReplication) (txn_id : Z) : Step t :=
  fun s =>
    if negb (is_replicated (txn_state (txn_meta op))) then
      (Corruption ("Invalid txn meta state: " +:+
                   ReplicationTxnStatePB_Name (txn_state (txn_meta op))), s)
    else if negb (snapshot_version (txn_meta op) =? _new_version s) then
      (Corruption "mismatched snapshot version and new version", s)
    else
      let finish_step : Step t :=
        fun s => (OK, with_metadata (copy_source_schema op (_metadata s)) s) in
      if incremental_snapshot (txn_meta op) then
        and_then (apply_write_logs (op_writes op) txn_id) finish_step s
      else
        let old_rowsets := rowsets (_metadata s) in
        let m1 := set_delvec_meta [] (set_rowsets [] (_metadata s)) in
        let '(new_next_rowset_id, m2) :=
          fold_left rebase_add_rowset (op_writes op) (next_rowset_id m1, m1) in
        and_then (append_delvecs (delvecs op))
          (fun s =>
             let m3 := set_cumulative_point 0
                         (set_next_rowset_id new_next_rowset_id (_metadata s)) in
             let m4 := set_compaction_inputs old_rowsets m3 in
             let s1 := call_world (EvUnloadPrimaryIndex (_tablet s))
                         (update_mgr_unload_primary_index (_tablet s)) (with_metadata m4 s) in
             finish_step s1)
          (with_metadata m2 s).

Definition apply_alter_metadata (op : TxnLogPB_OpAlterMetadata) : Step t :=
  fun s =>
    let '(st, (m, x)) := apply_alter_meta_log op (_metadata s, ext s) in
    (st, with_ext x (with_metadata m s)).

(** [PrimaryKeyTxnLogApplier::apply] *)
Definition apply (log : TxnLogPB) : Step t :=
  fun s =>
    let s0 := with_max_txn_id (Z.max (_max_txn_id s) (txn_id log)) s in
    and_then
      (match op_write log with
       | Some w => check_and_recover (apply_write_log w (txn_id log))
       | None => skip
       end)
      (and_then
         (match op_compaction log with
          | Some c => check_and_recover (apply_compaction_log c (txn_id log))
          | None => skip
          end)
         (and_then
            (match op_schema_change log with
             | Some sc => apply_schema_change_log sc
             | None => skip
             end)
            (match op_alter_metadata log with
             | Some am => apply_alter_metadata am
             | None =>
                 match op_replication log with
                 | Some r => apply_replication_log r (txn_id log)
                 | None => skip
                 end
             end))) s0.

(** [PrimaryKeyTxnLogApplier::finish] *)
Definition finish : Step t :=
  and_then
    (fun s =>
       match _index_entry s with
       | Some e =>
           and_then (call_shared (EvIndexCommit e) (index_commit e))
             (fun s =>
                (OK, call_world (EvUpdateObjectSize e)
                       (index_cache_update_object_size e (index_memory_usage e (world (ext s))))
                       s)) s
       | None => (OK, s)
       end)
    (and_then (fun s => call_shared (EvFinalize (_max_txn_id s)) (builder_finalize (_max_txn_id s)) s)
       (fun s => (OK, with_has_finalized true s))).

End Applier.
End PrimaryKeyTxnLogApplier.

(** ** The non-primary-key applier *)

Module NonPrimaryKeyTxnLogApplier.


(** [NonPrimaryKeyTxnLogApplier::apply_write_log] *)
Definition apply_write_log (op_write : TxnLogPB_OpWrite) (m : TabletMetadata)
  : Status * TabletMetadata :=
  if has_rowset op_write
     && ((num_rows (rowset op_write) >? 0) || has_delete_predicate (rowset op_write))
  then
    let r := set_id (next_rowset_id m) (rowset op_write) in
    let m1 := add_rowsets r m in
    (OK, set_next_rowset_id (wrap32 (next_rowset_id m1 + Z.max 1 (segments_size r))) m1)
  else (OK, m).

(** The safety check loop of [apply_compaction_log], over the inputs after
    the first: the position of the last input, or the error returned. *)
Fixpoint check_inputs (rs : list RowsetMetadata) (pre_input_pos : nat) (inputs : list Z)
  : Status + nat :=
  match inputs with
  | [] => inr pre_input_pos
  | input_id :: inputs' =>
      let it := find_if (Finder input_id) rs (pre_input_pos + 1) in
      if (it =? length rs)%nat then inl (InternalError (msg_not_exist input_id))
      else if negb (it =? pre_input_pos + 1)%nat then inl (InternalError msg_not_adjacent)
      else check_inputs rs it inputs'
  end.

(** The output rowset replaces the first input when it has rows. *)
Definition has_output (op : TxnLogPB_OpCompaction) : bool :=
  has_output_rowset op && (num_rows (output_rowset op) >? 0).

(** The splice of [apply_compaction_log], from the move of the inputs into
    [compaction_inputs] to the erase: the metadata before the cumulative
    point is recomputed. *)
Definition splice (op : TxnLogPB_OpCompaction) (first_input_pos end_input_pos : nat)
    (m : TabletMetadata) : TabletMetadata :=
  let m1 := set_compaction_inputs
              (compaction_inputs m ++ slice first_input_pos end_input_pos (rowsets m)) m in
  if has_output op then
    let out := set_id (next_rowset_id m1) (output_rowset op) in
    let m2 := set_rowsets (<[first_input_pos := out]> (rowsets m1)) m1 in
    let m3 := set_next_rowset_id (wrap32 (next_rowset_id m2 + segments_size out)) m2 in
    set_rowsets (erase (first_input_pos + 1) end_input_pos (rowsets m3)) m3
  else
    set_rowsets (erase first_input_pos end_input_pos (rowsets m1)) m1.

(** The value of [new_cumulative_point] before the bound check, when the
    size-tiered strategy is off; [m] is the metadata after the splice, whose
    [cumulative_point] is still the old one. *)
Definition new_cumulative_point (op : TxnLogPB_OpCompaction) (first_idx : Z)
    (m : TabletMetadata) : Z :=
  let cp :=
    if first_idx >=? cumulative_point m then first_idx
    else if cumulative_point m >=? input_rowsets_size op
         then wrap32 (cumulative_point m - input_rowsets_size op)
         else 0 in
  if has_output op then wrap32 (cp + 1) else cp.

(** [NonPrimaryKeyTxnLogApplier::apply_compaction_log] *)
Definition apply_compaction_log (cfg : Config) (op : TxnLogPB_OpCompaction)
    (m : TabletMetadata) : Status * TabletMetadata :=
  match input_rowsets op with
  | [] => (OK, m)
  | input_id :: inputs' =>
      let first_input_pos := find_if (Finder input_id) (rowsets m) 0 in
      if (first_input_pos =? length (rowsets m))%nat
      then (InternalError (msg_not_found input_id), m)
      else
        match check_inputs (rowsets m) first_input_pos inputs' with
        | inl err => (err, m)
        | inr pre_input_pos =>
            let end_input_pos := (pre_input_pos + 1)%nat in
            let first_idx := wrap32 (Z.of_nat first_input_pos) in
            let m1 := splice op first_input_pos end_input_pos m in
            if enable_size_tiered_compaction_strategy cfg
            then (OK, set_cumulative_point 0 m1)
            else
              let cp := new_cumulative_point op first_idx m1 in
              if cp >? Z.of_nat (length (rowsets m1))
              then (InternalError (msg_cumulative_point cp (Z.of_nat (length (rowsets m1)))), m1)
              else (OK, set_cumulative_point cp m1)
        end
  end.

(** [NonPrimaryKeyTxnLogApplier::apply_schema_change_log] *)
Definition apply_schema_change_log (op : TxnLogPB_OpSchemaChange) (m : TabletMetadata)
  : Status * TabletMetadata :=
  (OK, schema_change_add_rowsets (sc_rowsets op) m).

(** The loop [for (op_write : op_writes) RETURN_IF_ERROR(apply_write_log(op_write))]. *)
Fixpoint apply_write_logs (ws : list TxnLogPB_OpWrite) : Step TabletMetadata :=
  match ws with
  | [] => skip
  | w :: ws' => and_then (apply_write_log w) (apply_write_logs ws')
  end.

(** [NonPrimaryKeyTxnLogApplier::apply_replication_log]; the only member it
    reads besides the metadata is [_new_version]. *)
Definition apply_replication_log (new_version : Z) (op : TxnLogPB_OpReplication)
  : Step TabletMetadata :=
  fun m =>
    if negb (is_replicated (txn_state (txn_meta op))) then
      (Corruption ("Invalid txn meta state: " +:+
                   ReplicationTxnStatePB_Name (txn_state (txn_meta op))), m)
    else if negb (snapshot_version (txn_meta op) =? new_version) then
      (Corruption "mismatched snapshot version and new version", m)
    else
      let finish_step : Step TabletMetadata :=
        fun m => (OK, match or_source_schema op with
                      | Some sch => set_source_schema (Some sch) m
                      | None => m
                      end) in
      if incremental_snapshot (txn_meta op) then
        and_then (apply_write_logs (op_writes op)) finish_step m
      else
        let old_rowsets := rowsets m in
        and_then (apply_write_logs (op_writes op))
          (fun m => finish_step (set_compaction_inputs old_rowsets (set_cumulative_point 0 m)))
          (set_rowsets [] m).

Section Applier.
Context {World : Type} `{!Collaborators World}.
Variable cfg : Config.

Record t := mk {
  _tablet : Z;                          (* the id of [_tablet] *)
  _metadata : TabletMetadata;
  _new_version : Z;
  ext : Ext World
}.

(** The constructor stores its arguments and nothing else. *)
Definition new (tablet : Z) (metadata : TabletMetadata) (new_version : Z) (x : Ext World) : t :=
  mk tablet metadata new_version x.

(** A step that works on [_metadata] alone. *)
Definition on_metadata (f : Step TabletMetadata) : Step t :=
  fun s => let '(st, m) := f (_metadata s) in (st, mk (_tablet s) m (_new_version s) (ext s)).

Definition apply_alter_metadata (op : TxnLogPB_OpAlterMetadata) : Step t :=
  fun s =>
    let '(st, (m, x)) := apply_alter_meta_log op (_metadata s, ext s) in
    (st, mk (_tablet s) m (_new_version s) x).

(** [NonPrimaryKeyTxnLogApplier::apply] *)
Definition apply (log : TxnLogPB) : Step t :=
  and_then
    (match op_write log with
     | Some w => on_metadata (apply_write_log w)
     | None => skip
     end)
    (and_then
       (match op_compaction log with
        | Some c => on_metadata (apply_compaction_log cfg c)
        | None => skip
        end)
       (and_then
          (match op_schema_change log with
           | Some sc => on_metadata (apply_schema_change_log sc)
           | None => skip
           end)
          (and_then
             (match op_replication log with
              | Some r => fun s => on_metadata (apply_replication_log (_new_version s) r) s
              | None => skip
              end)
             (match op_alter_metadata log with
              | Some am => apply_alter_metadata am
              | None => skip
              end)))).

(** [NonPrimaryKeyTxnLogApplier::finish] *)
Definition finish : Step t :=
  fun s =>
    let m := set_version (_new_version s) (_metadata s) in
    let '(st, w) := tablet_put_metadata m (world (ext s)) in
    (st, mk (_tablet s) m (_new_version s) (mkExt w (trace (ext s) ++ [EvPutMetadata (version m)]))).

End Applier.
End NonPrimaryKeyTxnLogApplier.

(** ** The factory *)

Inductive TxnLogApplier {World : Type} `{!Collaborators World} :=
| PrimaryKeyApplier (a : @PrimaryKeyTxnLogApplier.t World)
| NonPrimaryKeyApplier (a : @NonPrimaryKeyTxnLogApplier.t World).

Definition is_primary_keys (k : KeysType) : bool :=
  match k with PRIMARY_KEYS => true | _ => false end.

Definition new_txn_log_applier {World : Type} `{!Collaborators World}
    (tablet : Z) (metadata : TabletMetadata) (new_version : Z) (x : Ext World) : TxnLogApplier :=
  if is_primary_keys (keys_type (schema metadata))
  then PrimaryKeyApplier (PrimaryKeyTxnLogApplier.new tablet metadata new_version x)
  else NonPrimaryKeyApplier (NonPrimaryKeyTxnLogApplier.new tablet metadata new_version x).

(** ** Notions used by the properties *)

Definition rowset_ids (m : TabletMetadata) : list Z := rowset_id <$> rowsets m.

(** The inputs of a compaction occupy consecutive positions of the rowsets,
    in order, from position [p] on. *)
Definition inputs_adjacent_at (ids inputs : list Z) (p : nat) : Prop :=
  take (length inputs) (drop p ids) = inputs.

Definition inputs_adjacent (ids inputs : list Z) : Prop :=
  exists p : nat, inputs_adjacent_at ids inputs p.

(** The cumulative point the compaction splice is to write: [first_idx] is
    the position of the first input, [k] the number of inputs, [cp] the old
    cumulative point. *)
Definition expected_cumulative_point (first_idx cp k : Z) (with_output : bool) : Z :=
  (if first_idx >=? cp then first_idx else if cp >=? k then cp - k else 0)
  + (if with_output then 1 else 0).

(** The rowsets after the splice of the inputs at [[first, last)]. *)
Definition spliced_rowsets (op : TxnLogPB_OpCompaction) (first last : nat)
    (m : TabletMetadata) : list RowsetMetadata :=
  if NonPrimaryKeyTxnLogApplier.has_output op
  then take first (rowsets m) ++ set_id (next_rowset_id m) (output_rowset op)
         :: drop last (rowsets m)
  else take first (rowsets m) ++ drop last (rowsets m).

(** The three outcomes of the non-primary-key [apply_compaction_log] on an
    op with inputs: rejected by the safety check with the metadata as it was,
    failed on the cumulative point with the spliced metadata, or spliced. *)
Inductive outcome (cfg : Config) (op : TxnLogPB_OpCompaction) (m : TabletMetadata)
  : Status * TabletMetadata -> Prop :=
| rejected (msg : string) :
    (msg = msg_not_adjacent \/
     exists id, id ∈ input_rowsets op /\ (msg = msg_not_found id \/ msg = msg_not_exist id)) ->
    outcome cfg op m (InternalError msg, m)
| overflowed (first : nat) :
    let last := (first + length (input_rowsets op))%nat in
    let m1 := NonPrimaryKeyTxnLogApplier.splice op first last m in
    let cp := NonPrimaryKeyTxnLogApplier.new_cumulative_point op (wrap32 (Z.of_nat first)) m1 in
    first = find_if (Finder (default 0 (head (input_rowsets op)))) (rowsets m) 0 ->
    (first < last <= length (rowsets m))%nat ->
    rowset_id <$> slice first last (rowsets m) = input_rowsets op ->
    enable_size_tiered_compaction_strategy cfg = false ->
    cp > Z.of_nat (length (rowsets m1)) ->
    outcome cfg op m
      (InternalError (msg_cumulative_point cp (Z.of_nat (length (rowsets m1)))), m1)
| spliced (first : nat) :
    let last := (first + length (input_rowsets op))%nat in
    let m1 := NonPrimaryKeyTxnLogApplier.splice op first last m in
    let cp := if enable_size_tiered_compaction_strategy cfg then 0
              else NonPrimaryKeyTxnLogApplier.new_cumulative_point op (wrap32 (Z.of_nat first)) m1 in
    first = find_if (Finder (default 0 (head (input_rowsets op)))) (rowsets m) 0 ->
    (first < last <= length (rowsets m))%nat ->
    rowset_id <$> slice first last (rowsets m) = input_rowsets op ->
    cp <= Z.of_nat (length (rowsets m1)) ->
    outcome cfg op m (OK, set_cumulative_point cp m1).

(** The end of the id range [[id, id + max(1, segments_size))] of a rowset. *)
Definition rowset_end (r : RowsetMetadata) : Z := rowset_id r + Z.max 1 (segments_size r).

(** The largest of [next] and the range ends of [l]. *)
Definition max_rowset_end (next : Z) (l : list RowsetMetadata) : Z :=
  fold_left (fun acc r => Z.max acc (rowset_end r)) l next.

(** Two rowsets use disjoint id ranges. *)
Definition ranges_disjoint (a b : RowsetMetadata) : bool :=
  (rowset_end a <=? rowset_id b) || (rowset_end b <=? rowset_id a).

Fixpoint pairwise_disjoint (l : list RowsetMetadata) : bool :=
  match l with
  | [] => true
  | r :: l' => forallb (ranges_disjoint r) l' && pairwise_disjoint l'
  end.

(** Invariant I2 on a metadata: the id ranges of the rowsets and of the
    compaction inputs are pairwise disjoint, and [next_rowset_id] is above
    every id in use. *)
Definition rowset_ids_ok (m : TabletMetadata) : bool :=
  pairwise_disjoint (rowsets m ++ compaction_inputs m)
  && forallb (fun r => rowset_end r <=? next_rowset_id m) (rowsets m ++ compaction_inputs m).

(** ** The op fields of a log as steps *)

Inductive OpKind := OpWrite | OpCompaction | OpSchemaChange | OpAlterMetadata | OpReplication.

Definition has_op (k : OpKind) (log : TxnLogPB) : bool :=
  match k with
  | OpWrite => match op_write log with Some _ => true | None => false end
  | OpCompaction => match op_compaction log with Some _ => true | None => false end
  | OpSchemaChange => match op_schema_change log with Some _ => true | None => false end
  | OpAlterMetadata => match op_alter_metadata log with Some _ => true | None => false end
  | OpReplication => match op_replication log with Some _ => true | None => false end
  end.

(** The op fields present on [log] applied one after the other in the order
    [order], up to the first that fails; [step k log] applies the field
    [k]. *)
Fixpoint run_ops {S : Type} (step : OpKind -> TxnLogPB -> Step S) (order : list OpKind)
    (log : TxnLogPB) : Step S :=
  match order with
  | [] => skip
  | k :: order' =>
      and_then (if has_op k log then step k log else skip) (run_ops step order' log)
  end.

(** The order the specification gives for both appliers. *)
Definition spec_order : list OpKind :=
  [OpWrite; OpCompaction; OpSchemaChange; OpAlterMetadata; OpReplication].

(** The order of [NonPrimaryKeyTxnLogApplier::apply]. *)
Definition non_primary_key_order : list OpKind :=
  [OpWrite; OpCompaction; OpSchemaChange; OpReplication; OpAlterMetadata].

Section OpSteps.
Context {World : Type} `{!Collaborators World}.
Variable cfg : Config.

(** How the primary-key applier applies one op field. *)
Definition primary_key_step (k : OpKind) (log : TxnLogPB) : Step (@PrimaryKeyTxnLogApplier.t World) :=
  match k with
  | OpWrite =>
      match op_write log with
      | Some w => PrimaryKeyTxnLogApplier.check_and_recover cfg
                    (PrimaryKeyTxnLogApplier.apply_write_log w (txn_id log))
      | None => skip
      end
  | OpCompaction =>
      match op_compaction log with
      | Some c => PrimaryKeyTxnLogApplier.check_and_recover cfg
                    (PrimaryKeyTxnLogApplier.apply_compaction_log c (txn_id log))
      | None => skip
      end
  | OpSchemaChange =>
      match op_schema_change log with
      | Some sc => PrimaryKeyTxnLogApplier.apply_schema_change_log sc
      | None => skip
      end
  | OpAlterMetadata =>
      match op_alter_metadata log with
      | Some am => PrimaryKeyTxnLogApplier.apply_alter_metadata am
      | None => skip
      end
  | OpReplication =>
      match op_replication log with
      | Some r => PrimaryKeyTxnLogApplier.apply_replication_log r (txn_id log)
      | None => skip
      end
  end.

(** How the non-primary-key applier applies one op field. *)
Definition non_primary_key_step (k : OpKind) (log : TxnLogPB)
  : Step (@NonPrimaryKeyTxnLogApplier.t World) :=
  match k with
  | OpWrite =>
      match op_write log with
      | Some w => NonPrimaryKeyTxnLogApplier.on_metadata
                    (NonPrimaryKeyTxnLogApplier.apply_write_log w)
      | None => skip
      end
  | OpCompaction =>
      match op_compaction log with
      | Some c => NonPrimaryKeyTxnLogApplier.on_metadata
                    (NonPrimaryKeyTxnLogApplier.apply_compaction_log cfg c)
      | None => skip
      end
  | OpSchemaChange =>
      match op_schema_change log with
      | Some sc => NonPrimaryKeyTxnLogApplier.on_metadata
                     (NonPrimaryKeyTxnLogApplier.apply_schema_change_log sc)
      | None => skip
      end
  | OpAlterMetadata =>
      match op_alter_metadata log with
      | Some am => NonPrimaryKeyTxnLogApplier.apply_alter_metadata am
      | None => skip
      end
  | OpReplication =>
      match op_replication log with
      | Some r =>
          fun s => NonPrimaryKeyTxnLogApplier.on_metadata
                     (NonPrimaryKeyTxnLogApplier.apply_replication_log
                        (NonPrimaryKeyTxnLogApplier._new_version s) r) s
      | None => skip
      end
  end.

(** The calls a step of the primary-key applier makes: [tr] is what the step
    appends to the trace. *)
Definition appends (s s' : @PrimaryKeyTxnLogApplier.t World) (tr : list Event) : Prop :=
  trace (PrimaryKeyTxnLogApplier.ext s')
  = trace (PrimaryKeyTxnLogApplier.ext s) ++ tr.

(** The collaborators handed the metadata leave its version alone. *)
Definition keeps_version (f : Shared World -> Status * Shared World) : Prop :=
  forall sh, version (sh_metadata (f sh).2) = version (sh_metadata sh).

Record collaborators_keep_version : Prop := {
  prepare_keeps_version :
    forall b n sh,
      version (sh_metadata (update_mgr_prepare_primary_index b n sh).2)
      = version (sh_metadata sh);
  publish_write_keeps_version :
    forall w txn e b, keeps_version (update_mgr_publish_primary_key_tablet w txn e b);
  publish_compaction_keeps_version :
    forall c txn e b, keeps_version (update_mgr_publish_primary_compaction c txn e b);
  recover_keeps_version : keeps_version lake_primary_key_recover;
  commit_keeps_version : forall e, keeps_version (index_commit e);
  finalize_keeps_version : forall t, keeps_version (builder_finalize t)
}.

(** A step keeps the version of the in-memory metadata and the applier's
    [_new_version]. *)
Definition pk_kept (f : Step (@PrimaryKeyTxnLogApplier.t World)) : Prop :=
  forall s, version (PrimaryKeyTxnLogApplier._metadata (f s).2)
            = version (PrimaryKeyTxnLogApplier._metadata s) /\
            PrimaryKeyTxnLogApplier._new_version (f s).2
            = PrimaryKeyTxnLogApplier._new_version s.

Definition np_kept (f : Step (@NonPrimaryKeyTxnLogApplier.t World)) : Prop :=
  forall s, version (NonPrimaryKeyTxnLogApplier._metadata (f s).2)
            = version (NonPrimaryKeyTxnLogApplier._metadata s) /\
            NonPrimaryKeyTxnLogApplier._new_version (f s).2
            = NonPrimaryKeyTxnLogApplier._new_version s.

End OpSteps.

(** ** A scripted instance of the collaborators *)

(** The state of the scripted collaborators: the outcomes of the coming
    calls to publish (the status returned and the recover flag left in the
    builder), the status the recover routine returns, the metadata put to
    the store and the tablets whose primary index was unloaded. *)
Record Script := mkScript {
  publish_script : list (Status * RecoverFlag);
  recover_status : Status;
  store : list TabletMetadata;
  unloaded : list Z
}.

Definition scripted_publish (sh : Shared Script) : Status * Shared Script :=
  match publish_script (sh_world sh) with
  | [] => (OK, sh)
  | (st, flag) :: script' =>
      (st, mkShared (sh_metadata sh) (set_recover_flag flag (sh_builder sh))
             (mkScript script' (recover_status (sh_world sh)) (store (sh_world sh))
                (unloaded (sh_world sh))))
  end.

#[export] Instance scripted : Collaborators Script := {
  update_mgr_check_meta_version _ _ _ := OK;
  update_mgr_lock_shard_pk_index_shard _ w := w;
  update_mgr_unlock_shard_pk_index_shard _ w := w;
  update_mgr_prepare_primary_index _ _ sh := (Value 1, sh);
  update_mgr_publish_primary_key_tablet _ _ _ _ := scripted_publish;
  update_mgr_publish_primary_compaction _ _ _ _ := scripted_publish;
  update_mgr_release_primary_index_cache _ w := w;
  update_mgr_remove_primary_index_cache _ w := w;
  update_mgr_unload_primary_index tablet w :=
    mkScript (publish_script w) (recover_status w) (store w) (unloaded w ++ [tablet]);
  update_mgr_set_enable_persistent_index _ _ w := w;
  index_cache_try_remove_by_key _ w := w;
  index_cache_update_object_size _ _ w := w;
  index_unload _ w := w;
  index_commit _ sh := (OK, sh);
  index_memory_usage _ _ := 0;
  lake_primary_key_recover sh := (recover_status (sh_world sh), sh);
  tablet_put_metadata m w :=
    (OK, mkScript (publish_script w) (recover_status w) (store w ++ [m]) (unloaded w));
  builder_finalize _ sh := (OK, sh);
  delvec_load v data :=
    if String.eqb data "" then Error CORRUPTION "empty delvec" else Value (mkDelVector v data)
}.

Definition script0 (ps : list (Status * RecoverFlag)) (rst : Status) : Ext Script :=
  mkExt (mkScript ps rst [] []) [].

Definition io_error : Status := Failed IO_ERROR "publish failed".

(** The rowset of an embedded write under its rebased id. *)
Definition rebased (base : Z) (w : TxnLogPB_OpWrite) : RowsetMetadata :=
  set_id (rowset_id (rowset w) + base) (rowset w).

(** The same with the sum computed in [uint32_t], as the code does. *)
Definition rebased32 (base : Z) (w : TxnLogPB_OpWrite) : RowsetMetadata :=
  set_id (wrap32 (rowset_id (rowset w) + base)) (rowset w).

(** The largest of [next] and the range ends of [l], each computed in
    [uint32_t]. *)
Definition max_rowset_end32 (next : Z) (l : list RowsetMetadata) : Z :=
  fold_left (fun acc r => Z.max acc (wrap32 (rowset_end r))) l next.

(** ** Fixtures *)

(** A rowset with [nseg] segments and [rows] rows, and a non-primary-key
    metadata at version 5. *)
Definition rs (id : Z) (nseg : nat) (rows : Z) : RowsetMetadata :=
  mkRowsetMetadata id (replicate nseg "seg.dat"%string) rows None.

Definition md0 (l : list RowsetMetadata) (next cp : Z) : TabletMetadata :=
  mkTabletMetadata 10001 5 (mkTabletSchema DUP_KEYS 1) false l next cp [] [] None.

Definition cfg_default : Config := mkConfig true false.

(** Rowsets A, B, C, D with ids 1 to 4. *)
Definition abcd : list RowsetMetadata := [rs 1 1 5; rs 2 1 5; rs 3 1 5; rs 4 1 5].

(** A primary-key applier on a tablet with the rowsets [l], and the one on
    an empty tablet bumped from version 5 to 6. *)
Definition pk_tablet (next : Z) (l : list RowsetMetadata) (base_version new_version : Z)
    (x : Ext Script) : @PrimaryKeyTxnLogApplier.t Script :=
  PrimaryKeyTxnLogApplier.new 10001
    (mkTabletMetadata 10001 base_version (mkTabletSchema PRIMARY_KEYS 1) false l next 0 [] []
       None)
    new_version x.

Definition pk0 (x : Ext Script) : @PrimaryKeyTxnLogApplier.t Script := pk_tablet 1 [] 5 6 x.

Definition write_of (id : Z) : TxnLogPB_OpWrite := mkOpWrite (Some (rs id 1 100)) [].

Definition rows_write : TxnLogPB_OpWrite := write_of 0.

Definition full_snapshot : TxnLogPB_OpReplication :=
  mkOpReplication (mkReplicationTxnMeta TXN_REPLICATED 10 false 7)
    [write_of 0; write_of 1; write_of 5] [(0, "dv0"%string); (5, "dv5"%string)] None.

(** A full snapshot at version 10 of one-segment rowsets with the ids [ids]. *)
Definition snapshot_of_ids (ids : list Z) : TxnLogPB_OpReplication :=
  mkOpReplication (mkReplicationTxnMeta TXN_REPLICATED 10 false 7) (write_of <$> ids) [] None.

Definition incremental_snapshot_of (w : TxnLogPB_OpWrite) : TxnLogPB_OpReplication :=
  mkOpReplication (mkReplicationTxnMeta TXN_REPLICATED 6 true 7) [w] [] None.

Definition alter_schema : TxnLogPB_OpAlterMetadata :=
  mkOpAlterMetadata [mkMetadataUpdateInfo None (Some (mkTabletSchema DUP_KEYS 2))].

(** ** Notions and fixtures of the further properties *)

(** A write carries a rowset the non-primary-key applier appends. *)
Definition appended_by_write (w : TxnLogPB_OpWrite) : bool :=
  has_rowset w && ((num_rows (rowset w) >? 0) || has_delete_predicate (rowset w)).

(** The rowsets [l] under consecutive id ranges allocated from [next] on. *)
Fixpoint assign_ids (next : Z) (l : list RowsetMetadata) : list RowsetMetadata :=
  match l with
  | [] => []
  | r :: l' => set_id next r :: assign_ids (next + Z.max 1 (segments_size r)) l'
  end.

(** The number of ids the rowsets [l] take. *)
Definition id_span (l : list RowsetMetadata) : Z :=
  foldr (fun r acc => Z.max 1 (segments_size r) + acc) 0 l.

(** Invariant I4: the cumulative point indexes into the rowsets. *)
Definition cumulative_point_ok (m : TabletMetadata) : Prop :=
  0 <= cumulative_point m <= Z.of_nat (length (rowsets m)).

(** A log that carries one write and nothing else. *)
Definition write_log (txn : Z) (w : TxnLogPB_OpWrite) : TxnLogPB :=
  mkTxnLog txn (Some w) None None None None.

(** The fields of a metadata that hold its rowsets and their bookkeeping are
    the same in [m] and [m']. *)
Definition same_rowsets (m m' : TabletMetadata) : Prop :=
  rowsets m' = rowsets m /\ next_rowset_id m' = next_rowset_id m /\
  cumulative_point m' = cumulative_point m /\
  compaction_inputs m' = compaction_inputs m /\ delvec_meta m' = delvec_meta m /\
  tablet_id m' = tablet_id m /\ version m' = version m /\
  source_schema m' = source_schema m.

(** The last value an alter-metadata op gives to a field, if any. *)
Definition last_schema (op : TxnLogPB_OpAlterMetadata) : option TabletSchema :=
  last (omap mu_tablet_schema (metadata_update_infos op)).
Definition last_enable_persistent_index (op : TxnLogPB_OpAlterMetadata) : option bool :=
  last (omap mu_enable_persistent_index (metadata_update_infos op)).

Definition is_set_persistent_index_event (e : Event) : bool :=
  match e with EvSetEnablePersistentIndex _ _ => true | _ => false end.
Definition is_try_remove_event (e : Event) : bool :=
  match e with EvTryRemoveByKey _ => true | _ => false end.
Definition is_put_metadata_event (e : Event) : bool :=
  match e with EvPutMetadata _ => true | _ => false end.
Definition is_prepare_event (e : Event) : bool :=
  match e with EvPreparePrimaryIndex _ _ => true | _ => false end.

Section Drivers.
Context {World : Type} `{!Collaborators World}.
Variable cfg : Config.

(** The driver's loop over the logs of a version bump, for each applier: the
    logs are applied in order, up to the first [apply] that fails. *)
Fixpoint non_primary_key_apply_all (logs : list TxnLogPB)
  : Step (@NonPrimaryKeyTxnLogApplier.t World) :=
  match logs with
  | [] => skip
  | log :: logs' =>
      and_then (NonPrimaryKeyTxnLogApplier.apply cfg log) (non_primary_key_apply_all logs')
  end.

Fixpoint primary_key_apply_all (logs : list TxnLogPB)
  : Step (@PrimaryKeyTxnLogApplier.t World) :=
  match logs with
  | [] => skip
  | log :: logs' =>
      and_then (PrimaryKeyTxnLogApplier.apply cfg log) (primary_key_apply_all logs')
  end.

End Drivers.

(** The rowsets a sequence of writes appends. *)
Definition written_rowsets (ws : list TxnLogPB_OpWrite) : list RowsetMetadata :=
  rowset <$> filter (fun w => appended_by_write w = true) ws.

(** An upper bound on the number of ids a log makes the non-primary-key
    applier allocate: for its write, for the output of its compaction and
    for the writes of its replication. *)
Definition log_id_span (log : TxnLogPB) : Z :=
  id_span (written_rowsets (option_list (op_write log)))
  + match op_compaction log with
    | Some c => Z.max 1 (segments_size (output_rowset c))
    | None => 0
    end
  + id_span (written_rowsets match op_replication log with
                             | Some r => op_writes r
                             | None => []
                             end).

(** Invariant I2 together with room for [room] more ids below [2^32]. *)
Definition rowset_ids_ok_with_room (room : Z) (m : TabletMetadata) : Prop :=
  rowset_ids_ok m = true /\ 0 <= next_rowset_id m /\ next_rowset_id m + room < 2 ^ 32.

(** ** The calls of the primary-key applier *)

(** The calls made while the lock of the index shard is held, and the calls
    [apply] makes outside the lock. *)
Definition in_lock_call (e : Event) : bool :=
  match e with
  | EvPreparePrimaryIndex _ _ | EvPublishWrite _ | EvPublishCompaction _ => true
  | _ => false
  end.

Definition apply_call (e : Event) : bool :=
  match e with
  | EvReleaseIndexCache _ | EvRecover | EvPutMetadata _ | EvSetEnablePersistentIndex _ _
  | EvTryRemoveByKey _ | EvDelvecLoad _ | EvUnloadPrimaryIndex _ => true
  | _ => false
  end.

(** A run of the monitor of the call protocol over a trace, from the state
    [held] of the shard lock: [None] when a call breaks the protocol, that is
    when the lock is taken while held or released while free, when a call is
    made on the wrong side of the lock, or when any other call is made; the
    state of the lock at the end otherwise. *)
Fixpoint protocol_run (held : bool) (tr : list Event) : option bool :=
  match tr with
  | [] => Some held
  | e :: tr' =>
      match e with
      | EvLockShard _ => if held then None else protocol_run true tr'
      | EvUnlockShard _ => if held then protocol_run false tr' else None
      | _ =>
          if (if held then in_lock_call e else apply_call e)
          then protocol_run held tr'
          else None
      end
  end.

(** From [s] to [s'] the applier has followed the call protocol from the
    lock state [held] back to it, and has kept its tablet, its new version,
    its largest transaction id and its finalized flag. *)
Definition follows_protocol {World : Type} (held : bool)
    (s s' : @PrimaryKeyTxnLogApplier.t World) : Prop :=
  PrimaryKeyTxnLogApplier._tablet s' = PrimaryKeyTxnLogApplier._tablet s /\
  PrimaryKeyTxnLogApplier._new_version s' = PrimaryKeyTxnLogApplier._new_version s /\
  PrimaryKeyTxnLogApplier._max_txn_id s' = PrimaryKeyTxnLogApplier._max_txn_id s /\
  PrimaryKeyTxnLogApplier._has_finalized s' = PrimaryKeyTxnLogApplier._has_finalized s /\
  exists tr, trace (PrimaryKeyTxnLogApplier.ext s')
             = trace (PrimaryKeyTxnLogApplier.ext s) ++ tr /\
             protocol_run held tr = Some held.

(** 1 when no index entry is held, 0 otherwise. *)
Definition unprepared {World : Type} (s : @PrimaryKeyTxnLogApplier.t World) : nat :=
  match PrimaryKeyTxnLogApplier._index_entry s with Some _ => 0 | None => 1 end.

(** From [s] to [s'] the applier has kept its index entry and has neither
    prepared the primary index nor called the recover routine. *)
Definition quiet_step {World : Type} (s s' : @PrimaryKeyTxnLogApplier.t World) : Prop :=
  PrimaryKeyTxnLogApplier._index_entry s' = PrimaryKeyTxnLogApplier._index_entry s /\
  exists tr, trace (PrimaryKeyTxnLogApplier.ext s')
             = trace (PrimaryKeyTxnLogApplier.ext s) ++ tr /\
             count is_prepare_event tr = O /\ count is_recover_event tr = O.

(** The account of the prepares of the primary index from [s] to [s'], for
    a step that returned [st]: one prepare is allowed when [s] holds no index
    entry, and one more for each call of the recover routine; a step that
    succeeds and holds no entry at the end has not used its allowance. The
    recover routine is called only when recovery is enabled. *)
Definition prepares_within_budget {World : Type} (cfg : Config) (st : Status)
    (s s' : @PrimaryKeyTxnLogApplier.t World) : Prop :=
  exists tr, trace (PrimaryKeyTxnLogApplier.ext s')
             = trace (PrimaryKeyTxnLogApplier.ext s) ++ tr /\
             (count is_prepare_event tr + (if ok st then unprepared s' else 0)
              <= unprepared s + count is_recover_event tr)%nat /\
             (enable_primary_key_recover cfg = false -> count is_recover_event tr = O).

(** The calls of a metadata-alter op on the tablet [tablet]: for each entry
    that carries the persistent index flag, the flag is handed to the update
    manager and the index is removed from the cache. *)
Definition alter_calls (tablet : Z) (op : TxnLogPB_OpAlterMetadata) : list Event :=
  flat_map (fun v => [EvSetEnablePersistentIndex tablet v; EvTryRemoveByKey tablet])
           (omap mu_enable_persistent_index (metadata_update_infos op)).

(** The calls of a metadata-alter op, as a class of events. *)
Definition is_alter_call (e : Event) : bool :=
  is_set_persistent_index_event e || is_try_remove_event e.

(** A full snapshot whose only delete vector does not load. *)
Definition bad_delvec_snapshot : TxnLogPB_OpReplication :=
  mkOpReplication (mkReplicationTxnMeta TXN_REPLICATED 6 false 7)
    [write_of 0] [(0, ""%string)] None.

(** A compaction of the rowsets B and C of [abcd] into an output of two
    segments, and a non-primary-key applier on a metadata, bumped to
    version 6. *)
Definition compact_bc : TxnLogPB_OpCompaction := mkOpCompaction [2; 3] (Some (rs 0 2 10)).

Definition np_tablet (m : TabletMetadata) : @NonPrimaryKeyTxnLogApplier.t Script :=
  NonPrimaryKeyTxnLogApplier.new 10001 m 6 (script0 [] OK).

(** * Properties *)

(** ** Iterators *)

Lemma find_offset_le {A : Type} (pred : A -> bool) (l : list A) :
  (find_offset pred l <= length l)%nat.
Proof. induction l as [|x l IH]; simpl; [lia|]. destruct (pred x); simpl; lia. Qed.

Lemma find_offset_zero {A : Type} (pred : A -> bool) (l : list A) :
  find_offset pred l = O -> l = [] \/ exists x l', l = x :: l' /\ pred x = true.
Proof.
  destruct l as [|x l]; simpl; [by left|].
  destruct (pred x) eqn:E; [|discriminate]. right; eauto.
Qed.

Lemma find_offset_lookup {A : Type} (pred : A -> bool) (l : list A) :
  (find_offset pred l < length l)%nat ->
  exists x, l !! find_offset pred l = Some x /\ pred x = true.
Proof.
  induction l as [|y l IH]; simpl; [lia|].
  destruct (pred y) eqn:E; simpl; [eauto|].
  intros Hlt. apply IH. lia.
Qed.

Lemma find_offset_found {A : Type} (pred : A -> bool) (l : list A) (x : A) :
  x ∈ l -> pred x = true -> (find_offset pred l < length l)%nat.
Proof.
  induction 1 as [y l|y z l Hin IH]; simpl; intros Hp.
  - rewrite Hp. lia.
  - destruct (pred z); [lia|]. specialize (IH Hp). lia.
Qed.

Lemma find_if_le {A : Type} (pred : A -> bool) (l : list A) (first : nat) :
  (first <= length l)%nat -> (first <= find_if pred l first <= length l)%nat.
Proof.
  intros Hle. unfold find_if.
  pose proof (find_offset_le pred (drop first l)) as H.
  rewrite length_drop in H. lia.
Qed.

Lemma find_if_0 {A : Type} (pred : A -> bool) (l : list A) :
  find_if pred l 0 = find_offset pred l.
Proof. unfold find_if. by rewrite drop_0. Qed.


Lemma wrap32_small (x : Z) : 0 <= x < 2 ^ 32 -> wrap32 x = x.
Proof. intros H. unfold wrap32. by apply Z.mod_small. Qed.

(** ** Sequencing *)

Lemma and_then_ok {S : Type} (a b : Step S) (x z : S) :
  and_then a b x = (OK, z) -> exists y, a x = (OK, y) /\ b y = (OK, z).
Proof.
  unfold and_then. destruct (a x) as [st y]. destruct st; simpl; [eauto|discriminate].
Qed.

Lemma and_then_skip_l {S : Type} (b : Step S) (x : S) : and_then skip b x = b x.
Proof. done. Qed.

Lemma and_then_skip_r {S : Type} (a : Step S) (x : S) : and_then a skip x = a x.
Proof. unfold and_then, skip. destruct (a x) as [st y]. by destruct st. Qed.

Lemma and_then_ext {S : Type} (a b b' : Step S) (x : S) :
  (forall y, b y = b' y) -> and_then a b x = and_then a b' x.
Proof. intros H. unfold and_then. destruct (a x) as [st y]. by destruct (ok st). Qed.

(** ** The safety check of the compaction splice *)

Module NonPrimaryKeyFacts.
Import NonPrimaryKeyTxnLogApplier.

(** When the check succeeds the inputs after the first sit, in order, right
    after position [pre]. *)
Lemma check_inputs_inr (l : list RowsetMetadata) (inputs : list Z) :
  forall pre last : nat,
    (pre < length l)%nat ->
    check_inputs l pre inputs = inr last ->
    last = (pre + length inputs)%nat /\ (last < length l)%nat /\
    rowset_id <$> take (length inputs) (drop (pre + 1) l) = inputs.
Proof.
  induction inputs as [|input_id inputs IH]; intros pre last Hpre Hc; simpl in Hc.
  - inversion Hc; subst. simpl. split; [lia|]. split; [lia|]. done.
  - destruct (Nat.eqb_spec (find_if (Finder input_id) l (pre + 1)) (length l)) as [|Hne];
      [discriminate|].
    destruct (Nat.eqb_spec (find_if (Finder input_id) l (pre + 1)) (pre + 1)) as [Heq|];
      [|discriminate].
    simpl in Hc. rewrite Heq in Hc, Hne.
    assert (Hoff : find_offset (Finder input_id) (drop (pre + 1) l) = O)
      by (unfold find_if in Heq; lia).
    destruct (find_offset_zero _ _ Hoff) as [Hnil|(x & l' & Hd & Hx)].
    + apply (f_equal length) in Hnil. rewrite length_drop in Hnil. simpl in Hnil. lia.
    + destruct (IH (pre + 1)%nat last) as (H1 & H2 & H3); [lia|done|].
      split; [simpl; lia|]. split; [done|].
      rewrite <- drop_drop, Hd in H3. simpl in H3. rewrite drop_0 in H3.
      simpl. rewrite Hd. simpl. f_equal; [|done].
      unfold Finder in Hx. by apply Z.eqb_eq in Hx.
Qed.

(** The check fails with one of two messages. *)
Lemma check_inputs_inl (l : list RowsetMetadata) (inputs : list Z) :
  forall (pre : nat) (err : Status),
    check_inputs l pre inputs = inl err ->
    err = InternalError msg_not_adjacent \/
    exists id, id ∈ inputs /\ err = InternalError (msg_not_exist id).
Proof.
  induction inputs as [|input_id inputs IH]; intros pre err Hc; simpl in Hc; [discriminate|].
  destruct (find_if (Finder input_id) l (pre + 1) =? length l)%nat.
  - inversion Hc. right. exists input_id. split; [apply list_elem_of_here|done].
  - destruct (find_if (Finder input_id) l (pre + 1) =? pre + 1)%nat; simpl in Hc.
    + destruct (IH _ _ Hc) as [?|(id & ? & ?)]; [by left|].
      right. exists id. split; [by apply list_elem_of_further|done].
    + inversion Hc. by left.
Qed.

(** When the inputs after the first are listed in the order of the rowsets
    that follow position [pre], a failure of the check is the adjacency
    failure. *)
Lemma check_inputs_sublist (l : list RowsetMetadata) (inputs : list Z) :
  forall (pre : nat) (err : Status),
    sublist inputs (rowset_id <$> drop (pre + 1) l) ->
    check_inputs l pre inputs = inl err ->
    err = InternalError msg_not_adjacent.
Proof.
  induction inputs as [|input_id inputs IH]; intros pre err Hsub Hc; simpl in Hc; [discriminate|].
  assert (Hin : input_id ∈ rowset_id <$> drop (pre + 1) l).
  { eapply elem_of_sublist; [apply list_elem_of_here|exact Hsub]. }
  apply list_elem_of_fmap in Hin as (x & Hx & Hin).
  assert (Hlt : (find_offset (Finder input_id) (drop (pre + 1) l) < length (drop (pre + 1) l))%nat).
  { apply (find_offset_found _ _ x); [done|]. unfold Finder. apply Z.eqb_eq. done. }
  rewrite length_drop in Hlt.
  destruct (Nat.eqb_spec (find_if (Finder input_id) l (pre + 1)) (length l)) as [Heq|Hne].
  { unfold find_if in Heq. lia. }
  destruct (Nat.eqb_spec (find_if (Finder input_id) l (pre + 1)) (pre + 1)) as [Heq|];
    simpl in Hc; [|by inversion Hc].
  rewrite Heq in Hc. apply (IH (pre + 1)%nat); [|done].
  assert (Hoff : find_offset (Finder input_id) (drop (pre + 1) l) = O)
    by (unfold find_if in Heq; lia).
  destruct (find_offset_zero _ _ Hoff) as [Hnil|(y & l' & Hd & Hy)].
  { rewrite Hnil in Hlt. apply (f_equal length) in Hnil. rewrite length_drop in Hnil.
    simpl in Hnil. lia. }
  rewrite <- drop_drop, Hd. simpl. rewrite drop_0.
  rewrite Hd, fmap_cons in Hsub.
  apply sublist_cons_r in Hsub as [Hsub|(k & Hk & Hsub)].
  - apply sublist_cons_l in Hsub as (k1 & k2 & Hk & Hsub).
    rewrite Hk. by apply sublist_inserts_l, sublist_cons.
  - by inversion Hk; subst.
Qed.

End NonPrimaryKeyFacts.

Module CompactionFacts.
Import NonPrimaryKeyTxnLogApplier NonPrimaryKeyFacts.

Lemma erase_insert {A : Type} (first last : nat) (x : A) (l : list A) :
  (first < last <= length l)%nat ->
  erase (first + 1) last (<[first := x]> l) = take first l ++ x :: drop last l.
Proof.
  intros H. unfold erase.
  rewrite drop_insert_lt by lia.
  rewrite insert_take_drop by lia.
  rewrite take_app_ge by (rewrite length_take; lia).
  rewrite length_take.
  replace (first + 1 - first `min` length l)%nat with 1%nat by lia.
  simpl. rewrite take_0. by rewrite <- app_assoc.
Qed.

(** The rowsets the splice leaves. *)
Lemma splice_rowsets (op : TxnLogPB_OpCompaction) (first last : nat) (m : TabletMetadata) :
  (first < last <= length (rowsets m))%nat ->
  rowsets (splice op first last m) = spliced_rowsets op first last m.
Proof.
  intros H. unfold splice, spliced_rowsets.
  destruct (has_output op); simpl; [|done].
  by apply erase_insert.
Qed.

Lemma splice_compaction_inputs (op : TxnLogPB_OpCompaction) (first last : nat)
    (m : TabletMetadata) :
  compaction_inputs (splice op first last m)
  = compaction_inputs m ++ slice first last (rowsets m).
Proof. unfold splice. by destruct (has_output op). Qed.

Lemma splice_next_rowset_id (op : TxnLogPB_OpCompaction) (first last : nat)
    (m : TabletMetadata) :
  next_rowset_id (splice op first last m)
  = if has_output op then wrap32 (next_rowset_id m + segments_size (output_rowset op))
    else next_rowset_id m.
Proof. unfold splice. by destruct (has_output op). Qed.

Lemma splice_cumulative_point (op : TxnLogPB_OpCompaction) (first last : nat)
    (m : TabletMetadata) :
  cumulative_point (splice op first last m) = cumulative_point m.
Proof. unfold splice. by destruct (has_output op). Qed.

Lemma splice_version (op : TxnLogPB_OpCompaction) (first last : nat) (m : TabletMetadata) :
  version (splice op first last m) = version m.
Proof. unfold splice. by destruct (has_output op). Qed.

Lemma slice_inputs (l : list RowsetMetadata) (input_id : Z) (inputs : list Z) (first : nat) :
  first = find_if (Finder input_id) l 0 ->
  (first < length l)%nat ->
  rowset_id <$> take (length inputs) (drop (first + 1) l) = inputs ->
  rowset_id <$> slice first (first + length (input_id :: inputs)) l = input_id :: inputs.
Proof.
  intros Hf Hlt Htl. rewrite find_if_0 in Hf.
  destruct (find_offset_lookup (Finder input_id) l) as (x & Hx & Hp); [lia|].
  rewrite <- Hf in Hx. unfold slice.
  replace (first + length (input_id :: inputs) - first)%nat with (S (length inputs))
    by (simpl; lia).
  rewrite (drop_S _ _ _ Hx). simpl. f_equal.
  - unfold Finder in Hp. by apply Z.eqb_eq in Hp.
  - by replace (S first) with (first + 1)%nat by lia.
Qed.

Lemma apply_compaction_log_outcome (cfg : Config) (op : TxnLogPB_OpCompaction)
    (m : TabletMetadata) :
  input_rowsets op <> [] ->
  outcome cfg op m (apply_compaction_log cfg op m).
Proof.
  intros Hne. unfold apply_compaction_log.
  destruct (input_rowsets op) as [|input_id inputs] eqn:Hin; [done|].
  set (first := find_if (Finder input_id) (rowsets m) 0).
  pose proof (find_if_le (Finder input_id) (rowsets m) 0 ltac:(lia)) as Hle.
  fold first in Hle.
  destruct (Nat.eqb_spec first (length (rowsets m))) as [Hend|Hfound].
  { apply rejected. right. exists input_id. rewrite Hin.
    split; [apply list_elem_of_here|by left]. }
  destruct (check_inputs (rowsets m) first inputs) as [err|pre] eqn:Hc.
  { destruct (check_inputs_inl _ _ _ _ Hc) as [->|(id & Hid & ->)].
    - apply rejected. by left.
    - apply rejected. right. exists id. rewrite Hin.
      split; [by apply list_elem_of_further|by right]. }
  assert (Hfirst : (first < length (rowsets m))%nat) by lia.
  destruct (check_inputs_inr _ _ _ _ Hfirst Hc) as (Hpre & Hlt & Hids).
  assert (Hlast : (pre + 1 = first + length (input_rowsets op))%nat)
    by (rewrite Hin; simpl; lia).
  assert (Hslice : rowset_id <$> slice first (first + length (input_rowsets op)) (rowsets m)
                   = input_rowsets op).
  { rewrite Hin. apply slice_inputs; [done|lia|done]. }
  rewrite Hlast.
  destruct (enable_size_tiered_compaction_strategy cfg) eqn:Hst.
  { pose proof (spliced cfg op m first) as Hs. simpl in Hs. rewrite Hst, Hin in Hs.
    rewrite Hin. apply Hs; [done|simpl; lia|by rewrite <- Hin|lia]. }
  destruct (Z.gtb_spec
              (new_cumulative_point op (wrap32 (Z.of_nat first))
                 (splice op first (first + length (input_rowsets op)) m))
              (Z.of_nat (length (rowsets (splice op first
                 (first + length (input_rowsets op)) m))))) as [Hgt|Hle'].
  - pose proof (overflowed cfg op m first) as Hs. simpl in Hs. rewrite Hin in Hs.
    rewrite Hin in *. apply Hs; [done|simpl; lia|done|done|lia].
  - pose proof (spliced cfg op m first) as Hs. simpl in Hs. rewrite Hst, Hin in Hs.
    rewrite Hin in *. apply Hs; [done|simpl; lia|done|lia].
Qed.

End CompactionFacts.

Module CompactionClaims.
Import NonPrimaryKeyTxnLogApplier NonPrimaryKeyFacts CompactionFacts.

(** The check succeeds when the inputs after the first sit right after
    position [pre]. *)
Lemma check_inputs_complete (l : list RowsetMetadata) (inputs : list Z) :
  forall pre : nat,
    rowset_id <$> take (length inputs) (drop (pre + 1) l) = inputs ->
    check_inputs l pre inputs = inr (pre + length inputs)%nat.
Proof.
  induction inputs as [|input_id inputs IH]; intros pre Hids; simpl.
  - f_equal. lia.
  - destruct (drop (pre + 1) l) as [|x l'] eqn:Hd; [discriminate|].
    simpl in Hids. injection Hids as Hx Hids.
    assert (Hlen : (pre + 1 < length l)%nat).
    { apply (f_equal length) in Hd. rewrite length_drop in Hd. simpl in Hd. lia. }
    assert (Hit : find_if (Finder input_id) l (pre + 1) = (pre + 1)%nat).
    { unfold find_if. rewrite Hd. simpl. unfold Finder. rewrite Hx, Z.eqb_refl. lia. }
    rewrite Hit.
    destruct (Nat.eqb_spec (pre + 1) (length l)); [lia|].
    rewrite Nat.eqb_refl. simpl.
    rewrite IH.
    + f_equal. lia.
    + rewrite <- drop_drop, Hd. simpl. by rewrite drop_0.
Qed.

Lemma sublist_after_first (l : list RowsetMetadata) (id : Z) (inputs : list Z) :
  (id :: inputs) `sublist_of` (rowset_id <$> l) ->
  inputs `sublist_of` (rowset_id <$> drop (find_offset (Finder id) l + 1) l).
Proof.
  induction l as [|y l IH]; intros Hsub.
  - apply sublist_nil_r in Hsub. discriminate.
  - rewrite fmap_cons in Hsub. simpl. unfold Finder at 1.
    destruct (Z.eqb_spec (rowset_id y) id) as [Heq|Hne].
    + simpl. rewrite drop_0.
      apply sublist_cons_r in Hsub as [Hsub|(k & Hk & Hsub)].
      * apply sublist_cons_l in Hsub as (k1 & k2 & Hk & Hsub).
        rewrite Hk. by apply sublist_inserts_l, sublist_cons.
      * by inversion Hk; subst.
    + apply sublist_cons_r in Hsub as [Hsub|(k & Hk & Hsub)].
      * simpl. by apply IH.
      * inversion Hk; subst. done.
Qed.

(** The messages of the splice differ in their first words. *)
Ltac distinct_messages H :=
  unfold msg_cumulative_point, msg_not_adjacent, msg_not_found, msg_not_exist in H;
  simpl in H; discriminate H.

Lemma first_input_found (m : TabletMetadata) (input_id : Z) :
  input_id ∈ rowset_ids m ->
  (find_if (Finder input_id) (rowsets m) 0 < length (rowsets m))%nat.
Proof.
  intros Hin. rewrite find_if_0.
  apply list_elem_of_fmap in Hin as (x & Hx & Hin).
  apply (find_offset_found _ _ x); [done|]. unfold Finder. by apply Z.eqb_eq.
Qed.

Lemma slice_adjacent (l : list RowsetMetadata) (inputs : list Z) (first : nat) :
  rowset_id <$> slice first (first + length inputs) l = inputs ->
  inputs_adjacent_at (rowset_id <$> l) inputs first.
Proof.
  unfold slice, inputs_adjacent_at. intros H.
  replace (first + length inputs - first)%nat with (length inputs) in H by lia.
  by rewrite <- fmap_drop, <- fmap_take.
Qed.

(** C3 (amended). A compaction whose input ids are all present in the
    rowsets but do not occupy consecutive positions in order fails with an
    [InternalError] and leaves the metadata unchanged. The message is
    "input rowset position not adjacent" when the inputs are listed in the
    order of the rowsets, and otherwise either that message or
    "input rowset N not exist" for one of the inputs. *)
Theorem compaction_inputs_not_adjacent (cfg : Config) (op : TxnLogPB_OpCompaction)
    (m : TabletMetadata) :
  input_rowsets op <> [] ->
  (forall id, id ∈ input_rowsets op -> id ∈ rowset_ids m) ->
  ~ inputs_adjacent (rowset_ids m) (input_rowsets op) ->
  exists msg : string,
    apply_compaction_log cfg op m = (InternalError msg, m) /\
    (msg = msg_not_adjacent \/
     exists id, id ∈ input_rowsets op /\ msg = msg_not_exist id) /\
    (input_rowsets op `sublist_of` rowset_ids m -> msg = msg_not_adjacent).
Proof.
  intros Hne Hall Hnadj. unfold apply_compaction_log.
  destruct (input_rowsets op) as [|input_id inputs] eqn:Hin; [done|].
  set (first := find_if (Finder input_id) (rowsets m) 0).
  assert (Hfirst : (first < length (rowsets m))%nat).
  { apply first_input_found, Hall, list_elem_of_here. }
  destruct (Nat.eqb_spec first (length (rowsets m))) as [Hend|_]; [lia|].
  destruct (check_inputs (rowsets m) first inputs) as [err|pre] eqn:Hc.
  - assert (Hmsg : err = InternalError msg_not_adjacent \/
                   exists id, id ∈ inputs /\ err = InternalError (msg_not_exist id))
      by (by eapply check_inputs_inl).
    destruct Hmsg as [->|(id & Hid & ->)].
    + exists msg_not_adjacent. split; [done|]. split; [by left|done].
    + exists (msg_not_exist id). split; [done|]. split.
      * right. exists id. split; [by apply list_elem_of_further|done].
      * intros Hsub. apply sublist_after_first in Hsub.
        rewrite <- find_if_0 in Hsub. fold first in Hsub.
        pose proof (check_inputs_sublist _ _ _ _ Hsub Hc) as Herr.
        unfold InternalError in Herr. congruence.
  - exfalso. apply Hnadj. exists first.
    destruct (check_inputs_inr _ _ _ _ Hfirst Hc) as (_ & _ & Hids).
    apply slice_adjacent, slice_inputs; done.
Qed.


Lemma new_cumulative_point_expected (op : TxnLogPB_OpCompaction) (first : nat)
    (m m1 : TabletMetadata) :
  cumulative_point m1 = cumulative_point m ->
  uint32_ok (cumulative_point m) ->
  (first < length (rowsets m))%nat ->
  Z.of_nat (length (rowsets m)) <= INT_MAX ->
  input_rowsets op <> [] ->
  new_cumulative_point op (wrap32 (Z.of_nat first)) m1
  = expected_cumulative_point (Z.of_nat first) (cumulative_point m) (input_rowsets_size op)
      (has_output op).
Proof.
  unfold uint32_ok, INT_MAX. intros Hcp Hu Hf Hmax Hne.
  assert (Hk : 1 <= input_rowsets_size op).
  { unfold input_rowsets_size. destruct (input_rowsets op); [done|]. simpl length. lia. }
  unfold new_cumulative_point, expected_cumulative_point. rewrite Hcp.
  rewrite (wrap32_small (Z.of_nat first)) by lia.
  destruct (Z.geb_spec (Z.of_nat first) (cumulative_point m)).
  - destruct (has_output op); [|lia]. apply wrap32_small. lia.
  - destruct (Z.geb_spec (cumulative_point m) (input_rowsets_size op)).
    + rewrite (wrap32_small (cumulative_point m - _)) by lia.
      destruct (has_output op); [|lia]. apply wrap32_small. lia.
    + destruct (has_output op); [|lia]. by apply wrap32_small.
Qed.

(** C4. With the size-tiered strategy off, a compaction with non-empty
    inputs that succeeds writes the cumulative point
    [first_idx] if [first_idx >= old cp], else [old cp - k] if
    [old cp >= k], else [0], plus one when the op has an output rowset with
    rows, and that value is at most the number of rowsets after the splice;
    when the inputs are adjacent from the first input's position on and the
    value exceeds that number, the cumulative point [InternalError] is
    returned instead. *)
Theorem compaction_cumulative_point (cfg : Config) (op : TxnLogPB_OpCompaction)
    (m m' : TabletMetadata) (st : Status) :
  enable_size_tiered_compaction_strategy cfg = false ->
  input_rowsets op <> [] ->
  uint32_ok (cumulative_point m) ->
  Z.of_nat (length (rowsets m)) <= INT_MAX ->
  apply_compaction_log cfg op m = (st, m') ->
  let first := find_if (Finder (default 0 (head (input_rowsets op)))) (rowsets m) 0 in
  let last := (first + length (input_rowsets op))%nat in
  let expected :=
    expected_cumulative_point (Z.of_nat first) (cumulative_point m) (input_rowsets_size op)
      (has_output op) in
  let size_after := Z.of_nat (length (spliced_rowsets op first last m)) in
  (st = OK ->
   cumulative_point m' = expected /\ rowsets m' = spliced_rowsets op first last m /\
   expected <= size_after) /\
  (inputs_adjacent_at (rowset_ids m) (input_rowsets op) first ->
   expected > size_after ->
   st = InternalError (msg_cumulative_point expected size_after)).
Proof.
  intros Hst Hne Hu Hmax Happ first last expected size_after.
  pose proof (apply_compaction_log_outcome cfg op m Hne) as Hout.
  rewrite Happ in Hout.
  assert (Hexp : forall m1, cumulative_point m1 = cumulative_point m ->
            (first < length (rowsets m))%nat ->
            new_cumulative_point op (wrap32 (Z.of_nat first)) m1 = expected).
  { intros m1 Hcp Hlt. by apply new_cumulative_point_expected. }
  split.
  - intros ->.
    inversion Hout as [| |first' last' m1 cp' Hf Hr Hs Hle Hm]; subst m' first'.
    fold first in last', m1, cp', Hr, Hs. fold last in m1, Hr, Hs.
    subst cp' m1 size_after. rewrite Hst in Hle |- *.
    assert (Hlt : (first < length (rowsets m))%nat) by lia.
    rewrite (Hexp _ (splice_cumulative_point _ _ _ _) Hlt) in Hle |- *.
    cbn [rowsets cumulative_point set_cumulative_point].
    rewrite splice_rowsets in Hle |- * by done. done.
  - intros Hadj Hgt.
    inversion Hout as [msg Hmsg Hm|first' last' m1 cp' Hf Hr Hs Hst' Hgt' Hm
                       |first' last' m1 cp' Hf Hr Hs Hle Hm].
    + exfalso. subst st m'. clear Hout Hexp. unfold apply_compaction_log in Happ.
      destruct (input_rowsets op) as [|input_id inputs] eqn:Hin; [done|].
      simpl in first. unfold inputs_adjacent_at, rowset_ids in Hadj.
      destruct (drop first (rowsets m)) as [|x l'] eqn:Hd.
      { rewrite <- fmap_drop, Hd in Hadj. by simpl in Hadj. }
      assert (Hlen : (first < length (rowsets m))%nat).
      { apply (f_equal length) in Hd. rewrite length_drop in Hd. simpl in Hd. lia. }
      fold first in Happ.
      destruct (Nat.eqb_spec first (length (rowsets m))); [lia|].
      rewrite (check_inputs_complete _ inputs first) in Happ.
      * rewrite Hst in Happ. destruct (_ >? _) in Happ; [|discriminate].
        unfold InternalError in Happ. injection Happ as Hmsg' _. subst msg.
        destruct Hmsg as [H|(id & _ & [H|H])]; distinct_messages H.
      * rewrite <- fmap_drop, <- fmap_take, Hd in Hadj. simpl in Hadj.
        injection Hadj as _ Hadj. rewrite <- Hadj at 2. f_equal. f_equal.
        rewrite <- drop_drop, Hd. simpl. by rewrite drop_0.
    + subst st m' first'.
      fold first in last', m1, cp', Hr, Hs, Hgt'. fold last in m1, Hr, Hs.
      subst cp' m1 size_after.
      assert (Hlt : (first < length (rowsets m))%nat) by lia.
      rewrite (Hexp _ (splice_cumulative_point _ _ _ _) Hlt).
      by rewrite splice_rowsets by done.
    + exfalso. subst st m' first'.
      fold first in last', m1, cp', Hr, Hs, Hle. fold last in m1, Hr, Hs.
      subst cp' m1 size_after. rewrite Hst in Hle.
      assert (Hlt : (first < length (rowsets m))%nat) by lia.
      rewrite (Hexp _ (splice_cumulative_point _ _ _ _) Hlt) in Hle.
      rewrite splice_rowsets in Hle by done. subst last last'. lia.
Qed.

End CompactionClaims.

Module CompactionExamples.
Import NonPrimaryKeyTxnLogApplier CompactionClaims.

(** Membership in a literal list. *)
Ltac in_literal H :=
  repeat (apply elem_of_cons in H as [->|H];
          [solve [repeat first [apply list_elem_of_here | apply list_elem_of_further]]|]);
  by apply elem_of_nil in H.

(** C3, counterexample. With rowsets [A,B,C,D] and inputs [C,A] every
    input is present and the inputs are not adjacent, yet the error is
    "input rowset 1 not exist", not the adjacency error. *)
Lemma compaction_inputs_out_of_order :
  let m := md0 abcd 100 1 in
  let op := mkOpCompaction [3; 1] None in
  (forall id, id ∈ input_rowsets op -> id ∈ rowset_ids m) /\
  ~ inputs_adjacent (rowset_ids m) (input_rowsets op) /\
  apply_compaction_log cfg_default op m = (InternalError "input rowset 1 not exist", m) /\
  apply_compaction_log cfg_default op m <> (InternalError msg_not_adjacent, m).
Proof.
  simpl. split; [|split; [|split]].
  - intros id Hid. unfold rowset_ids, abcd. simpl. in_literal Hid.
  - intros [p Hp]. vm_compute in Hp.
    do 5 (destruct p as [|p]; [discriminate Hp|]). destruct p; discriminate Hp.
  - reflexivity.
  - vm_compute. discriminate.
Qed.

(** Rowsets [A,B,C,D], inputs [A,C]. *)
Lemma compaction_inputs_not_adjacent_witness :
  exists msg : string,
    apply_compaction_log cfg_default (mkOpCompaction [1; 3] None) (md0 abcd 100 1)
    = (InternalError msg, md0 abcd 100 1) /\
    (msg = msg_not_adjacent \/
     exists id, id ∈ [1; 3] /\ msg = msg_not_exist id) /\
    ([1; 3] `sublist_of` rowset_ids (md0 abcd 100 1) -> msg = msg_not_adjacent).
Proof.
  apply (compaction_inputs_not_adjacent cfg_default (mkOpCompaction [1; 3] None)
           (md0 abcd 100 1)).
  - discriminate.
  - intros id Hid. unfold rowset_ids, abcd. simpl in *. in_literal Hid.
  - intros [p Hp]. vm_compute in Hp.
    do 5 (destruct p as [|p]; [discriminate Hp|]). destruct p; discriminate Hp.
Defined.


(** Rowsets [A,B,C,D] with cumulative point 1, inputs [B,C] and an output of
    two segments allocated at 100. *)
Lemma compaction_cumulative_point_witness :
  let m := md0 abcd 100 1 in
  let op := mkOpCompaction [2; 3] (Some (rs 0 2 10)) in
  let m' := mkTabletMetadata 10001 5 (mkTabletSchema DUP_KEYS 1) false
              [rs 1 1 5; rs 100 2 10; rs 4 1 5] 102 2 [] [rs 2 1 5; rs 3 1 5] None in
  apply_compaction_log cfg_default op m = (OK, m') /\
  cumulative_point m' = expected_cumulative_point 1 1 2 true /\
  expected_cumulative_point 1 1 2 true <= 3.
Proof.
  simpl. split; [reflexivity|].
  destruct (compaction_cumulative_point cfg_default (mkOpCompaction [2; 3] (Some (rs 0 2 10)))
              (md0 abcd 100 1)
              (mkTabletMetadata 10001 5 (mkTabletSchema DUP_KEYS 1) false
                 [rs 1 1 5; rs 100 2 10; rs 4 1 5] 102 2 [] [rs 2 1 5; rs 3 1 5] None)
              OK eq_refl) as [Hok _].
  - discriminate.
  - unfold uint32_ok. simpl. lia.
  - unfold INT_MAX. simpl. lia.
  - reflexivity.
  - destruct (Hok eq_refl) as (Hcp & _ & Hle). split; [exact Hcp|exact Hle].
Defined.

End CompactionExamples.

(** ** Rowset id allocation *)

Module RowsetIdClaims.

Lemma schema_change_add_rowsets_app (l1 l2 : list RowsetMetadata) (m : TabletMetadata) :
  schema_change_add_rowsets (l1 ++ l2) m
  = schema_change_add_rowsets l2 (schema_change_add_rowsets l1 m).
Proof. unfold schema_change_add_rowsets. apply fold_left_app. Qed.

Lemma schema_change_rowsets (l : list RowsetMetadata) :
  forall m, rowsets (schema_change_add_rowsets l m) = rowsets m ++ l.
Proof.
  induction l as [|r l IH]; intros m; simpl.
  - by rewrite app_nil_r.
  - unfold schema_change_add_rowsets in IH. rewrite IH. simpl. by rewrite <- app_assoc.
Qed.

Lemma schema_change_version (l : list RowsetMetadata) :
  forall m, version (schema_change_add_rowsets l m) = version m.
Proof.
  induction l as [|r l IH]; intros m; simpl; [done|].
  unfold schema_change_add_rowsets in IH. by rewrite IH.
Qed.

(** The loop leaves in [next_rowset_id] what its last iteration assigns. *)
Lemma schema_change_next_rowset_id_last (l : list RowsetMetadata) (m : TabletMetadata) :
  next_rowset_id (schema_change_add_rowsets l m)
  = match last l with
    | Some r => wrap32 (rowset_end r)
    | None => next_rowset_id m
    end.
Proof.
  destruct l as [|r0 l0] using rev_ind; [done|].
  rewrite schema_change_add_rowsets_app, last_snoc. done.
Qed.

Lemma max_rowset_end_ge (l : list RowsetMetadata) :
  forall next, next <= max_rowset_end next l.
Proof.
  induction l as [|r l IH]; intros next; simpl; [lia|].
  unfold max_rowset_end in IH. etrans; [|apply IH]. lia.
Qed.

Lemma max_rowset_end_dominated (l : list RowsetMetadata) (bound : Z) :
  forall next,
    next <= bound -> (forall r, r ∈ l -> rowset_end r <= bound) ->
    max_rowset_end next l <= bound.
Proof.
  induction l as [|r l IH]; intros next Hn Hl; simpl; [done|].
  apply IH.
  - pose proof (Hl r (list_elem_of_here _ _)). lia.
  - intros r' Hr'. by apply Hl, list_elem_of_further.
Qed.

Lemma max_rowset_end_elem (l : list RowsetMetadata) (r : RowsetMetadata) :
  forall next, r ∈ l -> rowset_end r <= max_rowset_end next l.
Proof.
  induction l as [|r' l IH]; intros next Hr.
  - by apply elem_of_nil in Hr.
  - simpl. apply elem_of_cons in Hr as [->|Hr].
    + etrans; [|apply max_rowset_end_ge]. lia.
    + by apply IH.
Qed.

(** C5 (amended). In both appliers a schema-change op appends its rowsets
    and leaves in [next_rowset_id] the range end [id + max(1,
    segments_size)] (modulo [2^32]) of the last rowset of the op, whatever
    the previous value and the other rowsets; an op without rowsets leaves
    it unchanged. That value is the maximum over the previous value and all
    range ends when the last range end is below [2^32] and is the largest of
    them. *)
Theorem schema_change_next_rowset_id {World : Type} `{!Collaborators World}
    (op : TxnLogPB_OpSchemaChange) (m : TabletMetadata)
    (s : @PrimaryKeyTxnLogApplier.t World) :
  let assigned (before : Z) :=
    match last (sc_rowsets op) with
    | Some r => wrap32 (rowset_end r)
    | None => before
    end in
  let m' := (NonPrimaryKeyTxnLogApplier.apply_schema_change_log op m).2 in
  let s' := (PrimaryKeyTxnLogApplier.apply_schema_change_log op s).2 in
  (next_rowset_id m' = assigned (next_rowset_id m) /\
   rowsets m' = rowsets m ++ sc_rowsets op) /\
  (next_rowset_id (PrimaryKeyTxnLogApplier._metadata s')
   = assigned (next_rowset_id (PrimaryKeyTxnLogApplier._metadata s)) /\
   rowsets (PrimaryKeyTxnLogApplier._metadata s')
   = rowsets (PrimaryKeyTxnLogApplier._metadata s) ++ sc_rowsets op) /\
  (forall r before,
     last (sc_rowsets op) = Some r ->
     0 <= rowset_end r < 2 ^ 32 ->
     before <= rowset_end r ->
     (forall r', r' ∈ sc_rowsets op -> rowset_end r' <= rowset_end r) ->
     assigned before = max_rowset_end before (sc_rowsets op)).
Proof.
  intros assigned m' s'. split; [|split].
  - subst m' assigned. simpl.
    by rewrite schema_change_next_rowset_id_last, schema_change_rowsets.
  - subst s' assigned. unfold PrimaryKeyTxnLogApplier.apply_schema_change_log.
    assert (Hm : forall m1 : TabletMetadata,
               next_rowset_id (match sc_delvec_meta op with
                               | Some dv => set_delvec_meta dv m1
                               | None => m1
                               end) = next_rowset_id m1 /\
               rowsets (match sc_delvec_meta op with
                        | Some dv => set_delvec_meta dv m1
                        | None => m1
                        end) = rowsets m1)
      by (intros m1; by destruct (sc_delvec_meta op)).
    destruct (_ <? _); [destruct (tablet_put_metadata _ _)|]; simpl;
      rewrite (proj1 (Hm _)), (proj2 (Hm _));
      by rewrite schema_change_next_rowset_id_last, schema_change_rowsets.
  - intros r before Hlast Hend Hbefore Hall. subst assigned. simpl. rewrite Hlast.
    rewrite wrap32_small by done.
    apply Z.le_antisymm.
    + apply max_rowset_end_elem. apply last_Some in Hlast as [l' ->].
      apply elem_of_app. right. apply list_elem_of_here.
    + by apply max_rowset_end_dominated.
Qed.

(** Rowsets with ids 2 and 3 in increasing order, on a fresh tablet. *)
Lemma schema_change_next_rowset_id_witness :
  let op := mkOpSchemaChange [rs 2 1 5; rs 3 2 5] None 3 false in
  next_rowset_id (NonPrimaryKeyTxnLogApplier.apply_schema_change_log op (md0 [] 1 0)).2 = 5 /\
  5 = max_rowset_end 1 (sc_rowsets op).
Proof.
  simpl.
  destruct (schema_change_next_rowset_id (World := Script)
              (mkOpSchemaChange [rs 2 1 5; rs 3 2 5] None 3 false) (md0 [] 1 0)
              (PrimaryKeyTxnLogApplier.new 10001 (md0 [] 1 0) 6 (script0 [] OK)))
    as ((Hnext & _) & _ & Hmax).
  split; [exact Hnext|].
  apply (Hmax (rs 3 2 5) 1).
  - reflexivity.
  - split; [vm_compute; discriminate|vm_compute; reflexivity].
  - vm_compute. discriminate.
  - intros r' Hr'. simpl in Hr'.
    apply elem_of_cons in Hr' as [->|Hr']; [vm_compute; discriminate|].
    apply elem_of_cons in Hr' as [->|Hr']; [vm_compute; discriminate|].
    by apply elem_of_nil in Hr'.
Defined.

(** C5, counterexample. A schema-change op carrying the rowsets with ids 5
    and 2, applied on a metadata whose [next_rowset_id] is 10, leaves
    [next_rowset_id = 3]: below the previous value and below the range end
    6 of the first rowset, where the maximum is 10. *)
Lemma schema_change_decreases_next_rowset_id :
  let op := mkOpSchemaChange [rs 5 1 5; rs 2 1 5] None 3 false in
  let m := md0 [] 10 0 in
  next_rowset_id (NonPrimaryKeyTxnLogApplier.apply_schema_change_log op m).2 = 3 /\
  next_rowset_id
    (PrimaryKeyTxnLogApplier._metadata
       (PrimaryKeyTxnLogApplier.apply_schema_change_log op
          (PrimaryKeyTxnLogApplier.new 10001 m 6 (script0 [] OK))).2) = 3 /\
  max_rowset_end (next_rowset_id m) (sc_rowsets op) = 10.
Proof. repeat split; reflexivity. Qed.

(** C2, the failing input. On the rowsets [[{id 1, 1 segment}]] with
    [next_rowset_id = 2], where I2 holds, a compaction of rowset 1 whose
    output has rows and no segment succeeds and gives the output id 2 while
    [next_rowset_id] stays 2, so that I2 no longer holds; the write applied
    next is given id 2 again. *)
Theorem compaction_zero_segment_output_breaks_ids {World : Type} `{!Collaborators World}
    (x : Ext World) :
  let m := md0 [rs 1 1 5] 2 0 in
  let compaction := mkTxnLog 7 None (Some (mkOpCompaction [1] (Some (rs 0 0 10)))) None None None in
  let write := mkTxnLog 8 (Some (mkOpWrite (Some (rs 0 1 3)) [])) None None None None in
  let s := NonPrimaryKeyTxnLogApplier.new 10001 m 6 x in
  let r1 := NonPrimaryKeyTxnLogApplier.apply cfg_default compaction s in
  let r2 := NonPrimaryKeyTxnLogApplier.apply cfg_default write r1.2 in
  rowset_ids_ok m = true /\
  r1.1 = OK /\
  rowsets (NonPrimaryKeyTxnLogApplier._metadata r1.2) = [rs 2 0 10] /\
  next_rowset_id (NonPrimaryKeyTxnLogApplier._metadata r1.2) = 2 /\
  rowset_ids_ok (NonPrimaryKeyTxnLogApplier._metadata r1.2) = false /\
  r2.1 = OK /\
  rowsets (NonPrimaryKeyTxnLogApplier._metadata r2.2) = [rs 2 0 10; rs 2 1 3] /\
  rowset_ids_ok (NonPrimaryKeyTxnLogApplier._metadata r2.2) = false.
Proof. repeat split; reflexivity. Qed.

End RowsetIdClaims.

(** ** Invariant I2 under write and compaction *)

Module RowsetIdFacts.
Import NonPrimaryKeyTxnLogApplier CompactionFacts.

Lemma ranges_disjoint_sym (a b : RowsetMetadata) : ranges_disjoint a b = ranges_disjoint b a.
Proof. unfold ranges_disjoint. apply orb_comm. Qed.

Lemma forallb_perm {A : Type} (p : A -> bool) (l l' : list A) :
  l ≡ₚ l' -> forallb p l = forallb p l'.
Proof.
  induction 1 as [|x l l' _ IH|x y l|l1 l2 l3 _ IH1 _ IH2]; simpl.
  - done.
  - by rewrite IH.
  - destruct (p x), (p y); done.
  - by rewrite IH1.
Qed.

Lemma pairwise_disjoint_perm (l l' : list RowsetMetadata) :
  l ≡ₚ l' -> pairwise_disjoint l = pairwise_disjoint l'.
Proof.
  induction 1 as [|x l l' Hp IH|x y l|l1 l2 l3 _ IH1 _ IH2]; simpl.
  - done.
  - by rewrite IH, (forallb_perm _ _ _ Hp).
  - rewrite (ranges_disjoint_sym y x).
    destruct (ranges_disjoint x y), (forallb (ranges_disjoint x) l),
      (forallb (ranges_disjoint y) l); done.
  - by rewrite IH1.
Qed.

(** A rowset allocated at [next] is disjoint from the rowsets already
    below [next]. *)
Lemma fresh_disjoint (r : RowsetMetadata) (next : Z) (l : list RowsetMetadata) :
  rowset_id r = next ->
  forallb (fun x => rowset_end x <=? next) l = true ->
  forallb (ranges_disjoint r) l = true.
Proof.
  intros Hid. induction l as [|x l IH]; simpl; [done|].
  intros [Hx Hl]%andb_prop. rewrite IH by done.
  unfold ranges_disjoint. rewrite Hid, Hx. by rewrite orb_true_r.
Qed.

Lemma below_mono (n n' : Z) (l : list RowsetMetadata) :
  n <= n' ->
  forallb (fun x => rowset_end x <=? n) l = true ->
  forallb (fun x => rowset_end x <=? n') l = true.
Proof.
  intros Hn. induction l as [|x l IH]; simpl; [done|].
  intros [Hx Hl]%andb_prop. rewrite IH by done.
  apply Z.leb_le in Hx. rewrite andb_true_r. apply Z.leb_le. lia.
Qed.

(** Allocating the range [[next, next')] to [r] on top of a population that
    satisfies I2 with [next]. *)
Lemma allocate_ok (r : RowsetMetadata) (next next' : Z) (l l' : list RowsetMetadata) :
  l' ≡ₚ r :: l ->
  rowset_id r = next -> rowset_end r <= next' -> next <= next' ->
  pairwise_disjoint l && forallb (fun x => rowset_end x <=? next) l = true ->
  pairwise_disjoint l' && forallb (fun x => rowset_end x <=? next') l' = true.
Proof.
  intros Hp Hid Hend Hle [Hd Hb]%andb_prop.
  rewrite (pairwise_disjoint_perm _ _ Hp), (forallb_perm _ _ _ Hp). simpl.
  rewrite (fresh_disjoint r next l Hid Hb), Hd, (below_mono next next' l Hle Hb).
  simpl. rewrite andb_true_r. by apply Z.leb_le.
Qed.

Lemma slice_middle {A : Type} (first last : nat) (l : list A) :
  (first <= last)%nat ->
  l = take first l ++ slice first last l ++ drop last l.
Proof.
  intros Hle. unfold slice.
  replace (drop last l) with (drop (last - first) (drop first l))
    by (rewrite drop_drop; f_equal; lia).
  by rewrite take_drop, take_drop.
Qed.

(** A write keeps I2 as long as the allocation does not wrap. *)
Lemma write_keeps_rowset_ids (w : TxnLogPB_OpWrite) (m : TabletMetadata) :
  rowset_ids_ok m = true ->
  0 <= next_rowset_id m ->
  next_rowset_id m + Z.max 1 (segments_size (rowset w)) < 2 ^ 32 ->
  rowset_ids_ok (apply_write_log w m).2 = true.
Proof.
  intros Hok Hnext Hwrap. unfold apply_write_log.
  destruct (_ && _); [|done]. unfold rowset_ids_ok in *. simpl.
  rewrite wrap32_small by (unfold segments_size in *; simpl; lia).
  eapply (allocate_ok (set_id (next_rowset_id m) (rowset w))); [|done| | |exact Hok].
  - rewrite <- app_assoc. simpl.
    by rewrite <- Permutation_middle.
  - unfold rowset_end, segments_size. simpl. lia.
  - simpl. unfold segments_size. simpl. lia.
Qed.

Lemma splice_keeps_rowset_ids (c : TxnLogPB_OpCompaction) (first last : nat)
    (m : TabletMetadata) :
  (first < last <= length (rowsets m))%nat ->
  rowset_ids_ok m = true ->
  (has_output c = true -> 1 <= segments_size (output_rowset c)) ->
  0 <= next_rowset_id m ->
  next_rowset_id m + Z.max 1 (segments_size (output_rowset c)) < 2 ^ 32 ->
  rowset_ids_ok (splice c first last m) = true.
Proof.
  intros Hr Hok Hseg Hnext Hwrap. unfold rowset_ids_ok.
  rewrite splice_rowsets, splice_compaction_inputs, splice_next_rowset_id by done.
  unfold spliced_rowsets.
  assert (Hp : take first (rowsets m) ++ drop last (rowsets m)
               ++ compaction_inputs m ++ slice first last (rowsets m)
               ≡ₚ rowsets m ++ compaction_inputs m).
  { replace (rowsets m ++ compaction_inputs m)
      with ((take first (rowsets m) ++ slice first last (rowsets m) ++ drop last (rowsets m))
            ++ compaction_inputs m)
      by (by rewrite <- slice_middle by lia).
    rewrite <- !app_assoc. apply Permutation_app_head.
    rewrite (app_assoc (drop last (rowsets m))). apply Permutation_app_comm. }
  destruct (has_output c) eqn:Hout.
  - specialize (Hseg eq_refl).
    rewrite wrap32_small by lia.
    eapply (allocate_ok (set_id (next_rowset_id m) (output_rowset c))); [|done| | |exact Hok].
    + rewrite <- app_assoc. simpl. etrans; [symmetry; apply Permutation_middle|].
      constructor. exact Hp.
    + unfold rowset_end, segments_size in *. simpl. lia.
    + simpl. lia.
  - unfold rowset_ids_ok in Hok. rewrite <- app_assoc.
    by rewrite (pairwise_disjoint_perm _ _ Hp), (forallb_perm _ _ _ Hp).
Qed.

(** A compaction keeps I2, whether it succeeds or fails, unless its output
    rowset has rows and no segment or the allocation wraps. *)
Lemma compaction_keeps_rowset_ids (cfg : Config) (c : TxnLogPB_OpCompaction)
    (m : TabletMetadata) :
  rowset_ids_ok m = true ->
  (has_output c = true -> 1 <= segments_size (output_rowset c)) ->
  0 <= next_rowset_id m ->
  next_rowset_id m + Z.max 1 (segments_size (output_rowset c)) < 2 ^ 32 ->
  rowset_ids_ok (apply_compaction_log cfg c m).2 = true.
Proof.
  intros Hok Hseg Hnext Hwrap.
  destruct (input_rowsets c) as [|i l] eqn:Hin.
  { unfold apply_compaction_log. by rewrite Hin. }
  assert (Hne : input_rowsets c <> []) by (by rewrite Hin).
  pose proof (apply_compaction_log_outcome cfg c m Hne) as Hout.
  inversion Hout as [msg Hmsg Heq|first last m1 cp Hf Hr Hs Hst Hgt Heq
                     |first last m1 cp Hf Hr Hs Hle Heq]; simpl.
  - done.
  - by apply splice_keeps_rowset_ids.
  - change (rowset_ids_ok m1 = true). by apply splice_keeps_rowset_ids.
Qed.

End RowsetIdFacts.

(** ** The recover wrapper *)

Module RecoverClaims.
Import PrimaryKeyTxnLogApplier.

Lemma count_app (p : Event -> bool) (tr1 tr2 : list Event) :
  count p (tr1 ++ tr2) = (count p tr1 + count p tr2)%nat.
Proof. induction tr1 as [|e tr1 IH]; simpl; [done|]. rewrite IH. lia. Qed.

Section WithCollaborators.
Context {World : Type} `{!Collaborators World}.
Implicit Types (s : @t World) (p : @PublishStep).

Lemma prepare_index_entry_appends s :
  exists tr, appends s (prepare_index_entry s).2 tr /\
             count is_lock_event tr = O /\ count is_recover_event tr = O.
Proof.
  unfold prepare_index_entry, appends.
  destruct (_index_entry s).
  - exists []. simpl. by rewrite app_nil_r.
  - destruct (update_mgr_prepare_primary_index _ _ _) as [[e|c msg] sh]; simpl;
      by eexists.
Qed.

(** An execution of a step locks the index shard once and never calls the
    recover routine. *)
Lemma publish_func_appends p s :
  exists tr, appends s (publish_func p s).2 tr /\
             count is_lock_event tr = 1%nat /\ count is_recover_event tr = O.
Proof.
  destruct (prepare_index_entry_appends (lock_shard s)) as (tr & Htr & Hl & Hr).
  unfold appends in *.
  destruct p as [w txn|c txn]; simpl;
    unfold apply_write_log, apply_compaction_log, with_shard_lock, and_then;
    destruct (prepare_index_entry (lock_shard s)) as [st s1]; simpl in Htr;
    destruct (ok st).
  - destruct (_ && _); [|unfold call_shared; destruct (update_mgr_publish_primary_key_tablet _ _ _ _ _)];
      simpl; rewrite Htr; simpl; rewrite <- !app_assoc; eexists; (split; [reflexivity|]);
      rewrite !count_app, Hl, Hr; simpl; done.
  - simpl; rewrite Htr; simpl; rewrite <- !app_assoc; eexists; (split; [reflexivity|]);
      rewrite !count_app, Hl, Hr; simpl; done.
  - destruct (input_rowsets c);
      [|unfold call_shared; destruct (update_mgr_publish_primary_compaction _ _ _ _ _)];
      simpl; rewrite Htr; simpl; rewrite <- !app_assoc; eexists; (split; [reflexivity|]);
      rewrite !count_app, Hl, Hr; simpl; done.
  - simpl; rewrite Htr; simpl; rewrite <- !app_assoc; eexists; (split; [reflexivity|]);
      rewrite !count_app, Hl, Hr; simpl; done.
Qed.

Lemma publish_func_counts p s :
  count is_lock_event (trace (ext (publish_func p s).2))
  = S (count is_lock_event (trace (ext s))) /\
  count is_recover_event (trace (ext (publish_func p s).2))
  = count is_recover_event (trace (ext s)).
Proof.
  destruct (publish_func_appends p s) as (tr & Htr & Hl & Hr).
  unfold appends in Htr. rewrite Htr, !count_app, Hl, Hr. lia.
Qed.


(** C6 (amended). With recover enabled, when a write or compaction step
    leaves the builder's recover flag set, the index entry is released and
    the recover routine is called, once. If the routine returns [OK] and the
    flag then reads [RECOVER_WITH_PUBLISH], the flag is reset and the step
    is executed once more, and what this second execution returns is
    returned as it is, whatever flag it leaves: the step has run twice and
    recover once. If the routine returns [OK] and the flag reads [RECOVER],
    the flag is reset and [OK] is returned without a second execution. If
    the routine fails, its status is returned at once: no second execution,
    and the flag is not reset. *)
Theorem check_and_recover_retries_once (cfg : Config) p s :
  enable_primary_key_recover cfg = true ->
  need_recover (publish_func p s).2 = true ->
  let s1 := (publish_func p s).2 in
  let s3 := with_index_entry None
              (call_world (EvReleaseIndexCache (_index_entry s1))
                 (update_mgr_release_primary_index_cache (_index_entry s1)) s1) in
  let recovered := call_shared EvRecover lake_primary_key_recover s3 in
  let s5 := with_builder (set_recover_flag RecoverFlag_OK (_builder recovered.2)) recovered.2 in
  let r := check_and_recover cfg (publish_func p) s in
  let locks s' := count is_lock_event (trace (ext s')) in
  let recovers s' := count is_recover_event (trace (ext s')) in
  recovers r.2 = S (recovers s) /\
  (recovered.1 = OK -> recover_flag (_builder recovered.2) = RECOVER_WITH_PUBLISH ->
   r = publish_func p s5 /\ locks r.2 = S (S (locks s))) /\
  (recovered.1 = OK -> recover_flag (_builder recovered.2) <> RECOVER_WITH_PUBLISH ->
   r = (OK, s5) /\ locks r.2 = S (locks s) /\ recover_flag (_builder r.2) = RecoverFlag_OK) /\
  (recovered.1 <> OK ->
   r = recovered /\ locks r.2 = S (locks s) /\
   recover_flag (_builder r.2) = recover_flag (_builder recovered.2)).
Proof.
  intros Hcfg Hneed s1 s3 recovered s5 r locks recovers.
  destruct (publish_func_counts p s) as [Hl1 Hr1]. fold s1 in Hl1, Hr1.
  assert (Hrec : trace (ext recovered.2)
                 = trace (ext s1) ++ [EvReleaseIndexCache (_index_entry s1); EvRecover]).
  { subst recovered s3. unfold call_shared.
    destruct (lake_primary_key_recover _); simpl. by rewrite <- app_assoc. }
  assert (Hl3 : locks recovered.2 = S (locks s)).
  { subst locks. simpl. rewrite Hrec, count_app, Hl1. simpl. lia. }
  assert (Hr3 : recovers recovered.2 = S (recovers s)).
  { subst recovers. simpl. rewrite Hrec, count_app, Hr1. simpl. lia. }
  assert (Hr : r = if ok recovered.1
                   then if need_re_publish recovered.2 then publish_func p s5 else (OK, s5)
                   else recovered).
  { subst r. unfold check_and_recover.
    destruct (publish_func p s) as [ret s1'] eqn:Hp. simpl in s1. subst s1.
    simpl in Hneed. rewrite Hcfg, Hneed. simpl. fold s3. fold recovered.
    destruct recovered as [rst s4] eqn:Hrcv. simpl. by destruct (ok rst). }
  destruct (publish_func_counts p s5) as [Hl5 Hr5].
  assert (Htr5 : trace (ext s5) = trace (ext recovered.2)) by done.
  repeat split.
  - rewrite Hr. destruct (ok recovered.1); [|done].
    destruct (need_re_publish recovered.2); [|done].
    change (count is_recover_event (trace (ext (publish_func p s5).2)) = S (recovers s)).
    rewrite Hr5, Htr5. exact Hr3.
  - rewrite Hr, H. unfold need_re_publish. rewrite H0. done.
  - rewrite Hr, H. unfold need_re_publish. rewrite H0. simpl.
    change (count is_lock_event (trace (ext (publish_func p s5).2)) = S (S (locks s))).
    rewrite Hl5, Htr5. f_equal. exact Hl3.
  - rewrite Hr, H. unfold need_re_publish.
    by destruct (recover_flag (_builder recovered.2)).
  - rewrite Hr, H. unfold need_re_publish.
    by destruct (recover_flag (_builder recovered.2)).
  - rewrite Hr, H. unfold need_re_publish.
    by destruct (recover_flag (_builder recovered.2)).
  - rewrite Hr. by destruct recovered.1.
  - rewrite Hr. by destruct recovered.1.
  - rewrite Hr. by destruct recovered.1.
Qed.

End WithCollaborators.

(** A write whose first publish fails and asks for a recover with publish,
    and whose second publish succeeds. *)
Lemma check_and_recover_retries_once_witness :
  let s := pk0 (script0 [(io_error, RECOVER_WITH_PUBLISH); (OK, RecoverFlag_OK)] OK) in
  let r := check_and_recover cfg_default (publish_func (PublishWrite rows_write 7)) s in
  r.1 = OK /\
  count is_recover_event (trace (ext r.2)) = 1%nat /\
  count is_lock_event (trace (ext r.2)) = 2%nat.
Proof.
  simpl.
  pose proof (check_and_recover_retries_once cfg_default (PublishWrite rows_write 7)
                (pk0 (script0 [(io_error, RECOVER_WITH_PUBLISH); (OK, RecoverFlag_OK)] OK))
                eq_refl eq_refl) as (Hrec & Hretry & _ & _).
  destruct (Hretry eq_refl eq_refl) as [_ Hlocks].
  split; [reflexivity|]. split; [exact Hrec|exact Hlocks].
Defined.

(** C6, counterexample. The write leaves the flag [RECOVER] and the recover
    routine fails: the wrapper returns the failure of the routine, not
    [OK], and leaves the flag set. With [RECOVER_WITH_PUBLISH] and a failing
    routine the step is not executed again. *)
Lemma check_and_recover_propagates_recover_failure :
  let failed := Failed IO_ERROR "recover failed" in
  let r := check_and_recover cfg_default (publish_func (PublishWrite rows_write 7))
             (pk0 (script0 [(io_error, RECOVER)] failed)) in
  let r' := check_and_recover cfg_default (publish_func (PublishWrite rows_write 7))
              (pk0 (script0 [(io_error, RECOVER_WITH_PUBLISH)] failed)) in
  r.1 = failed /\ r.1 <> OK /\ recover_flag (_builder r.2) = RECOVER /\
  r'.1 = failed /\ count is_lock_event (trace (ext r'.2)) = 1%nat.
Proof. repeat split; try reflexivity. discriminate. Qed.

End RecoverClaims.

(** ** Replication in the primary-key applier *)

Module ReplicationClaims.
Import PrimaryKeyTxnLogApplier RecoverClaims.

Section WithCollaborators.
Context {World : Type} `{!Collaborators World}.
Implicit Types (s : @t World).

Lemma apply_write_logs_counts (ws : list TxnLogPB_OpWrite) (txn : Z) :
  forall s,
    count is_recover_event (trace (ext (apply_write_logs ws txn s).2))
    = count is_recover_event (trace (ext s)) /\
    (count is_lock_event (trace (ext (apply_write_logs ws txn s).2))
     <= count is_lock_event (trace (ext s)) + length ws)%nat.
Proof.
  induction ws as [|w ws IH]; intros s; simpl.
  - split; [done|lia].
  - unfold and_then.
    destruct (publish_func_counts (PublishWrite w txn) s) as [Hl Hr]. simpl in Hl, Hr.
    destruct (apply_write_log w txn s) as [st s1]. simpl in Hl, Hr.
    destruct (ok st).
    + destruct (IH s1) as [IHr IHl]. rewrite IHr, Hr. split; [done|lia].
    + simpl. rewrite Hl, Hr. split; [done|lia].
Qed.

(** C7 (amended). An incremental-snapshot replication log with valid
    framing applies each embedded write by the bare write step, in order,
    up to the first that fails, and then copies the source schema: the
    recover routine is never called, no write is executed twice, and for a
    single embedded write the status returned and the recover flag left in
    the builder are those of the bare write step. *)
Theorem incremental_replication_does_not_recover (op : TxnLogPB_OpReplication) (txn : Z) s :
  txn_state (txn_meta op) = TXN_REPLICATED ->
  snapshot_version (txn_meta op) = _new_version s ->
  incremental_snapshot (txn_meta op) = true ->
  let r := apply_replication_log op txn s in
  r = and_then (apply_write_logs (op_writes op) txn)
        (fun s1 => (OK, with_metadata (copy_source_schema op (_metadata s1)) s1)) s /\
  count is_recover_event (trace (ext r.2)) = count is_recover_event (trace (ext s)) /\
  (count is_lock_event (trace (ext r.2))
   <= count is_lock_event (trace (ext s)) + length (op_writes op))%nat /\
  (forall w, op_writes op = [w] ->
     r.1 = (apply_write_log w txn s).1 /\
     recover_flag (_builder r.2) = recover_flag (_builder (apply_write_log w txn s).2)).
Proof.
  intros Hstate Hver Hinc r.
  assert (Hr : r = and_then (apply_write_logs (op_writes op) txn)
                     (fun s1 => (OK, with_metadata (copy_source_schema op (_metadata s1)) s1)) s).
  { subst r. unfold apply_replication_log.
    by rewrite Hstate, Hver, Z.eqb_refl, Hinc. }
  split; [done|].
  destruct (apply_write_logs_counts (op_writes op) txn s) as [Hrec Hlock].
  rewrite Hr. unfold and_then.
  destruct (apply_write_logs (op_writes op) txn s) as [st s1] eqn:Hws. simpl in Hrec, Hlock.
  split; [by destruct (ok st)|]. split; [by destruct (ok st)|].
  intros w Hw. rewrite Hw in Hws. simpl in Hws. unfold and_then in Hws.
  destruct (apply_write_log w txn s) as [st' s'].
  destruct st'; simpl in Hws; injection Hws as <- <-; done.
Qed.

Lemma rebase_fold (ws : list TxnLogPB_OpWrite) :
  forall (acc base : Z) (m : TabletMetadata),
    next_rowset_id m = base ->
    fold_left rebase_add_rowset ws (acc, m)
    = (max_rowset_end32 acc (rebased32 base <$> ws),
       set_rowsets (rowsets m ++ (rebased32 base <$> ws)) m).
Proof.
  induction ws as [|w ws IH]; intros acc base m Hbase; simpl.
  - rewrite app_nil_r. by destruct m.
  - rewrite Hbase. rewrite (IH _ base) by done. simpl. by rewrite <- app_assoc.
Qed.

Lemma max_rowset_end32_ge (l : list RowsetMetadata) :
  forall next, next <= max_rowset_end32 next l.
Proof.
  induction l as [|r l IH]; intros next; simpl; [lia|].
  unfold max_rowset_end32 in IH. etrans; [|apply IH]. lia.
Qed.

Lemma max_rowset_end32_elem (l : list RowsetMetadata) (r : RowsetMetadata) :
  forall next, r ∈ l -> wrap32 (rowset_end r) <= max_rowset_end32 next l.
Proof.
  induction l as [|r' l IH]; intros next Hr.
  - by apply elem_of_nil in Hr.
  - simpl. apply elem_of_cons in Hr as [->|Hr].
    + etrans; [|apply max_rowset_end32_ge]. lia.
    + by apply IH.
Qed.

Lemma rebase_no_wrap (base : Z) (ws : list TxnLogPB_OpWrite) :
  uint32_ok base ->
  (forall w, w ∈ ws ->
     0 <= rowset_id (rowset w) /\
     rowset_id (rowset w) + base + Z.max 1 (segments_size (rowset w)) < 2 ^ 32) ->
  forall acc,
    rebased32 base <$> ws = rebased base <$> ws /\
    max_rowset_end32 acc (rebased base <$> ws) = max_rowset_end acc (rebased base <$> ws).
Proof.
  unfold uint32_ok. intros Hbase. induction ws as [|w ws IH]; intros Hws acc; [done|].
  destruct (Hws w (list_elem_of_here _ _)) as [Hid Hend].
  destruct (IH (fun w' Hw' => Hws w' (list_elem_of_further _ _ _ Hw'))
              (Z.max acc (rowset_end (rebased base w)))) as [IH1 IH2].
  rewrite !fmap_cons. split.
  - rewrite IH1. f_equal. unfold rebased32, rebased. f_equal. apply wrap32_small. lia.
  - unfold max_rowset_end32, max_rowset_end in *. cbn [fold_left].
    rewrite wrap32_small; [exact IH2|].
    unfold rowset_end, rebased, segments_size in *. simpl. lia.
Qed.

Lemma append_delvecs_ok (dvs : list (Z * string)) :
  forall s s1,
    append_delvecs dvs s = (OK, s1) ->
    exists loaded : list (Z * DelVector),
      Forall2 (fun d dv => dv.1 = wrap32 (d.1 + next_rowset_id (_metadata s)) /\
                           delvec_load (_new_version s) d.2 = Value dv.2) dvs loaded /\
      s1 = with_ext (mkExt (world (ext s))
                       (trace (ext s) ++ replicate (length dvs) (EvDelvecLoad (_new_version s))))
             (with_builder
                (mkMetaFileBuilder (recover_flag (_builder s))
                   (appended_delvecs (_builder s) ++ loaded)) s).
Proof.
  induction dvs as [|[seg data] dvs IH]; intros s s1 Hok; simpl in Hok.
  - injection Hok as <-. exists []. split; [constructor|].
    destruct s as [? ? ? ? ? [? ?] ? ? [? ?]]. simpl. by rewrite !app_nil_r.
  - destruct (delvec_load (_new_version s) data) as [dv|code msg] eqn:Hload; [|discriminate].
    apply IH in Hok as (loaded & Hall & ->).
    exists ((wrap32 (seg + next_rowset_id (_metadata s)), dv) :: loaded). split.
    + constructor; [done|]. exact Hall.
    + destruct s as [? ? ? ? ? [? ?] ? ? [? ?]]. simpl.
      unfold with_ext, with_builder. simpl. by rewrite <- !app_assoc.
Qed.

(** C8 (amended). After a full-snapshot replication of the primary-key
    applier that succeeds: the rowsets are those of the embedded writes, each
    under its original id plus the [next_rowset_id] from before the step,
    the sum being computed in [uint32_t], that is modulo [2^32]; every delete
    vector of the op has been loaded at the new version and appended to the
    builder under its segment id plus the same value, modulo [2^32];
    [next_rowset_id] is the maximum of its old value and the range ends of
    the new rowsets, each computed in [uint32_t]; [cumulative_point] is 0;
    the compaction inputs are the rowsets from before the step; and the
    primary index of the tablet has been unloaded, once. Provided no sum
    wraps around [2^32], that is when the old [next_rowset_id] is in the
    range of [uint32_t] and the range end of every rebased rowset is below
    [2^32], every new id is the plain sum and so at least the old
    [next_rowset_id], and [next_rowset_id] covers the range of every new
    rowset. *)
Theorem full_replication_rebase (op : TxnLogPB_OpReplication) (txn : Z) s s' :
  txn_state (txn_meta op) = TXN_REPLICATED ->
  snapshot_version (txn_meta op) = _new_version s ->
  incremental_snapshot (txn_meta op) = false ->
  apply_replication_log op txn s = (OK, s') ->
  let base := next_rowset_id (_metadata s) in
  let new_rowsets := rowsets (_metadata s') in
  new_rowsets = rebased32 base <$> op_writes op /\
  (exists loaded : list (Z * DelVector),
     appended_delvecs (_builder s') = appended_delvecs (_builder s) ++ loaded /\
     Forall2 (fun d dv => dv.1 = wrap32 (d.1 + base) /\
                          delvec_load (_new_version s) d.2 = Value dv.2)
       (delvecs op) loaded) /\
  next_rowset_id (_metadata s') = max_rowset_end32 base new_rowsets /\
  base <= next_rowset_id (_metadata s') /\
  (forall r, r ∈ new_rowsets -> wrap32 (rowset_end r) <= next_rowset_id (_metadata s')) /\
  cumulative_point (_metadata s') = 0 /\
  compaction_inputs (_metadata s') = rowsets (_metadata s) /\
  world (ext s') = update_mgr_unload_primary_index (_tablet s) (world (ext s)) /\
  count (is_unload_event (_tablet s)) (trace (ext s'))
  = S (count (is_unload_event (_tablet s)) (trace (ext s))) /\
  (uint32_ok base ->
   (forall w, w ∈ op_writes op ->
      0 <= rowset_id (rowset w) /\
      rowset_id (rowset w) + base + Z.max 1 (segments_size (rowset w)) < 2 ^ 32) ->
   new_rowsets = rebased base <$> op_writes op /\
   (forall r, r ∈ new_rowsets -> base <= rowset_id r) /\
   next_rowset_id (_metadata s') = max_rowset_end base new_rowsets /\
   (forall r, r ∈ new_rowsets -> rowset_end r <= next_rowset_id (_metadata s'))).
Proof.
  intros Hstate Hver Hinc Happ base new_rowsets.
  unfold apply_replication_log in Happ.
  rewrite Hstate, Hver, Z.eqb_refl, Hinc in Happ. cbn [is_replicated negb] in Happ.
  rewrite (rebase_fold _ _ base) in Happ by done.
  change (next_rowset_id (set_delvec_meta [] (set_rowsets [] (_metadata s)))) with base in Happ.
  apply and_then_ok in Happ as (s1 & Hdv & Happ).
  apply append_delvecs_ok in Hdv as (loaded & Hall & ->).
  injection Happ as <-. subst new_rowsets. simpl.
  assert (Hcopy : forall m, rowsets (copy_source_schema op m) = rowsets m /\
                    next_rowset_id (copy_source_schema op m) = next_rowset_id m /\
                    cumulative_point (copy_source_schema op m) = cumulative_point m /\
                    compaction_inputs (copy_source_schema op m) = compaction_inputs m)
    by (intros m; unfold copy_source_schema; by destruct (or_source_schema op)).
  match goal with
  | |- context [copy_source_schema op ?M] => destruct (Hcopy M) as (-> & -> & -> & ->)
  end.
  simpl.
  split; [done|]. split; [by exists loaded|]. split; [done|].
  split; [apply max_rowset_end32_ge|].
  split; [intros r Hr; by apply max_rowset_end32_elem|].
  split; [done|]. split; [done|]. split; [done|]. split.
  { rewrite !count_app. simpl. rewrite Z.eqb_refl.
    assert (Hnone : forall n v,
              count (is_unload_event (_tablet s)) (replicate n (EvDelvecLoad v)) = O)
      by (induction n; intros; simpl; auto).
    rewrite Hnone. lia. }
  intros Hbase Hws.
  destruct (rebase_no_wrap base (op_writes op) Hbase Hws base) as [Hrb Hmax].
  rewrite Hrb, Hmax.
  split; [done|]. split.
  { intros r Hr. apply list_elem_of_fmap in Hr as (w & -> & Hw).
    destruct (Hws w Hw). unfold rebased. simpl. lia. }
  split; [done|].
  intros r Hr. by apply RowsetIdClaims.max_rowset_end_elem.
Qed.

End WithCollaborators.

(** [next_rowset_id = 20] and replicated rowsets with ids 0, 1 and 5. *)
Lemma full_replication_rebase_witness :
  let s := pk_tablet 20 [rs 3 1 5; rs 7 2 5] 9 10 (script0 [] OK) in
  let s' := (apply_replication_log full_snapshot 7 s).2 in
  rowset_id <$> rowsets (_metadata s') = [20; 21; 25] /\
  (forall r, r ∈ rowsets (_metadata s') -> 20 <= rowset_id r) /\
  next_rowset_id (_metadata s') = 26 /\
  cumulative_point (_metadata s') = 0 /\
  compaction_inputs (_metadata s') = [rs 3 1 5; rs 7 2 5] /\
  unloaded (world (ext s')) = [10001].
Proof.
  intros s s'.
  pose proof (full_replication_rebase full_snapshot 7
                (pk_tablet 20 [rs 3 1 5; rs 7 2 5] 9 10 (script0 [] OK))
                (apply_replication_log full_snapshot 7
                   (pk_tablet 20 [rs 3 1 5; rs 7 2 5] 9 10 (script0 [] OK))).2
                eq_refl eq_refl eq_refl eq_refl) as H.
  destruct H as (Hrs & _ & Hnext & _ & _ & Hcp & Hci & Hw & _ & Hplain).
  destruct Hplain as (_ & Hge & _ & _).
  - unfold uint32_ok. simpl. lia.
  - intros w Hw'. unfold full_snapshot in Hw'. simpl in Hw'.
    repeat (apply elem_of_cons in Hw' as [->|Hw'];
            [vm_compute; split; [discriminate|reflexivity]|]).
    by apply elem_of_nil in Hw'.
  - split; [exact (f_equal (fmap rowset_id) Hrs)|].
    split; [exact Hge|].
    split; [exact Hnext|]. split; [exact Hcp|]. split; [exact Hci|].
    exact (f_equal unloaded Hw).
Defined.

(** C8, counterexample. On a tablet whose [next_rowset_id] is
    [2^32 - 6 = 4294967290], the sums of the rebase wrap. The replication of
    rowsets with ids 0 and 10 succeeds and gives the second one the id 4,
    below the old [next_rowset_id], and equal to the id of the rowset moved
    to the compaction inputs. The replication of rowsets with ids 0, 1 and 5
    succeeds and leaves [next_rowset_id = 4294967292], below the id
    4294967295 of the last new rowset, whose range it does not cover. *)
Lemma full_replication_rebase_wraps :
  let s := pk_tablet 4294967290 [rs 4 1 5] 9 10 (script0 [] OK) in
  let base := next_rowset_id (_metadata s) in
  let r1 := apply_replication_log (snapshot_of_ids [0; 10]) 7 s in
  let r2 := apply_replication_log (snapshot_of_ids [0; 1; 5]) 7 s in
  (r1.1 = OK /\
   rowset_id <$> rowsets (_metadata r1.2) = [4294967290; 4] /\
   compaction_inputs (_metadata r1.2) = [rs 4 1 5] /\
   exists r, r ∈ rowsets (_metadata r1.2) /\ rowset_id r < base) /\
  (r2.1 = OK /\
   rowset_id <$> rowsets (_metadata r2.2) = [4294967290; 4294967291; 4294967295] /\
   next_rowset_id (_metadata r2.2) = 4294967292 /\
   exists r, r ∈ rowsets (_metadata r2.2) /\
             next_rowset_id (_metadata r2.2) < rowset_end r).
Proof.
  cbn zeta. split.
  - split; [reflexivity|]. split; [reflexivity|]. split; [reflexivity|].
    exists (rs 4 1 100). split; [|reflexivity].
    apply elem_of_cons. right. apply elem_of_cons. by left.
  - split; [reflexivity|]. split; [reflexivity|]. split; [reflexivity|].
    exists (rs 4294967295 1 100). split; [|reflexivity].
    do 2 (apply elem_of_cons; right). apply elem_of_cons. by left.
Qed.

(** One embedded write whose publish fails and asks for a recover. *)
Lemma incremental_replication_does_not_recover_witness :
  let s := pk_tablet 1 [] 5 6 (script0 [(io_error, RECOVER_WITH_PUBLISH)] OK) in
  let r := apply_replication_log (incremental_snapshot_of (write_of 0)) 7 s in
  count is_recover_event (trace (ext r.2)) = O /\
  r.1 = (apply_write_log (write_of 0) 7 s).1.
Proof.
  simpl.
  pose proof (incremental_replication_does_not_recover
                (incremental_snapshot_of (write_of 0)) 7
                (pk_tablet 1 [] 5 6 (script0 [(io_error, RECOVER_WITH_PUBLISH)] OK))
                eq_refl eq_refl eq_refl) as (_ & Hrec & _ & Hone).
  split; [exact Hrec|]. exact (proj1 (Hone (write_of 0) eq_refl)).
Defined.

(** C7, counterexample. The same write, whose first publish fails and
    leaves [RECOVER_WITH_PUBLISH] in the builder, in a write log and in an
    incremental replication log: the write log is recovered and published
    again and [apply] returns [OK]; the replication log is not recovered,
    [apply] returns the failure of the publish and the flag stays set. *)
Lemma incremental_replication_skips_recover :
  let x := script0 [(io_error, RECOVER_WITH_PUBLISH); (OK, RecoverFlag_OK)] OK in
  let s := pk_tablet 1 [] 5 6 x in
  let write_log := mkTxnLog 7 (Some (write_of 0)) None None None None in
  let replication_log :=
    mkTxnLog 7 None None None None (Some (incremental_snapshot_of (write_of 0))) in
  let standalone := apply cfg_default write_log s in
  let replicated := apply cfg_default replication_log s in
  standalone.1 = OK /\
  count is_recover_event (trace (ext standalone.2)) = 1%nat /\
  count is_lock_event (trace (ext standalone.2)) = 2%nat /\
  replicated.1 = io_error /\
  count is_recover_event (trace (ext replicated.2)) = O /\
  count is_lock_event (trace (ext replicated.2)) = 1%nat /\
  recover_flag (_builder replicated.2) = RECOVER_WITH_PUBLISH /\
  replicated.1 <> (check_and_recover cfg_default (apply_write_log (write_of 0) 7) s).1.
Proof. repeat split; try reflexivity. discriminate. Qed.

End ReplicationClaims.

(** ** The version of the in-memory metadata *)

Module VersionClaims.

Section WithCollaborators.
Context {World : Type} `{!Collaborators World}.
Variable cfg : Config.

Lemma alter_meta_one_version (a : MetadataUpdateInfoPB) (m : TabletMetadata) (x : Ext World) :
  version (alter_meta_one (m, x) a).1 = version m.
Proof.
  unfold alter_meta_one.
  by destruct (mu_enable_persistent_index a), (mu_tablet_schema a).
Qed.

Lemma alter_meta_version (l : list MetadataUpdateInfoPB) :
  forall (m : TabletMetadata) (x : Ext World),
    version (fold_left alter_meta_one l (m, x)).1 = version m.
Proof.
  induction l as [|a l IH]; intros m x; [done|].
  cbn [fold_left]. pose proof (alter_meta_one_version a m x) as Ha.
  destruct (alter_meta_one (m, x) a) as [m1 x1]. by rewrite IH.
Qed.

(** *** Non-primary-key applier *)

Import NonPrimaryKeyTxnLogApplier.

Lemma write_version (w : TxnLogPB_OpWrite) (m : TabletMetadata) :
  version (NonPrimaryKeyTxnLogApplier.apply_write_log w m).2 = version m.
Proof. unfold NonPrimaryKeyTxnLogApplier.apply_write_log. by destruct (_ && _). Qed.

Lemma writes_version (ws : list TxnLogPB_OpWrite) :
  forall m, version (NonPrimaryKeyTxnLogApplier.apply_write_logs ws m).2 = version m.
Proof.
  induction ws as [|w ws IH]; intros m; [done|].
  simpl. unfold and_then.
  pose proof (write_version w m) as Hw.
  destruct (NonPrimaryKeyTxnLogApplier.apply_write_log w m) as [st m1].
  destruct (ok st); [|done]. simpl in Hw. by rewrite IH.
Qed.

Lemma compaction_version (c : TxnLogPB_OpCompaction) (m : TabletMetadata) :
  version (NonPrimaryKeyTxnLogApplier.apply_compaction_log cfg c m).2 = version m.
Proof.
  unfold NonPrimaryKeyTxnLogApplier.apply_compaction_log.
  destruct (input_rowsets c); [done|].
  destruct (_ =? _)%nat; [done|].
  destruct (check_inputs _ _ _); [done|].
  destruct (enable_size_tiered_compaction_strategy cfg); [|destruct (_ >? _)]; simpl;
    apply CompactionFacts.splice_version.
Qed.

Lemma replication_version (nv : Z) (r : TxnLogPB_OpReplication) (m : TabletMetadata) :
  version (NonPrimaryKeyTxnLogApplier.apply_replication_log nv r m).2 = version m.
Proof.
  unfold NonPrimaryKeyTxnLogApplier.apply_replication_log.
  destruct (negb _); [done|]. destruct (negb _); [done|].
  destruct (incremental_snapshot _); unfold and_then.
  - pose proof (writes_version (op_writes r) m) as Hw.
    destruct (NonPrimaryKeyTxnLogApplier.apply_write_logs _ m) as [st m1].
    destruct (ok st); [|done]. simpl in *. by destruct (or_source_schema r).
  - pose proof (writes_version (op_writes r) (set_rowsets [] m)) as Hw.
    destruct (NonPrimaryKeyTxnLogApplier.apply_write_logs _ _) as [st m1].
    destruct (ok st); [|done]. simpl in *. by destruct (or_source_schema r).
Qed.

Lemma np_kept_and_then (a b : Step (@NonPrimaryKeyTxnLogApplier.t World)) :
  np_kept a -> np_kept b -> @np_kept World (and_then a b).
Proof.
  intros Ha Hb s. unfold and_then. destruct (Ha s) as [Ha1 Ha2].
  destruct (a s) as [st s1]. destruct (ok st); [|done].
  destruct (Hb s1) as [Hb1 Hb2]. simpl in *. split; congruence.
Qed.

Lemma np_kept_skip : @np_kept World skip.
Proof. done. Qed.

Lemma np_kept_on_metadata (f : Step TabletMetadata) :
  (forall m, version (f m).2 = version m) -> @np_kept World (on_metadata f).
Proof.
  intros Hf s. unfold on_metadata. specialize (Hf (NonPrimaryKeyTxnLogApplier._metadata s)).
  by destruct (f _).
Qed.

Lemma np_apply_kept (log : TxnLogPB) : @np_kept World (NonPrimaryKeyTxnLogApplier.apply cfg log).
Proof.
  unfold NonPrimaryKeyTxnLogApplier.apply.
  repeat apply np_kept_and_then.
  - destruct (op_write log); [|apply np_kept_skip].
    apply np_kept_on_metadata, write_version.
  - destruct (op_compaction log); [|apply np_kept_skip].
    apply np_kept_on_metadata, compaction_version.
  - destruct (op_schema_change log); [|apply np_kept_skip].
    apply np_kept_on_metadata. intros m. apply RowsetIdClaims.schema_change_version.
  - destruct (op_replication log); [|apply np_kept_skip].
    intros s. unfold on_metadata.
    pose proof (replication_version (NonPrimaryKeyTxnLogApplier._new_version s) t0
                  (NonPrimaryKeyTxnLogApplier._metadata s)).
    by destruct (NonPrimaryKeyTxnLogApplier.apply_replication_log _ _ _).
  - destruct (op_alter_metadata log); [|apply np_kept_skip].
    intros s. unfold NonPrimaryKeyTxnLogApplier.apply_alter_metadata, apply_alter_meta_log.
    pose proof (alter_meta_version (metadata_update_infos t0)
                  (NonPrimaryKeyTxnLogApplier._metadata s)
                  (NonPrimaryKeyTxnLogApplier.ext s)).
    by destruct (fold_left _ _ _).
Qed.

(** *** Primary-key applier *)

Import PrimaryKeyTxnLogApplier.
Hypothesis Hkeep : collaborators_keep_version.

Lemma pk_kept_and_then (a b : Step (@PrimaryKeyTxnLogApplier.t World)) :
  pk_kept a -> pk_kept b -> @pk_kept World (and_then a b).
Proof.
  intros Ha Hb s. unfold and_then. destruct (Ha s) as [Ha1 Ha2].
  destruct (a s) as [st s1]. destruct (ok st); [|done].
  destruct (Hb s1) as [Hb1 Hb2]. simpl in *. split; congruence.
Qed.

Lemma pk_kept_skip : @pk_kept World skip.
Proof. done. Qed.

Lemma pk_kept_call_shared (e : Event) (f : Shared World -> Status * Shared World) :
  keeps_version f -> @pk_kept World (call_shared e f).
Proof.
  intros Hf s. unfold call_shared. specialize (Hf (shared_of s)). by destruct (f _).
Qed.

Lemma pk_kept_prepare : @pk_kept World prepare_index_entry.
Proof.
  intros s. unfold prepare_index_entry. destruct (_index_entry s); [done|].
  pose proof (prepare_keeps_version Hkeep (_base_version s) (_new_version s) (shared_of s)).
  by destruct (update_mgr_prepare_primary_index _ _ _) as [[e|c msg] sh].
Qed.

Lemma pk_kept_with_shard_lock (body : Step (@PrimaryKeyTxnLogApplier.t World)) :
  pk_kept body -> @pk_kept World (with_shard_lock body).
Proof.
  intros Hb s. unfold with_shard_lock. specialize (Hb (lock_shard s)).
  by destruct (body _).
Qed.

Lemma pk_kept_publish_func (p : PublishStep) : @pk_kept World (publish_func p).
Proof.
  destruct p as [w txn|c txn]; simpl;
    apply pk_kept_with_shard_lock, pk_kept_and_then; try apply pk_kept_prepare; intros s.
  - destruct (_ && _); [done|].
    apply (pk_kept_call_shared _ _ (publish_write_keeps_version Hkeep _ _ _ _)).
  - destruct (input_rowsets c); [done|].
    apply (pk_kept_call_shared _ _ (publish_compaction_keeps_version Hkeep _ _ _ _)).
Qed.

Lemma pk_kept_check_and_recover (f : Step (@PrimaryKeyTxnLogApplier.t World)) :
  pk_kept f -> @pk_kept World (check_and_recover cfg f).
Proof.
  intros Hf s. unfold check_and_recover. destruct (Hf s) as [H1 H2].
  destruct (f s) as [ret s1]. destruct (_ && _); [|done].
  match goal with
  | |- context [call_shared EvRecover lake_primary_key_recover ?s3] =>
      destruct (pk_kept_call_shared EvRecover _ (recover_keeps_version Hkeep) s3) as [H3 H4];
      destruct (call_shared EvRecover lake_primary_key_recover s3) as [rst s4]
  end.
  simpl in *. destruct (ok rst); [|simpl; split; congruence].
  destruct (need_re_publish s4); [|simpl; split; congruence].
  match goal with |- context [f ?s5] => destruct (Hf s5) as [H5 H6] end.
  simpl in *. split; congruence.
Qed.

Lemma pk_kept_write_logs (ws : list TxnLogPB_OpWrite) (txn : Z) :
  @pk_kept World (PrimaryKeyTxnLogApplier.apply_write_logs ws txn).
Proof.
  induction ws as [|w ws IH]; [apply pk_kept_skip|].
  simpl. apply pk_kept_and_then; [|done]. apply (pk_kept_publish_func (PublishWrite w txn)).
Qed.

Lemma pk_kept_schema_change (op : TxnLogPB_OpSchemaChange) :
  @pk_kept World (PrimaryKeyTxnLogApplier.apply_schema_change_log op).
Proof.
  intros s. unfold PrimaryKeyTxnLogApplier.apply_schema_change_log.
  assert (Hv : forall m1,
             version (match sc_delvec_meta op with
                      | Some dv => set_delvec_meta dv m1
                      | None => m1
                      end) = version m1) by (intros; by destruct (sc_delvec_meta op)).
  destruct (_ <? _); [destruct (tablet_put_metadata _ _)|]; simpl;
    by rewrite Hv, RowsetIdClaims.schema_change_version.
Qed.

Lemma pk_kept_append_delvecs (dvs : list (Z * string)) : @pk_kept World (append_delvecs dvs).
Proof.
  induction dvs as [|[seg data] dvs IH]; intros s; [done|].
  simpl. destruct (delvec_load _ _); [|done].
  match goal with |- context [append_delvecs dvs ?s1] => destruct (IH s1) as [H1 H2] end.
  simpl in *. by split.
Qed.

Lemma pk_kept_replication (op : TxnLogPB_OpReplication) (txn : Z) :
  @pk_kept World (PrimaryKeyTxnLogApplier.apply_replication_log op txn).
Proof.
  intros s. unfold PrimaryKeyTxnLogApplier.apply_replication_log.
  destruct (negb _); [done|]. destruct (negb _); [done|].
  assert (Hcopy : forall m, version (copy_source_schema op m) = version m)
    by (intros m; unfold copy_source_schema; by destruct (or_source_schema op)).
  destruct (incremental_snapshot _).
  - apply pk_kept_and_then; [apply pk_kept_write_logs|].
    intros s1. simpl. by rewrite Hcopy.
  - rewrite (ReplicationClaims.rebase_fold _ _ (next_rowset_id (_metadata s))) by done.
    match goal with
    | |- context [and_then ?a ?b ?s1] =>
        assert (Hk : @pk_kept World (and_then a b));
        [apply pk_kept_and_then; [apply pk_kept_append_delvecs|]|
         destruct (Hk s1) as [H1 H2]; simpl in *; by split]
    end.
    intros s1. simpl. by rewrite Hcopy.
Qed.

Lemma pk_kept_alter_metadata (op : TxnLogPB_OpAlterMetadata) :
  @pk_kept World (PrimaryKeyTxnLogApplier.apply_alter_metadata op).
Proof.
  intros s. unfold PrimaryKeyTxnLogApplier.apply_alter_metadata, apply_alter_meta_log.
  pose proof (alter_meta_version (metadata_update_infos op) (_metadata s) (ext s)).
  by destruct (fold_left _ _ _).
Qed.

Lemma pk_apply_kept (log : TxnLogPB) : @pk_kept World (PrimaryKeyTxnLogApplier.apply cfg log).
Proof.
  intros s. unfold PrimaryKeyTxnLogApplier.apply.
  match goal with
  | |- context [and_then ?a ?b ?s0] =>
      assert (Hk : @pk_kept World (and_then a b)); [|destruct (Hk s0) as [H1 H2]; by split]
  end.
  repeat apply pk_kept_and_then.
  - destruct (op_write log) as [w|]; [|apply pk_kept_skip].
    apply pk_kept_check_and_recover, (pk_kept_publish_func (PublishWrite w (txn_id log))).
  - destruct (op_compaction log) as [c|]; [|apply pk_kept_skip].
    apply pk_kept_check_and_recover, (pk_kept_publish_func (PublishCompaction c (txn_id log))).
  - destruct (op_schema_change log); [|apply pk_kept_skip]. apply pk_kept_schema_change.
  - destruct (op_alter_metadata log); [apply pk_kept_alter_metadata|].
    destruct (op_replication log); [|apply pk_kept_skip]. apply pk_kept_replication.
Qed.

Lemma pk_finish_kept : @pk_kept World PrimaryKeyTxnLogApplier.finish.
Proof.
  unfold PrimaryKeyTxnLogApplier.finish. repeat apply pk_kept_and_then.
  - intros s. destruct (_index_entry s) as [e|]; [|done].
    apply pk_kept_and_then; [|done].
    apply (pk_kept_call_shared _ _ (commit_keeps_version Hkeep e)).
  - intros s. apply (pk_kept_call_shared _ _ (finalize_keeps_version Hkeep _)).
  - done.
Qed.

End WithCollaborators.

(** C9 (amended). The primary-key applier sets the version of the in-memory
    metadata to [new_version] in its constructor, and no [apply] of any op
    kind, no checkpoint write and no [finish] changes it afterwards, as long
    as the collaborators that are handed the metadata leave its version
    alone. The non-primary-key applier keeps the version of the metadata it
    was constructed with through the constructor and every [apply], and sets
    it to [new_version] in [finish]. *)
Theorem metadata_version {World : Type} `{!Collaborators World} (cfg : Config) :
  (forall tablet m nv (x : Ext World),
     version (PrimaryKeyTxnLogApplier._metadata (PrimaryKeyTxnLogApplier.new tablet m nv x)) = nv /\
     PrimaryKeyTxnLogApplier._new_version (PrimaryKeyTxnLogApplier.new tablet m nv x) = nv) /\
  (collaborators_keep_version ->
   (forall log, @pk_kept World (PrimaryKeyTxnLogApplier.apply cfg log)) /\
   @pk_kept World PrimaryKeyTxnLogApplier.finish) /\
  (forall tablet m nv (x : Ext World),
     version (NonPrimaryKeyTxnLogApplier._metadata
                (NonPrimaryKeyTxnLogApplier.new tablet m nv x)) = version m /\
     NonPrimaryKeyTxnLogApplier._new_version (NonPrimaryKeyTxnLogApplier.new tablet m nv x) = nv) /\
  (forall log, @np_kept World (NonPrimaryKeyTxnLogApplier.apply cfg log)) /\
  (forall s, version (NonPrimaryKeyTxnLogApplier._metadata (NonPrimaryKeyTxnLogApplier.finish s).2)
             = NonPrimaryKeyTxnLogApplier._new_version s).
Proof.
  split; [done|]. split.
  { intros Hkeep. split; [intros log; by apply pk_apply_kept|by apply pk_finish_kept]. }
  split; [done|]. split; [apply np_apply_kept|].
  intros s. unfold NonPrimaryKeyTxnLogApplier.finish. by destruct (tablet_put_metadata _ _).
Qed.

(** The scripted collaborators never touch the version. *)
Lemma scripted_keeps_version : collaborators_keep_version (World := Script).
Proof.
  assert (Hp : keeps_version scripted_publish).
  { intros sh. unfold scripted_publish.
    by destruct (publish_script (sh_world sh)) as [|[st flag] script']. }
  split; try done; intros; exact Hp.
Qed.

(** A schema change with a checkpoint write at version 3 followed by a
    recovered write, on a primary-key tablet bumped to version 6. *)
Lemma metadata_version_witness :
  let log := mkTxnLog 7 (Some (write_of 0)) None
               (Some (mkOpSchemaChange [rs 2 1 5] None 3 false)) None None in
  let s := pk_tablet 1 [] 1 6
             (script0 [(io_error, RECOVER_WITH_PUBLISH)] OK) in
  version (PrimaryKeyTxnLogApplier._metadata s) = 6 /\
  version (PrimaryKeyTxnLogApplier._metadata (PrimaryKeyTxnLogApplier.apply cfg_default log s).2)
  = 6 /\
  version <$> store (world (PrimaryKeyTxnLogApplier.ext
                              (PrimaryKeyTxnLogApplier.apply cfg_default log s).2)) = [3].
Proof.
  intros log s.
  destruct (metadata_version (World := Script) cfg_default) as (Hnew & Hpk & _).
  destruct (Hpk scripted_keeps_version) as [Happly _].
  split; [apply Hnew|]. split; [|reflexivity].
  etrans; [apply (Happly log s)|]. apply Hnew.
Defined.

(** C9, counterexample. A non-primary-key applier constructed on a metadata
    at version 5 for [new_version = 6] holds version 5 after construction,
    and [finish] changes the version to 6. *)
Lemma non_primary_key_version_set_by_finish :
  let s := NonPrimaryKeyTxnLogApplier.new 10001 (md0 [] 1 0) 6 (script0 [] OK) in
  version (NonPrimaryKeyTxnLogApplier._metadata s) = 5 /\
  version (NonPrimaryKeyTxnLogApplier._metadata s) <> NonPrimaryKeyTxnLogApplier._new_version s /\
  version (NonPrimaryKeyTxnLogApplier._metadata (NonPrimaryKeyTxnLogApplier.finish s).2) = 6 /\
  version (NonPrimaryKeyTxnLogApplier._metadata (NonPrimaryKeyTxnLogApplier.finish s).2)
  <> version (NonPrimaryKeyTxnLogApplier._metadata s).
Proof. repeat split; try reflexivity; discriminate. Qed.

End VersionClaims.

(** ** The order of the op fields of a log *)

Module OrderClaims.

(** C1 (amended). The non-primary-key applier applies the op fields present
    on a log in the order write, compaction, schema-change, replication,
    metadata-alter, each of them unless an earlier one fails. The
    primary-key applier, after raising [_max_txn_id], applies them in the
    order write, compaction, schema-change, metadata-alter, replication, each
    of them unless an earlier one fails, on every log that does not carry
    both a metadata-alter and a replication op. *)
Theorem apply_order {World : Type} `{!Collaborators World} (cfg : Config) (log : TxnLogPB) :
  (forall s : @NonPrimaryKeyTxnLogApplier.t World,
     NonPrimaryKeyTxnLogApplier.apply cfg log s
     = run_ops (non_primary_key_step cfg) non_primary_key_order log s) /\
  (op_alter_metadata log = None \/ op_replication log = None ->
   forall s : @PrimaryKeyTxnLogApplier.t World,
     PrimaryKeyTxnLogApplier.apply cfg log s
     = run_ops (primary_key_step cfg) spec_order log
         (PrimaryKeyTxnLogApplier.with_max_txn_id
            (Z.max (PrimaryKeyTxnLogApplier._max_txn_id s) (txn_id log)) s)).
Proof.
  split.
  - intros s. unfold NonPrimaryKeyTxnLogApplier.apply, non_primary_key_order.
    cbn [run_ops has_op non_primary_key_step].
    destruct (op_write log), (op_compaction log), (op_schema_change log),
      (op_replication log), (op_alter_metadata log);
      repeat (apply and_then_ext; intros ?); symmetry; apply and_then_skip_r.
  - intros Hnot s. unfold PrimaryKeyTxnLogApplier.apply, spec_order.
    cbn [run_ops has_op primary_key_step].
    set (s0 := PrimaryKeyTxnLogApplier.with_max_txn_id _ s). clearbody s0.
    assert (Hlast : forall y,
              match op_alter_metadata log with
              | Some am => PrimaryKeyTxnLogApplier.apply_alter_metadata am
              | None =>
                  match op_replication log with
                  | Some r => PrimaryKeyTxnLogApplier.apply_replication_log r (txn_id log)
                  | None => skip
                  end
              end y
              = and_then
                  (if match op_alter_metadata log with Some _ => true | None => false end
                   then primary_key_step cfg OpAlterMetadata log else skip)
                  (and_then
                     (if match op_replication log with Some _ => true | None => false end
                      then primary_key_step cfg OpReplication log else skip)
                     skip) y).
    { intros y. cbn [primary_key_step]. destruct Hnot as [Hn|Hn]; rewrite Hn.
      - destruct (op_replication log) as [r|]; [|done].
        unfold and_then, skip.
        destruct (PrimaryKeyTxnLogApplier.apply_replication_log r (txn_id log) y) as [st z].
        by destruct st.
      - destruct (op_alter_metadata log) as [am|]; [|done].
        unfold and_then, skip.
        destruct (PrimaryKeyTxnLogApplier.apply_alter_metadata am y) as [st z].
        by destruct st. }
    cbn [primary_key_step] in Hlast.
    destruct (op_write log), (op_compaction log), (op_schema_change log);
      repeat (apply and_then_ext; intros ?); apply Hlast.
Qed.

(** A log with a write and a metadata-alter op. *)
Lemma apply_order_witness :
  let log := mkTxnLog 7 (Some (write_of 0)) None None (Some alter_schema) None in
  let s := pk_tablet 1 [] 5 6 (script0 [] OK) in
  PrimaryKeyTxnLogApplier.apply cfg_default log s
  = run_ops (primary_key_step cfg_default) spec_order log
      (PrimaryKeyTxnLogApplier.with_max_txn_id 7 s).
Proof.
  intros log s.
  destruct (apply_order (World := Script) cfg_default log) as [_ Hpk].
  apply (Hpk (or_intror eq_refl) s).
Defined.

(** C1, counterexample. On a log carrying a metadata-alter op and a
    replication op the appliers do not follow the order of the
    specification. The non-primary-key applier runs the replication op
    first: when its framing is invalid the error is returned with the schema
    untouched, where the specified order would have altered the schema
    before failing. The primary-key applier returns right after the
    metadata-alter op: a valid full-snapshot replication op on the same log
    is never applied, and the primary index is not unloaded. *)
Lemma apply_order_differs :
  let bad_replication :=
    mkOpReplication (mkReplicationTxnMeta TXN_PREPARED 6 false 7) [] [] None in
  let good_replication :=
    mkOpReplication (mkReplicationTxnMeta TXN_REPLICATED 6 false 7) [] [] None in
  let log1 := mkTxnLog 7 None None None (Some alter_schema) (Some bad_replication) in
  let log2 := mkTxnLog 7 None None None (Some alter_schema) (Some good_replication) in
  let np := NonPrimaryKeyTxnLogApplier.new 10001 (md0 abcd 5 1) 6 (script0 [] OK) in
  let pk := pk_tablet 5 abcd 5 6 (script0 [] OK) in
  let np_code := NonPrimaryKeyTxnLogApplier.apply cfg_default log1 np in
  let np_spec := run_ops (non_primary_key_step cfg_default) spec_order log1 np in
  let pk_code := PrimaryKeyTxnLogApplier.apply cfg_default log2 pk in
  let pk_spec := run_ops (primary_key_step cfg_default) spec_order log2
                   (PrimaryKeyTxnLogApplier.with_max_txn_id 7 pk) in
  schema_id (schema (NonPrimaryKeyTxnLogApplier._metadata np_code.2)) = 1 /\
  schema_id (schema (NonPrimaryKeyTxnLogApplier._metadata np_spec.2)) = 2 /\
  np_code <> np_spec /\
  pk_code.1 = OK /\
  rowsets (PrimaryKeyTxnLogApplier._metadata pk_code.2) = abcd /\
  unloaded (world (PrimaryKeyTxnLogApplier.ext pk_code.2)) = [] /\
  rowsets (PrimaryKeyTxnLogApplier._metadata pk_spec.2) = [] /\
  unloaded (world (PrimaryKeyTxnLogApplier.ext pk_spec.2)) = [10001] /\
  pk_code <> pk_spec.
Proof.
  repeat split; try reflexivity.
  - intros H. apply (f_equal (fun r => schema_id (schema (NonPrimaryKeyTxnLogApplier._metadata r.2)))) in H.
    vm_compute in H. discriminate H.
  - intros H. apply (f_equal (fun r => rowsets (PrimaryKeyTxnLogApplier._metadata r.2))) in H.
    vm_compute in H. discriminate H.
Qed.

End OrderClaims.

(** * Further properties *)

Module WriteFacts.
Import NonPrimaryKeyTxnLogApplier.

Lemma id_span_nonneg (l : list RowsetMetadata) : 0 <= id_span l.
Proof. induction l as [|r l IH]; simpl; lia. Qed.

Lemma id_span_cons (r : RowsetMetadata) (l : list RowsetMetadata) :
  id_span (r :: l) = Z.max 1 (segments_size r) + id_span l.
Proof. done. Qed.

Lemma segments_size_set_id (v : Z) (r : RowsetMetadata) :
  segments_size (set_id v r) = segments_size r.
Proof. done. Qed.

(** What a sequence of writes leaves, when the ids stay below [2^32]. *)
Lemma apply_write_logs_assign_ids (ws : list TxnLogPB_OpWrite) :
  forall m : TabletMetadata,
    let new := written_rowsets ws in
    0 <= next_rowset_id m ->
    next_rowset_id m + id_span new < 2 ^ 32 ->
    apply_write_logs ws m
    = (OK, set_next_rowset_id (next_rowset_id m + id_span new)
             (set_rowsets (rowsets m ++ assign_ids (next_rowset_id m) new) m)).
Proof.
  induction ws as [|w ws IH]; intros m new Hnext Hspan.
  - subst new. unfold written_rowsets. simpl. rewrite app_nil_r, Z.add_0_r. by destruct m.
  - simpl. unfold and_then, apply_write_log. fold (appended_by_write w).
    subst new. unfold written_rowsets in Hspan |- *. rewrite filter_cons in Hspan |- *.
    destruct (appended_by_write w) eqn:Hw.
    + rewrite decide_True in Hspan |- * by done. rewrite fmap_cons in Hspan |- *.
      fold (written_rowsets ws) in Hspan |- *.
      rewrite id_span_cons in Hspan |- *.
      pose proof (id_span_nonneg (written_rowsets ws)).
      cbn [ok]. rewrite segments_size_set_id.
      change (next_rowset_id (add_rowsets (set_id (next_rowset_id m) (rowset w)) m))
        with (next_rowset_id m).
      assert (Hseg : 1 <= Z.max 1 (segments_size (rowset w))) by lia.
      rewrite wrap32_small by lia.
      rewrite IH; cbn [next_rowset_id set_next_rowset_id]; [|lia|lia].
      cbn [assign_ids]. simpl. rewrite <- app_assoc. simpl.
      unfold set_next_rowset_id, set_rowsets, add_rowsets. simpl. by rewrite Z.add_assoc.
    + rewrite decide_False in Hspan |- * by (by intros ?). simpl. by apply IH.
Qed.

(** X1. A sequence of writes of the non-primary-key applier never fails; it
    keeps the rowsets already there and appends, in order, the rowsets of the
    writes that carry rows or a delete predicate, under consecutive id ranges
    allocated from the old [next_rowset_id] on, and leaves [next_rowset_id]
    right above the last range, as long as the ids stay below [2^32]; nothing
    else of the metadata changes. *)
Theorem writes_allocate_consecutive_ids (ws : list TxnLogPB_OpWrite) (m : TabletMetadata) :
  let new := written_rowsets ws in
  let r := apply_write_logs ws m in
  0 <= next_rowset_id m ->
  next_rowset_id m + id_span new < 2 ^ 32 ->
  r.1 = OK /\
  rowsets r.2 = rowsets m ++ assign_ids (next_rowset_id m) new /\
  next_rowset_id r.2 = next_rowset_id m + id_span new /\
  r.2 = set_next_rowset_id (next_rowset_id r.2) (set_rowsets (rowsets r.2) m).
Proof.
  intros new r Hnext Hspan. subst r.
  rewrite (apply_write_logs_assign_ids ws m Hnext Hspan). done.
Qed.

Lemma writes_allocate_consecutive_ids_witness :
  let ws := [write_of 0; mkOpWrite None []; mkOpWrite (Some (rs 0 3 7)) []; write_of 0] in
  let r := apply_write_logs ws (md0 abcd 5 0) in
  r.1 = OK /\
  rowsets r.2 = abcd ++ [rs 5 1 100; rs 6 3 7; rs 9 1 100] /\
  next_rowset_id r.2 = 10.
Proof.
  intros ws r.
  destruct (writes_allocate_consecutive_ids ws (md0 abcd 5 0)) as (Hst & Hrs & Hnext & _).
  - simpl. lia.
  - vm_compute. reflexivity.
  - split; [exact Hst|]. split; [exact Hrs|exact Hnext].
Defined.

End WriteFacts.

Module CompactionExtras.
Import NonPrimaryKeyTxnLogApplier NonPrimaryKeyFacts CompactionFacts CompactionClaims.

(** [x] is none of the elements of a list given by its elements. *)
Ltac in_literal_not :=
  let H := fresh in
  intros H;
  repeat (apply elem_of_cons in H as [H|H]; [discriminate H|]);
  by apply elem_of_nil in H.

Ltac other_message H :=
  unfold msg_cumulative_point, msg_not_adjacent, msg_not_found, msg_not_exist in H;
  simpl in H; discriminate H.

Lemma spliced_rowsets_length (op : TxnLogPB_OpCompaction) (first last : nat)
    (m : TabletMetadata) :
  (first < last <= length (rowsets m))%nat ->
  Z.of_nat (length (spliced_rowsets op first last m))
  = Z.of_nat (length (rowsets m)) - Z.of_nat (last - first)
    + (if has_output op then 1 else 0).
Proof.
  intros H. unfold spliced_rowsets.
  destruct (has_output op); rewrite length_app; simpl;
    rewrite length_take, length_drop; lia.
Qed.

Lemma splice_other_fields (op : TxnLogPB_OpCompaction) (first last : nat)
    (m : TabletMetadata) :
  tablet_id (splice op first last m) = tablet_id m /\
  schema (splice op first last m) = schema m /\
  enable_persistent_index (splice op first last m) = enable_persistent_index m /\
  delvec_meta (splice op first last m) = delvec_meta m /\
  source_schema (splice op first last m) = source_schema m.
Proof. unfold splice. by destruct (has_output op). Qed.

(** X2. A compaction with inputs that succeeds has found its inputs at
    consecutive positions of the rowsets, in order (invariant I3): the
    rowsets moved to [compaction_inputs] are that slice and carry exactly the
    input ids, the number of rowsets drops by the number of inputs, less one
    when the output takes the first slot, and the tablet id, version, schema,
    persistent index flag, delvec metadata and source schema are untouched. *)
Theorem compaction_success_consumes_adjacent_inputs (cfg : Config)
    (op : TxnLogPB_OpCompaction) (m m' : TabletMetadata) :
  input_rowsets op <> [] ->
  apply_compaction_log cfg op m = (OK, m') ->
  exists first : nat,
    let last := (first + length (input_rowsets op))%nat in
    (last <= length (rowsets m))%nat /\
    inputs_adjacent_at (rowset_ids m) (input_rowsets op) first /\
    compaction_inputs m' = compaction_inputs m ++ slice first last (rowsets m) /\
    rowset_id <$> slice first last (rowsets m) = input_rowsets op /\
    Z.of_nat (length (rowsets m'))
    = Z.of_nat (length (rowsets m)) - input_rowsets_size op
      + (if has_output op then 1 else 0) /\
    tablet_id m' = tablet_id m /\ version m' = version m /\ schema m' = schema m /\
    enable_persistent_index m' = enable_persistent_index m /\
    delvec_meta m' = delvec_meta m /\ source_schema m' = source_schema m.
Proof.
  intros Hne Happ.
  pose proof (apply_compaction_log_outcome cfg op m Hne) as Hout.
  rewrite Happ in Hout.
  inversion Hout as [| |first last m1 cp Hf Hr Hs Hle Hm]. subst m'.
  exists first. fold last.
  destruct (splice_other_fields op first last m) as (H1 & H2 & H3 & H4 & H5).
  split; [lia|]. split; [by apply slice_adjacent|].
  subst m1. cbn [compaction_inputs rowsets set_cumulative_point tablet_id version schema
                 enable_persistent_index delvec_meta source_schema].
  split; [apply splice_compaction_inputs|]. split; [done|]. split.
  { rewrite splice_rowsets, spliced_rowsets_length by done.
    unfold input_rowsets_size. subst last. f_equal. lia. }
  rewrite splice_version. done.
Qed.

(** X3. A compaction never drops a rowset, and adds exactly the output
    rowset when it has spliced its inputs in. When it returns [OK] on inputs
    that are not empty, or the cumulative point error, which are the cases
    in which the inputs have been spliced, the rowsets and the compaction
    inputs of the metadata it leaves are, up to order, those from before
    together with the output rowset under the old [next_rowset_id] when the
    output has rows, and those from before alone when it has none. In every
    other case, that is without inputs or on any other error, the metadata
    is left as it was. *)
Theorem compaction_keeps_every_rowset (cfg : Config) (op : TxnLogPB_OpCompaction)
    (m : TabletMetadata) :
  let r := apply_compaction_log cfg op m in
  let out := set_id (next_rowset_id m) (output_rowset op) in
  let has_spliced :=
    input_rowsets op <> [] /\
    (r.1 = OK \/ exists cp sz, r.1 = InternalError (msg_cumulative_point cp sz)) in
  (has_spliced ->
   rowsets r.2 ++ compaction_inputs r.2
   ≡ₚ (if has_output op then [out] else []) ++ rowsets m ++ compaction_inputs m) /\
  (~ has_spliced -> r.2 = m).
Proof.
  cbn zeta.
  destruct (input_rowsets op) as [|i l] eqn:Hin.
  { unfold apply_compaction_log. rewrite Hin. split; [by intros [? _]|done]. }
  assert (Hne : input_rowsets op <> []) by (by rewrite Hin).
  pose proof (apply_compaction_log_outcome cfg op m Hne) as Hout. rewrite Hin in Hne.
  assert (Hsp : forall first last : nat,
            (first < last <= length (rowsets m))%nat ->
            rowsets (splice op first last m) ++ compaction_inputs (splice op first last m)
            ≡ₚ (if has_output op
                then [set_id (next_rowset_id m) (output_rowset op)] else [])
               ++ rowsets m ++ compaction_inputs m).
  { intros first last Hr.
    rewrite splice_rowsets, splice_compaction_inputs by done. unfold spliced_rowsets.
    assert (Hp : take first (rowsets m) ++ drop last (rowsets m)
                 ++ compaction_inputs m ++ slice first last (rowsets m)
                 ≡ₚ rowsets m ++ compaction_inputs m).
    { replace (rowsets m ++ compaction_inputs m)
        with ((take first (rowsets m) ++ slice first last (rowsets m)
               ++ drop last (rowsets m)) ++ compaction_inputs m)
        by (by rewrite <- RowsetIdFacts.slice_middle by lia).
      rewrite <- !app_assoc. apply Permutation_app_head.
      rewrite (app_assoc (drop last (rowsets m))). apply Permutation_app_comm. }
    destruct (has_output op).
    - rewrite <- app_assoc. simpl. etrans; [symmetry; apply Permutation_middle|].
      by constructor.
    - by rewrite <- app_assoc. }
  inversion Hout as [msg Hmsg Heq|first last m1 cp Hf Hr Hs Hst Hgt Heq
                     |first last m1 cp Hf Hr Hs Hle Heq]; simpl.
  - split; [|done]. intros [_ [H|(cp & sz & H)]]; [discriminate H|].
    unfold InternalError in H. injection H as H. subst msg.
    destruct Hmsg as [H|(id & _ & [H|H])]; other_message H.
  - split; [intros _; by apply Hsp|]. intros Hno. exfalso. apply Hno.
    split; [done|]. right. by eexists _, _.
  - split; [intros _; by apply Hsp|]. intros Hno. exfalso. apply Hno.
    split; [done|]. by left.
Qed.

(** From a cumulative point within the rowsets, the recomputed one is within
    the rowsets left by the splice. *)
Lemma new_cumulative_point_bound (op : TxnLogPB_OpCompaction) (m : TabletMetadata)
    (first : nat) :
  cumulative_point_ok m ->
  Z.of_nat (length (rowsets m)) <= INT_MAX ->
  input_rowsets op <> [] ->
  (first < first + length (input_rowsets op) <= length (rowsets m))%nat ->
  0 <= new_cumulative_point op (wrap32 (Z.of_nat first))
         (splice op first (first + length (input_rowsets op)) m)
  <= Z.of_nat (length (rowsets (splice op first (first + length (input_rowsets op)) m))).
Proof.
  unfold cumulative_point_ok. intros Hcp Hmax Hne Hr.
  rewrite (new_cumulative_point_expected op first m) by
    (try apply splice_cumulative_point; try done; unfold uint32_ok, INT_MAX in *; lia).
  rewrite splice_rowsets, spliced_rowsets_length by done.
  replace (Z.of_nat (first + length (input_rowsets op) - first))
    with (input_rowsets_size op) by (unfold input_rowsets_size; lia).
  unfold expected_cumulative_point, input_rowsets_size in *.
  destruct (Z.geb_spec (Z.of_nat first) (cumulative_point m));
    [|destruct (Z.geb_spec (cumulative_point m) (Z.of_nat (length (input_rowsets op))))];
    destruct (has_output op); lia.
Qed.

(** X4. Invariant I4 is kept: on a metadata whose cumulative point is at most
    the number of rowsets, a compaction never returns the cumulative point
    error, and the metadata it leaves, spliced or not, still has its
    cumulative point at most the number of rowsets. *)
Theorem compaction_keeps_cumulative_point_bound (cfg : Config) (op : TxnLogPB_OpCompaction)
    (m m' : TabletMetadata) (st : Status) :
  cumulative_point_ok m ->
  Z.of_nat (length (rowsets m)) <= INT_MAX ->
  apply_compaction_log cfg op m = (st, m') ->
  cumulative_point_ok m' /\
  (forall cp sz, st <> InternalError (msg_cumulative_point cp sz)).
Proof.
  intros Hcp Hmax Happ.
  destruct (input_rowsets op) as [|i l] eqn:Hin.
  { unfold apply_compaction_log in Happ. rewrite Hin in Happ.
    injection Happ as <- <-. split; [done|]. intros cp sz H. discriminate H. }
  assert (Hne : input_rowsets op <> []) by (by rewrite Hin).
  pose proof (apply_compaction_log_outcome cfg op m Hne) as Hout.
  rewrite Happ in Hout.
  inversion Hout as [msg Hmsg Heq|first last m1 cp Hf Hr Hs Hst Hgt Heq
                     |first last m1 cp Hf Hr Hs Hle Heq].
  - subst st m'. split; [done|]. intros cp sz H. unfold InternalError in H.
    injection H as H. subst msg.
    destruct Hmsg as [H|(id & _ & [H|H])]; other_message H.
  - exfalso. subst last m1 cp.
    pose proof (new_cumulative_point_bound op m first Hcp Hmax Hne Hr). lia.
  - subst m' st. split; [|intros ? ? H; discriminate H].
    subst last m1. unfold cumulative_point_ok.
    cbn [cumulative_point rowsets set_cumulative_point].
    pose proof (new_cumulative_point_bound op m first Hcp Hmax Hne Hr).
    subst cp. destruct (enable_size_tiered_compaction_strategy cfg); lia.
Qed.

Lemma find_offset_nodup (l : list RowsetMetadata) (id : Z) :
  forall p : nat,
    NoDup (rowset_id <$> l) -> (rowset_id <$> l) !! p = Some id ->
    find_offset (Finder id) l = p.
Proof.
  induction l as [|x l IH]; intros p Hnd Hp; [done|].
  rewrite fmap_cons in Hnd, Hp. apply NoDup_cons in Hnd as [Hx Hnd].
  simpl. unfold Finder at 1. destruct p as [|p]; simpl in Hp.
  - injection Hp as ->. by rewrite Z.eqb_refl.
  - destruct (Z.eqb_spec (rowset_id x) id) as [Heq|_].
    + exfalso. apply Hx. rewrite Heq. by eapply list_elem_of_lookup_2.
    + f_equal. by apply IH.
Qed.

(** X6. The safety check accepts every valid compaction: when the rowset ids
    are pairwise distinct, the inputs occupy consecutive positions of the
    rowsets in order and the cumulative point is within the rowsets, the
    compaction succeeds. *)
Theorem compaction_succeeds_on_adjacent_inputs (cfg : Config) (op : TxnLogPB_OpCompaction)
    (m : TabletMetadata) :
  NoDup (rowset_ids m) ->
  input_rowsets op <> [] ->
  inputs_adjacent (rowset_ids m) (input_rowsets op) ->
  cumulative_point_ok m ->
  Z.of_nat (length (rowsets m)) <= INT_MAX ->
  (apply_compaction_log cfg op m).1 = OK.
Proof.
  intros Hnd Hne [p Hadj] Hcp Hmax. unfold apply_compaction_log.
  destruct (input_rowsets op) as [|input_id inputs] eqn:Hin; [done|].
  unfold inputs_adjacent_at, rowset_ids in Hadj.
  destruct (drop p (rowsets m)) as [|x l'] eqn:Hd.
  { rewrite <- fmap_drop, Hd in Hadj. by simpl in Hadj. }
  assert (Hlen : (p < length (rowsets m))%nat).
  { apply (f_equal length) in Hd. rewrite length_drop in Hd. simpl in Hd. lia. }
  rewrite <- fmap_drop, <- fmap_take, Hd in Hadj. simpl in Hadj.
  injection Hadj as Hx Hadj.
  assert (Hfirst : find_if (Finder input_id) (rowsets m) 0 = p).
  { rewrite find_if_0. apply find_offset_nodup; [done|].
    rewrite list_lookup_fmap.
    assert (Hlk : rowsets m !! p = Some x).
    { rewrite <- (Nat.add_0_r p), <- lookup_drop, Hd. done. }
    by rewrite Hlk, <- Hx. }
  rewrite Hfirst.
  destruct (Nat.eqb_spec p (length (rowsets m))); [lia|].
  assert (Htl : rowset_id <$> take (length inputs) (drop (p + 1) (rowsets m)) = inputs).
  { rewrite <- drop_drop, Hd. simpl. by rewrite drop_0. }
  rewrite (check_inputs_complete _ inputs p Htl).
  destruct (enable_size_tiered_compaction_strategy cfg); [done|].
  assert (Hr : (p < p + length (input_rowsets op) <= length (rowsets m))%nat).
  { rewrite Hin. simpl length. split; [lia|].
    apply (f_equal length) in Htl. rewrite length_fmap, length_take, length_drop in Htl. lia. }
  assert (Hne' : input_rowsets op <> []) by (by rewrite Hin).
  pose proof (new_cumulative_point_bound op m p Hcp Hmax Hne' Hr) as Hb.
  rewrite Hin in Hb. simpl length in Hb.
  replace (p + length inputs + 1)%nat with (p + S (length inputs))%nat by lia.
  destruct (Z.gtb_spec
              (new_cumulative_point op (wrap32 (Z.of_nat p))
                 (splice op p (p + S (length inputs)) m))
              (Z.of_nat (length (rowsets (splice op p (p + S (length inputs)) m)))));
    [lia|done].
Qed.

(** X5. A compaction whose first input id belongs to no rowset fails with
    "input rowset N not found", N being that id, and leaves the metadata as
    it was. *)
Theorem compaction_first_input_not_found (cfg : Config) (op : TxnLogPB_OpCompaction)
    (m : TabletMetadata) (input_id : Z) (inputs : list Z) :
  input_rowsets op = input_id :: inputs ->
  input_id ∉ rowset_ids m ->
  apply_compaction_log cfg op m = (InternalError (msg_not_found input_id), m).
Proof.
  intros Hin Hnot. unfold apply_compaction_log. rewrite Hin.
  destruct (Nat.eqb_spec (find_if (Finder input_id) (rowsets m) 0) (length (rowsets m)))
    as [|Hne]; [done|].
  exfalso. apply Hnot. rewrite find_if_0 in Hne.
  pose proof (find_offset_le (Finder input_id) (rowsets m)) as Hle.
  destruct (find_offset_lookup (Finder input_id) (rowsets m)) as (x & Hx & Hp); [lia|].
  apply list_elem_of_fmap. exists x. split.
  - unfold Finder in Hp. by apply Z.eqb_eq in Hp.
  - by eapply list_elem_of_lookup_2.
Qed.

Lemma compaction_success_consumes_adjacent_inputs_witness :
  let m := md0 abcd 100 1 in
  let m' := mkTabletMetadata 10001 5 (mkTabletSchema DUP_KEYS 1) false
              [rs 1 1 5; rs 100 2 10; rs 4 1 5] 102 2 [] [rs 2 1 5; rs 3 1 5] None in
  exists first : nat,
    inputs_adjacent_at (rowset_ids m) [2; 3] first /\
    compaction_inputs m' = slice first (first + 2) abcd /\
    Z.of_nat (length (rowsets m')) = 4 - 2 + 1.
Proof.
  intros m m'.
  destruct (compaction_success_consumes_adjacent_inputs cfg_default compact_bc m m')
    as (first & _ & Hadj & Hci & _ & Hlen & _).
  - discriminate.
  - reflexivity.
  - exists first. split; [exact Hadj|]. split; [exact Hci|exact Hlen].
Defined.

Lemma compaction_keeps_cumulative_point_bound_witness :
  let m' := mkTabletMetadata 10001 5 (mkTabletSchema DUP_KEYS 1) false
              [rs 1 1 5; rs 100 2 10; rs 4 1 5] 102 2 [] [rs 2 1 5; rs 3 1 5] None in
  apply_compaction_log cfg_default compact_bc (md0 abcd 100 1) = (OK, m') /\
  cumulative_point_ok m'.
Proof.
  intros m'. split; [reflexivity|].
  destruct (compaction_keeps_cumulative_point_bound cfg_default compact_bc
              (md0 abcd 100 1) m' OK) as [Hcp _].
  - unfold cumulative_point_ok. simpl. lia.
  - unfold INT_MAX. simpl. lia.
  - reflexivity.
  - exact Hcp.
Defined.

Lemma compaction_succeeds_on_adjacent_inputs_witness :
  (apply_compaction_log cfg_default compact_bc (md0 abcd 100 1)).1 = OK.
Proof.
  apply (compaction_succeeds_on_adjacent_inputs cfg_default compact_bc (md0 abcd 100 1)).
  - repeat (apply NoDup_cons; split; [in_literal_not|]). apply NoDup_nil_2.
  - discriminate.
  - exists 1%nat. reflexivity.
  - unfold cumulative_point_ok. simpl. lia.
  - unfold INT_MAX. simpl. lia.
Defined.

Lemma compaction_first_input_not_found_witness :
  apply_compaction_log cfg_default (mkOpCompaction [9; 2] None) (md0 abcd 5 0)
  = (InternalError (msg_not_found 9), md0 abcd 5 0).
Proof.
  apply (compaction_first_input_not_found cfg_default (mkOpCompaction [9; 2] None)
           (md0 abcd 5 0) 9 [2]).
  - reflexivity.
  - in_literal_not.
Defined.

End CompactionExtras.

Module ReplicationExtras.
Import NonPrimaryKeyTxnLogApplier.

Lemma apply_write_logs_ok (ws : list TxnLogPB_OpWrite) :
  forall m, (apply_write_logs ws m).1 = OK.
Proof.
  induction ws as [|w ws IH]; intros m; [done|].
  simpl. unfold and_then.
  assert (Hw : (apply_write_log w m).1 = OK)
    by (unfold apply_write_log; by destruct (_ && _)).
  destruct (apply_write_log w m) as [st m1]. simpl in Hw. subst st. simpl. apply IH.
Qed.

(** X7. The non-primary-key replication step succeeds exactly when the
    framing is valid, that is when the transaction state is [TXN_REPLICATED]
    and the snapshot version is the applier's new version; otherwise it
    returns a [Corruption] status and leaves the metadata as it was. *)
Theorem replication_succeeds_iff_framing_valid (nv : Z) (op : TxnLogPB_OpReplication)
    (m : TabletMetadata) :
  let r := apply_replication_log nv op m in
  (r.1 = OK <->
   txn_state (txn_meta op) = TXN_REPLICATED /\ snapshot_version (txn_meta op) = nv) /\
  (r.1 <> OK -> (exists msg, r.1 = Corruption msg) /\ r.2 = m).
Proof.
  intros r. subst r. unfold apply_replication_log.
  destruct (txn_state (txn_meta op)) eqn:Hst; simpl;
    try (split; [split; [discriminate|intros [? _]; discriminate]|intros _; eauto]).
  destruct (Z.eqb_spec (snapshot_version (txn_meta op)) nv) as [Hv|Hv]; simpl.
  - assert (Hok : forall m0 (k : Step TabletMetadata),
               (forall m1, (k m1).1 = OK) ->
               (and_then (apply_write_logs (op_writes op)) k m0).1 = OK).
    { intros m0 k Hk. unfold and_then.
      pose proof (apply_write_logs_ok (op_writes op) m0) as Hw.
      destruct (apply_write_logs (op_writes op) m0) as [st m1]. simpl in Hw. subst st.
      simpl. apply Hk. }
    destruct (incremental_snapshot (txn_meta op)); rewrite Hok by done; by split.
  - split; [split; [discriminate|by intros [_ ?]]|intros _; eauto].
Qed.

Section WithCollaborators.
Context {World : Type} `{!Collaborators World}.
Variable cfg : Config.

Lemma apply_write_log_only (txn : Z) (w : TxnLogPB_OpWrite)
    (s : @NonPrimaryKeyTxnLogApplier.t World) :
  NonPrimaryKeyTxnLogApplier.apply cfg (write_log txn w) s
  = on_metadata (apply_write_log w) s.
Proof.
  unfold NonPrimaryKeyTxnLogApplier.apply, write_log. simpl.
  unfold and_then. destruct (on_metadata (apply_write_log w) s) as [st s1].
  by destruct st.
Qed.

Lemma apply_all_write_logs (txn : Z) (ws : list TxnLogPB_OpWrite) :
  forall s : @NonPrimaryKeyTxnLogApplier.t World,
    non_primary_key_apply_all cfg (write_log txn <$> ws) s
    = on_metadata (apply_write_logs ws) s.
Proof.
  induction ws as [|w ws IH]; intros s.
  - simpl. unfold on_metadata, skip. simpl. by destruct s.
  - rewrite fmap_cons. cbn [non_primary_key_apply_all apply_write_logs].
    unfold and_then at 1. rewrite apply_write_log_only.
    unfold on_metadata, and_then. simpl.
    destruct (apply_write_log w (NonPrimaryKeyTxnLogApplier._metadata s)) as [st m1].
    destruct (ok st); [|done]. rewrite IH. unfold on_metadata. simpl. done.
Qed.

(** X8. Applying an incremental-snapshot replication log with valid framing
    on a non-primary-key tablet gives the state that applying its embedded
    writes as write logs of their own, one after the other, gives, with the
    source schema of the op, if it has one, copied on top. *)
Theorem incremental_replication_is_the_writes (log : TxnLogPB) (op : TxnLogPB_OpReplication)
    (s : @NonPrimaryKeyTxnLogApplier.t World) :
  op_write log = None -> op_compaction log = None -> op_schema_change log = None ->
  op_alter_metadata log = None -> op_replication log = Some op ->
  txn_state (txn_meta op) = TXN_REPLICATED ->
  snapshot_version (txn_meta op) = NonPrimaryKeyTxnLogApplier._new_version s ->
  incremental_snapshot (txn_meta op) = true ->
  NonPrimaryKeyTxnLogApplier.apply cfg log s
  = and_then (non_primary_key_apply_all cfg (write_log (txn_id log) <$> op_writes op))
      (on_metadata (fun m => (OK, match or_source_schema op with
                                  | Some sch => set_source_schema (Some sch) m
                                  | None => m
                                  end))) s.
Proof.
  intros Hw Hc Hsc Ham Hr Hstate Hver Hinc.
  unfold NonPrimaryKeyTxnLogApplier.apply. rewrite Hw, Hc, Hsc, Ham, Hr.
  rewrite !and_then_skip_l, and_then_skip_r.
  unfold and_then. rewrite apply_all_write_logs.
  unfold on_metadata, apply_replication_log.
  rewrite Hstate, Hver, Z.eqb_refl, Hinc. simpl. unfold and_then.
  destruct (apply_write_logs (op_writes op) (NonPrimaryKeyTxnLogApplier._metadata s))
    as [st m1].
  by destruct (ok st).
Qed.

End WithCollaborators.

Lemma incremental_replication_is_the_writes_witness :
  let op := mkOpReplication (mkReplicationTxnMeta TXN_REPLICATED 6 true 7)
              [write_of 0; write_of 0] [] (Some (mkTabletSchema DUP_KEYS 2)) in
  let log := mkTxnLog 7 None None None None (Some op) in
  let r := NonPrimaryKeyTxnLogApplier.apply cfg_default log (np_tablet (md0 abcd 5 0)) in
  r = and_then
        (non_primary_key_apply_all cfg_default
           [write_log 7 (write_of 0); write_log 7 (write_of 0)])
        (on_metadata (fun m => (OK, set_source_schema (Some (mkTabletSchema DUP_KEYS 2)) m)))
        (np_tablet (md0 abcd 5 0)) /\
  rowsets (NonPrimaryKeyTxnLogApplier._metadata r.2) = abcd ++ [rs 5 1 100; rs 6 1 100].
Proof.
  intros op log r. split; [|reflexivity].
  exact (incremental_replication_is_the_writes cfg_default log op (np_tablet (md0 abcd 5 0))
           eq_refl eq_refl eq_refl eq_refl eq_refl eq_refl eq_refl eq_refl).
Defined.

End ReplicationExtras.

(** ** Metadata-alter ops *)

Module AlterMetadataExtras.

Section WithCollaborators.
Context {World : Type} `{!Collaborators World}.

Lemma alter_meta_one_same_rowsets (a : MetadataUpdateInfoPB) (m : TabletMetadata)
    (x : Ext World) :
  same_rowsets m (alter_meta_one (m, x) a).1.
Proof.
  unfold alter_meta_one, same_rowsets.
  by destruct (mu_enable_persistent_index a), (mu_tablet_schema a).
Qed.

Lemma alter_meta_same_rowsets (l : list MetadataUpdateInfoPB) :
  forall (m : TabletMetadata) (x : Ext World),
    same_rowsets m (fold_left alter_meta_one l (m, x)).1.
Proof.
  induction l as [|a l IH]; intros m x; [by repeat split|].
  cbn [fold_left]. pose proof (alter_meta_one_same_rowsets a m x) as Ha.
  destruct (alter_meta_one (m, x) a) as [m1 x1]. simpl in Ha.
  specialize (IH m1 x1). unfold same_rowsets in *.
  destruct Ha as (? & ? & ? & ? & ? & ? & ? & ?).
  destruct IH as (? & ? & ? & ? & ? & ? & ? & ?). repeat split; congruence.
Qed.

Lemma alter_meta_last_values (l : list MetadataUpdateInfoPB) (m : TabletMetadata)
    (x : Ext World) :
  let m' := (fold_left alter_meta_one l (m, x)).1 in
  schema m' = default (schema m) (last (omap mu_tablet_schema l)) /\
  enable_persistent_index m'
  = default (enable_persistent_index m) (last (omap mu_enable_persistent_index l)).
Proof.
  induction l as [|a l IH] using rev_ind; [done|].
  rewrite fold_left_app, !omap_app. cbn [fold_left]. simpl in IH.
  destruct (fold_left alter_meta_one l (m, x)) as [m1 x1]. simpl in IH.
  destruct IH as [IH1 IH2]. unfold alter_meta_one. simpl.
  destruct (mu_enable_persistent_index a), (mu_tablet_schema a); simpl;
    rewrite ?app_nil_r, ?last_snoc; simpl; by rewrite ?IH1, ?IH2.
Qed.

Lemma alter_meta_trace (l : list MetadataUpdateInfoPB) :
  forall (m : TabletMetadata) (x : Ext World),
    trace (fold_left alter_meta_one l (m, x)).2
    = trace x ++ alter_calls (tablet_id m) (mkOpAlterMetadata l).
Proof.
  unfold alter_calls. simpl.
  induction l as [|a l IH]; intros m x; [by rewrite app_nil_r|].
  cbn [fold_left].
  pose proof (alter_meta_one_same_rowsets a m x) as (_ & _ & _ & _ & _ & Hid & _).
  assert (Ha : trace (alter_meta_one (m, x) a).2
               = trace x ++ match mu_enable_persistent_index a with
                            | Some v => [EvSetEnablePersistentIndex (tablet_id m) v;
                                         EvTryRemoveByKey (tablet_id m)]
                            | None => []
                            end).
  { unfold alter_meta_one.
    destruct (mu_enable_persistent_index a), (mu_tablet_schema a); simpl;
      by rewrite <- ?app_assoc, ?app_nil_r. }
  destruct (alter_meta_one (m, x) a) as [m1 x1]. simpl in Hid, Ha.
  rewrite IH, Ha, Hid. simpl.
  destruct (mu_enable_persistent_index a); simpl; by rewrite <- ?app_assoc, ?app_nil_r.
Qed.

(** X16. A metadata-alter op always succeeds. It leaves in the schema the
    last schema its entries carry and in the persistent index flag the last
    flag they carry, each as it was when no entry carries one, and touches
    nothing else of the metadata: the rowsets, the next rowset id, the
    cumulative point, the compaction inputs, the delvec metadata, the tablet
    id, the version and the source schema are as before. *)
Theorem alter_metadata_sets_last_values (op : TxnLogPB_OpAlterMetadata) (m : TabletMetadata)
    (x : Ext World) :
  let r := apply_alter_meta_log op (m, x) in
  r.1 = OK /\
  schema r.2.1 = default (schema m) (last_schema op) /\
  enable_persistent_index r.2.1
  = default (enable_persistent_index m) (last_enable_persistent_index op) /\
  same_rowsets m r.2.1.
Proof.
  simpl. split; [done|].
  destruct (alter_meta_last_values (metadata_update_infos op) m x) as [H1 H2].
  split; [exact H1|]. split; [exact H2|]. apply alter_meta_same_rowsets.
Qed.

(** X17. The calls of a metadata-alter op: for each entry that carries the
    persistent index flag, in order, the flag is set in the update manager
    and the removal of the tablet's index from the index cache is tried,
    both under the tablet id of the metadata; an entry that carries only a
    schema makes no call. *)
Theorem alter_metadata_calls (op : TxnLogPB_OpAlterMetadata) (m : TabletMetadata)
    (x : Ext World) :
  trace (apply_alter_meta_log op (m, x)).2.2 = trace x ++ alter_calls (tablet_id m) op.
Proof. simpl. rewrite alter_meta_trace. by destruct op. Qed.

End WithCollaborators.
End AlterMetadataExtras.

Module RowsetIdExtras.
Import NonPrimaryKeyTxnLogApplier RowsetIdFacts WriteFacts.

Lemma rowset_ids_ok_same (m m' : TabletMetadata) :
  rowsets m' = rowsets m -> compaction_inputs m' = compaction_inputs m ->
  next_rowset_id m' = next_rowset_id m ->
  rowset_ids_ok m' = rowset_ids_ok m.
Proof. unfold rowset_ids_ok. by intros -> -> ->. Qed.

Lemma pairwise_disjoint_app_l (l1 l2 : list RowsetMetadata) :
  pairwise_disjoint (l1 ++ l2) = true -> pairwise_disjoint l1 = true.
Proof.
  induction l1 as [|r l1 IH]; simpl; [done|].
  intros [Hr Hl]%andb_prop. rewrite forallb_app in Hr.
  apply andb_prop in Hr as [Hr _]. by rewrite Hr, IH.
Qed.

(** Ids assigned from [next] on, on top of a population that satisfies I2
    with [next]. *)
Lemma assign_ids_ok (l : list RowsetMetadata) :
  forall (next : Z) (pop : list RowsetMetadata),
    pairwise_disjoint pop && forallb (fun x => rowset_end x <=? next) pop = true ->
    pairwise_disjoint (assign_ids next l ++ pop)
    && forallb (fun x => rowset_end x <=? next + id_span l) (assign_ids next l ++ pop) = true.
Proof.
  induction l as [|r l IH]; intros next pop Hpop.
  - simpl. by rewrite Z.add_0_r.
  - rewrite id_span_cons. cbn [assign_ids].
    set (r' := set_id next r). set (next2 := next + Z.max 1 (segments_size r)).
    assert (Hp : assign_ids next2 l ++ r' :: pop ≡ₚ (r' :: assign_ids next2 l) ++ pop)
      by (symmetry; apply Permutation_middle).
    rewrite <- (pairwise_disjoint_perm _ _ Hp), <- (forallb_perm _ _ _ Hp).
    rewrite Z.add_assoc. apply IH.
    apply (allocate_ok r' next next2 pop); [done|done| | |done].
    + subst r' next2. unfold rowset_end. simpl. rewrite segments_size_set_id. lia.
    + subst next2. lia.
Qed.

(** A sequence of writes keeps I2 and uses up the room its rowsets take. *)
Lemma writes_keep_rowset_ids (ws : list TxnLogPB_OpWrite) (m : TabletMetadata) (room : Z) :
  0 <= room ->
  rowset_ids_ok_with_room (id_span (written_rowsets ws) + room) m ->
  rowset_ids_ok_with_room room (apply_write_logs ws m).2.
Proof.
  intros Hroom (Hok & Hnext & Hwrap).
  pose proof (id_span_nonneg (written_rowsets ws)) as Hspan.
  rewrite apply_write_logs_assign_ids by lia.
  unfold rowset_ids_ok_with_room, rowset_ids_ok in *. simpl.
  split; [|lia].
  assert (Hp : (rowsets m ++ assign_ids (next_rowset_id m) (written_rowsets ws))
               ++ compaction_inputs m
               ≡ₚ assign_ids (next_rowset_id m) (written_rowsets ws)
                  ++ rowsets m ++ compaction_inputs m).
  { rewrite <- app_assoc, !app_assoc. apply Permutation_app_tail, Permutation_app_comm. }
  rewrite (pairwise_disjoint_perm _ _ Hp), (forallb_perm _ _ _ Hp).
  by apply assign_ids_ok.
Qed.

Lemma compaction_next_rowset_id (cfg : Config) (c : TxnLogPB_OpCompaction)
    (m : TabletMetadata) :
  0 <= next_rowset_id m ->
  next_rowset_id m + Z.max 1 (segments_size (output_rowset c)) < 2 ^ 32 ->
  next_rowset_id m <= next_rowset_id (apply_compaction_log cfg c m).2
  <= next_rowset_id m + Z.max 1 (segments_size (output_rowset c)).
Proof.
  intros Hnext Hwrap.
  assert (Hseg : 0 <= segments_size (output_rowset c)) by (unfold segments_size; lia).
  assert (Hsp : forall first last,
            next_rowset_id m <= next_rowset_id (splice c first last m)
            <= next_rowset_id m + Z.max 1 (segments_size (output_rowset c))).
  { intros first last. rewrite CompactionFacts.splice_next_rowset_id.
    destruct (has_output c); [|lia]. rewrite wrap32_small by lia. lia. }
  unfold apply_compaction_log.
  destruct (input_rowsets c); [simpl; lia|].
  destruct (_ =? _)%nat; [simpl; lia|].
  destruct (check_inputs _ _ _); [simpl; lia|].
  destruct (enable_size_tiered_compaction_strategy cfg); [|destruct (_ >? _)]; simpl;
    apply Hsp.
Qed.

(** What a full-snapshot replication with valid framing leaves. *)
Lemma full_replication_replaces_rowsets_aux (nv : Z) (op : TxnLogPB_OpReplication)
    (m : TabletMetadata) :
  txn_state (txn_meta op) = TXN_REPLICATED ->
  snapshot_version (txn_meta op) = nv ->
  incremental_snapshot (txn_meta op) = false ->
  rowset_ids_ok_with_room (id_span (written_rowsets (op_writes op))) m ->
  let r := apply_replication_log nv op m in
  r.1 = OK /\
  rowsets r.2 = assign_ids (next_rowset_id m) (written_rowsets (op_writes op)) /\
  next_rowset_id r.2 = next_rowset_id m + id_span (written_rowsets (op_writes op)) /\
  cumulative_point r.2 = 0 /\
  compaction_inputs r.2 = rowsets m /\
  rowset_ids_ok r.2 = true.
Proof.
  intros Hstate Hver Hinc (Hok & Hnext & Hwrap) r. subst r.
  unfold apply_replication_log. rewrite Hstate, Hver, Z.eqb_refl, Hinc. simpl.
  unfold and_then.
  rewrite (apply_write_logs_assign_ids (op_writes op) (set_rowsets [] m)) by done.
  simpl.
  assert (Hold : pairwise_disjoint (rowsets m)
                 && forallb (fun x => rowset_end x <=? next_rowset_id m) (rowsets m) = true).
  { unfold rowset_ids_ok in Hok. apply andb_prop in Hok as [Hd Hb].
    rewrite forallb_app in Hb. apply andb_prop in Hb as [Hb _].
    by rewrite (pairwise_disjoint_app_l _ _ Hd), Hb. }
  destruct (or_source_schema op); unfold rowset_ids_ok; simpl;
    repeat (split; [done|]); by apply assign_ids_ok.
Qed.

(** X9. A full-snapshot replication with valid framing on a non-primary-key
    tablet succeeds and replaces the rowsets by those of the embedded writes
    that carry rows or a delete predicate, under fresh consecutive ids
    allocated from the old [next_rowset_id] on; the cumulative point is 0,
    the compaction inputs are the rowsets from before the step, in place of
    the compaction inputs from before, and invariant I2 still holds. *)
Theorem full_replication_replaces_rowsets (nv : Z) (op : TxnLogPB_OpReplication)
    (m : TabletMetadata) :
  txn_state (txn_meta op) = TXN_REPLICATED ->
  snapshot_version (txn_meta op) = nv ->
  incremental_snapshot (txn_meta op) = false ->
  rowset_ids_ok_with_room (id_span (written_rowsets (op_writes op))) m ->
  let r := apply_replication_log nv op m in
  r.1 = OK /\
  rowsets r.2 = assign_ids (next_rowset_id m) (written_rowsets (op_writes op)) /\
  next_rowset_id r.2 = next_rowset_id m + id_span (written_rowsets (op_writes op)) /\
  cumulative_point r.2 = 0 /\
  compaction_inputs r.2 = rowsets m /\
  rowset_ids_ok r.2 = true.
Proof. apply full_replication_replaces_rowsets_aux. Qed.

Section WithCollaborators.
Context {World : Type} `{!Collaborators World}.
Variable cfg : Config.

Lemma room_weaken (room room' : Z) (m : TabletMetadata) :
  room' <= room -> rowset_ids_ok_with_room room m -> rowset_ids_ok_with_room room' m.
Proof. unfold rowset_ids_ok_with_room. intros H (? & ? & ?). repeat split; [done|done|lia]. Qed.

Lemma replication_keeps_rowset_ids (nv : Z) (r : TxnLogPB_OpReplication) (m : TabletMetadata) :
  rowset_ids_ok_with_room (id_span (written_rowsets (op_writes r))) m ->
  rowset_ids_ok_with_room 0 (apply_replication_log nv r m).2.
Proof.
  intros Hm.
  pose proof (id_span_nonneg (written_rowsets (op_writes r))) as Hspan.
  destruct (txn_state (txn_meta r)) eqn:Hstate;
    try (unfold apply_replication_log; rewrite Hstate; simpl; by apply (room_weaken _ _ _ Hspan)).
  destruct (Z.eqb_spec (snapshot_version (txn_meta r)) nv) as [Hv|Hv];
    [|unfold apply_replication_log; rewrite Hstate; simpl;
      destruct (Z.eqb_spec (snapshot_version (txn_meta r)) nv); [done|];
      simpl; by apply (room_weaken _ _ _ Hspan)].
  destruct (incremental_snapshot (txn_meta r)) eqn:Hinc.
  - unfold apply_replication_log. rewrite Hstate, Hv, Z.eqb_refl, Hinc. simpl.
    unfold and_then.
    pose proof (writes_keep_rowset_ids (op_writes r) m 0 ltac:(lia)) as Hw.
    rewrite Z.add_0_r in Hw. specialize (Hw Hm).
    pose proof (ReplicationExtras.apply_write_logs_ok (op_writes r) m) as Hst.
    destruct (apply_write_logs (op_writes r) m) as [st m1]. simpl in *. subst st. simpl.
    unfold rowset_ids_ok_with_room in *.
    destruct (or_source_schema r); [|done].
    by rewrite (rowset_ids_ok_same m1 (set_source_schema _ m1)).
  - destruct (full_replication_replaces_rowsets_aux nv r m Hstate Hv Hinc Hm)
      as (_ & _ & Hn & _ & _ & Hok).
    destruct Hm as (_ & Hnext & Hwrap).
    unfold rowset_ids_ok_with_room. rewrite Hn. repeat split; [done|lia|lia].
Qed.

Lemma write_keeps_rowset_ids_with_room (w : TxnLogPB_OpWrite) (m : TabletMetadata) (room : Z) :
  0 <= room ->
  rowset_ids_ok_with_room (id_span (written_rowsets [w]) + room) m ->
  rowset_ids_ok_with_room room (apply_write_log w m).2.
Proof.
  intros Hroom Hm. pose proof (writes_keep_rowset_ids [w] m room Hroom Hm) as H.
  simpl in H. by rewrite and_then_skip_r in H.
Qed.

Lemma compaction_keeps_rowset_ids_with_room (c : TxnLogPB_OpCompaction) (m : TabletMetadata)
    (room : Z) :
  0 <= room ->
  (has_output c = true -> 1 <= segments_size (output_rowset c)) ->
  rowset_ids_ok_with_room (Z.max 1 (segments_size (output_rowset c)) + room) m ->
  rowset_ids_ok_with_room room (apply_compaction_log cfg c m).2.
Proof.
  intros Hroom Hseg (Hok & Hnext & Hwrap).
  pose proof (compaction_next_rowset_id cfg c m Hnext ltac:(lia)) as Hn.
  split; [apply compaction_keeps_rowset_ids; [done|done|done|lia]|]. lia.
Qed.

(** X10. Invariant I2 is kept by [apply] of the non-primary-key applier: on a
    metadata whose rowsets and compaction inputs use pairwise disjoint id
    ranges below [next_rowset_id], with room below [2^32] for the ids the log
    allocates, a log without schema-change op whose compaction output, if it
    has rows, has at least one segment leaves a metadata with the same
    property, whether [apply] succeeds or fails. *)
Theorem apply_keeps_rowset_ids (log : TxnLogPB) (s : @NonPrimaryKeyTxnLogApplier.t World) :
  op_schema_change log = None ->
  (forall c, op_compaction log = Some c -> has_output c = true ->
             1 <= segments_size (output_rowset c)) ->
  rowset_ids_ok_with_room (log_id_span log) (NonPrimaryKeyTxnLogApplier._metadata s) ->
  rowset_ids_ok
    (NonPrimaryKeyTxnLogApplier._metadata (NonPrimaryKeyTxnLogApplier.apply cfg log s).2)
  = true.
Proof.
  intros Hsc Hseg Hm. unfold log_id_span in Hm.
  unfold NonPrimaryKeyTxnLogApplier.apply. rewrite Hsc.
  destruct s as [tablet m nv x]. simpl in Hm.
  set (R2 := match op_compaction log with
             | Some c => Z.max 1 (segments_size (output_rowset c))
             | None => 0
             end) in *.
  set (R3 := id_span (written_rowsets match op_replication log with
                                      | Some r => op_writes r
                                      | None => []
                                      end)) in *.
  pose proof (id_span_nonneg (written_rowsets (option_list (op_write log)))) as Hs1.
  assert (Hs3 : 0 <= R3) by apply id_span_nonneg.
  assert (Hs2 : 0 <= R2) by (subst R2; destruct (op_compaction log); lia).
  (* write *)
  assert (H1 : exists st1 m1,
             match op_write log with
             | Some w => on_metadata (apply_write_log w)
             | None => skip
             end (NonPrimaryKeyTxnLogApplier.mk tablet m nv x)
             = (st1, NonPrimaryKeyTxnLogApplier.mk tablet m1 nv x) /\
             rowset_ids_ok_with_room (R2 + R3) m1).
  { destruct (op_write log) as [w|]; simpl in Hm.
    - assert (Hr : 0 <= R2 + R3) by lia.
      rewrite <- Z.add_assoc in Hm.
      pose proof (write_keeps_rowset_ids_with_room w m (R2 + R3) Hr Hm) as Hw.
      unfold on_metadata. simpl.
      destruct (apply_write_log w m) as [st1 m1]. by exists st1, m1.
    - exists OK, m. split; [done|]. exact Hm. }
  destruct H1 as (st1 & m1 & Heq1 & Hm1). unfold and_then at 1. rewrite Heq1.
  destruct (ok st1); [|by destruct Hm1].
  (* compaction *)
  assert (H2 : exists st2 m2,
             match op_compaction log with
             | Some c => on_metadata (apply_compaction_log cfg c)
             | None => skip
             end (NonPrimaryKeyTxnLogApplier.mk tablet m1 nv x)
             = (st2, NonPrimaryKeyTxnLogApplier.mk tablet m2 nv x) /\
             rowset_ids_ok_with_room R3 m2).
  { subst R2. destruct (op_compaction log) as [c|].
    - pose proof (compaction_keeps_rowset_ids_with_room c m1 R3 Hs3 (Hseg c eq_refl) Hm1) as Hc.
      unfold on_metadata. simpl.
      destruct (apply_compaction_log cfg c m1) as [st2 m2]. by exists st2, m2.
    - exists OK, m1. split; [done|]. by rewrite Z.add_0_l in Hm1. }
  destruct H2 as (st2 & m2 & Heq2 & Hm2). unfold and_then at 1. rewrite Heq2.
  destruct (ok st2); [|by destruct Hm2].
  rewrite and_then_skip_l.
  (* metadata-alter, after any replication outcome *)
  assert (Halter : forall m3, rowset_ids_ok m3 = true ->
             rowset_ids_ok
               (NonPrimaryKeyTxnLogApplier._metadata
                  (match op_alter_metadata log with
                   | Some am => NonPrimaryKeyTxnLogApplier.apply_alter_metadata am
                   | None => skip
                   end (NonPrimaryKeyTxnLogApplier.mk tablet m3 nv x)).2) = true).
  { intros m3 Hm3. destruct (op_alter_metadata log) as [am|]; [|done].
    unfold NonPrimaryKeyTxnLogApplier.apply_alter_metadata, apply_alter_meta_log. simpl.
    pose proof (AlterMetadataExtras.alter_meta_same_rowsets (metadata_update_infos am) m3 x) as Ha.
    destruct (fold_left alter_meta_one (metadata_update_infos am) (m3, x)) as [m4 x4].
    simpl in *. destruct Ha as (Hr & Hn & _ & Hci & _).
    by rewrite (rowset_ids_ok_same m3 m4). }
  (* replication *)
  unfold and_then. subst R3. destruct (op_replication log) as [r|].
  - pose proof (replication_keeps_rowset_ids nv r m2 Hm2) as [Hr _].
    unfold on_metadata. simpl.
    destruct (apply_replication_log nv r m2) as [st3 m3]. simpl in Hr.
    destruct (ok st3); [|exact Hr]. by apply Halter.
  - simpl. apply Halter. by destruct Hm2.
Qed.

End WithCollaborators.

Lemma full_replication_replaces_rowsets_witness :
  let r := apply_replication_log 10 full_snapshot (md0 abcd 5 0) in
  r.1 = OK /\
  rowsets r.2 = [rs 5 1 100; rs 6 1 100; rs 7 1 100] /\
  next_rowset_id r.2 = 8 /\
  compaction_inputs r.2 = abcd /\
  rowset_ids_ok r.2 = true.
Proof.
  intros r.
  destruct (full_replication_replaces_rowsets 10 full_snapshot (md0 abcd 5 0))
    as (Hst & Hrs & Hnext & _ & Hci & Hok); try reflexivity.
  - split; [reflexivity|]. split; [simpl; lia|]. vm_compute. reflexivity.
  - split; [exact Hst|]. split; [exact Hrs|]. split; [exact Hnext|].
    split; [exact Hci|exact Hok].
Defined.

Lemma apply_keeps_rowset_ids_witness :
  let log := mkTxnLog 7 (Some (write_of 0)) (Some compact_bc) None None None in
  let s' := (NonPrimaryKeyTxnLogApplier.apply cfg_default log (np_tablet (md0 abcd 5 0))).2 in
  rowset_ids (NonPrimaryKeyTxnLogApplier._metadata s') = [1; 6; 4; 5] /\
  rowset_ids_ok (NonPrimaryKeyTxnLogApplier._metadata s') = true.
Proof.
  intros log s'. split; [reflexivity|].
  apply (apply_keeps_rowset_ids cfg_default log (np_tablet (md0 abcd 5 0))).
  - reflexivity.
  - intros c Hc _. injection Hc as <-. vm_compute. discriminate.
  - split; [reflexivity|]. split; [vm_compute; discriminate|]. vm_compute. reflexivity.
Defined.

End RowsetIdExtras.

(** ** The calls of the primary-key applier *)

Module PrimaryKeyExtras.
Import PrimaryKeyTxnLogApplier.

Lemma protocol_run_app (tr1 tr2 : list Event) :
  forall held,
    protocol_run held (tr1 ++ tr2)
    = match protocol_run held tr1 with
      | Some h => protocol_run h tr2
      | None => None
      end.
Proof.
  induction tr1 as [|e tr1 IH]; intros held; [done|].
  destruct e, held; simpl; try done; apply IH.
Qed.

Section WithCollaborators.
Context {World : Type} `{!Collaborators World}.
Variable cfg : Config.
Implicit Types (s : @t World) (f : Step (@t World)).

Lemma follows_same (held : bool) s s' :
  _tablet s' = _tablet s -> _new_version s' = _new_version s ->
  _max_txn_id s' = _max_txn_id s -> _has_finalized s' = _has_finalized s ->
  ext s' = ext s ->
  follows_protocol held s s'.
Proof.
  intros ? ? ? ? Hx. repeat split; try done.
  exists []. by rewrite Hx, app_nil_r.
Qed.

Lemma follows_refl (held : bool) s : follows_protocol held s s.
Proof. by apply follows_same. Qed.

Lemma follows_trans (held : bool) s1 s2 s3 :
  follows_protocol held s1 s2 -> follows_protocol held s2 s3 -> follows_protocol held s1 s3.
Proof.
  intros (Ht1 & Hn1 & Hm1 & Hf1 & tr1 & Htr1 & Hr1) (Ht2 & Hn2 & Hm2 & Hf2 & tr2 & Htr2 & Hr2).
  repeat split; try congruence.
  exists (tr1 ++ tr2). split.
  - by rewrite Htr2, Htr1, app_assoc.
  - by rewrite protocol_run_app, Hr1.
Qed.

Lemma follows_call_world (held : bool) (e : Event) (g : World -> World) s :
  protocol_run held [e] = Some held ->
  follows_protocol held s (call_world e g s).
Proof. intros He. repeat split; try done. by exists [e]. Qed.

Lemma follows_call_shared (held : bool) (e : Event)
    (g : Shared World -> Status * Shared World) s :
  protocol_run held [e] = Some held ->
  follows_protocol held s (call_shared e g s).2.
Proof.
  intros He. unfold call_shared. destruct (g (shared_of s)) as [st sh].
  repeat split; try done. by exists [e].
Qed.

Lemma follows_and_then (held : bool) f1 f2 :
  (forall s, follows_protocol held s (f1 s).2) ->
  (forall s, follows_protocol held s (f2 s).2) ->
  forall s, follows_protocol held s (and_then f1 f2 s).2.
Proof.
  intros H1 H2 s. unfold and_then. pose proof (H1 s) as Hs.
  destruct (f1 s) as [st s1]. destruct (ok st); [|done].
  eapply follows_trans; [exact Hs|apply H2].
Qed.

Lemma follows_prepare_index_entry s :
  follows_protocol true s (prepare_index_entry s).2.
Proof.
  unfold prepare_index_entry. destruct (_index_entry s); [apply follows_refl|].
  destruct (update_mgr_prepare_primary_index _ _ _) as [[e|c msg] sh];
    (repeat split; try done); by eexists [_].
Qed.

Lemma follows_with_shard_lock (body : Step (@t World)) :
  (forall s, follows_protocol true s (body s).2) ->
  forall s, follows_protocol false s (with_shard_lock body s).2.
Proof.
  intros Hb s. unfold with_shard_lock.
  destruct (Hb (lock_shard s)) as (Ht & Hn & Hm & Hf & tr & Htr & Hr).
  destruct (body (lock_shard s)) as [st s1].
  unfold unlock_shard, lock_shard, call_world, call in *. simpl in *.
  repeat split; try done.
  exists (EvLockShard (_tablet s) :: tr ++ [EvUnlockShard (_tablet s1)]). split.
  - rewrite Htr. by rewrite <- !app_assoc.
  - simpl. by rewrite protocol_run_app, Hr.
Qed.

Lemma follows_apply_write_log (w : TxnLogPB_OpWrite) (txn : Z) s :
  follows_protocol false s (apply_write_log w txn s).2.
Proof.
  apply follows_with_shard_lock. apply follows_and_then.
  - apply follows_prepare_index_entry.
  - intros s1. destruct (_ && _); [apply follows_refl|by apply follows_call_shared].
Qed.

Lemma follows_apply_compaction_log (c : TxnLogPB_OpCompaction) (txn : Z) s :
  follows_protocol false s (apply_compaction_log c txn s).2.
Proof.
  apply follows_with_shard_lock. apply follows_and_then.
  - apply follows_prepare_index_entry.
  - intros s1. destruct (input_rowsets c); [apply follows_refl|by apply follows_call_shared].
Qed.

Lemma follows_check_and_recover f :
  (forall s, follows_protocol false s (f s).2) ->
  forall s, follows_protocol false s (check_and_recover cfg f s).2.
Proof.
  intros Hf s. unfold check_and_recover. pose proof (Hf s) as Hs.
  destruct (f s) as [ret s1]. simpl in Hs.
  destruct (_ && _); [|done].
  set (s3 := with_index_entry None _).
  assert (H3 : follows_protocol false s s3).
  { eapply follows_trans; [exact Hs|]. subst s3.
    repeat split; try done. by eexists [_]. }
  pose proof (follows_call_shared false EvRecover lake_primary_key_recover s3 eq_refl) as H4.
  destruct (call_shared EvRecover lake_primary_key_recover s3) as [rst s4]. simpl in H4.
  assert (H5 : follows_protocol false s
                 (with_builder (set_recover_flag RecoverFlag_OK (_builder s4)) s4)).
  { eapply follows_trans; [exact H3|]. eapply follows_trans; [exact H4|].
    by apply follows_same. }
  destruct (ok rst).
  - destruct (need_re_publish s4); [|done].
    eapply follows_trans; [exact H5|apply Hf].
  - eapply follows_trans; [exact H3|exact H4].
Qed.

Lemma follows_apply_schema_change_log (op : TxnLogPB_OpSchemaChange) s :
  follows_protocol false s (apply_schema_change_log op s).2.
Proof.
  unfold apply_schema_change_log. simpl.
  destruct (_ <? _); [|by apply follows_same].
  destruct (tablet_put_metadata _ _) as [st w]. simpl.
  repeat split; try done. by eexists [_].
Qed.

Lemma follows_alter_meta (l : list MetadataUpdateInfoPB) :
  forall (m : TabletMetadata) (x : Ext World),
    exists tr,
      trace (fold_left alter_meta_one l (m, x)).2 = trace x ++ tr /\
      protocol_run false tr = Some false.
Proof.
  induction l as [|a l IH]; intros m x; cbn [fold_left].
  - exists []. by rewrite app_nil_r.
  - assert (Ha : exists tr, trace (alter_meta_one (m, x) a).2 = trace x ++ tr /\
                            protocol_run false tr = Some false).
    { unfold alter_meta_one.
      destruct (mu_enable_persistent_index a), (mu_tablet_schema a); simpl;
        first [by eexists [_; _]; rewrite <- app_assoc
              |by exists []; rewrite app_nil_r]. }
    destruct Ha as (tr1 & Htr1 & Hr1).
    destruct (alter_meta_one (m, x) a) as [m1 x1]. simpl in Htr1.
    destruct (IH m1 x1) as (tr2 & Htr2 & Hr2).
    exists (tr1 ++ tr2). split.
    + by rewrite Htr2, Htr1, app_assoc.
    + by rewrite protocol_run_app, Hr1.
Qed.

Lemma follows_apply_alter_metadata (op : TxnLogPB_OpAlterMetadata) s :
  follows_protocol false s (apply_alter_metadata op s).2.
Proof.
  unfold apply_alter_metadata, apply_alter_meta_log.
  destruct (follows_alter_meta (metadata_update_infos op) (_metadata s) (ext s))
    as (tr & Htr & Hr).
  destruct (fold_left alter_meta_one _ _) as [m x]. simpl in *.
  repeat split; try done. by exists tr.
Qed.

Lemma follows_apply_write_logs (ws : list TxnLogPB_OpWrite) (txn : Z) :
  forall s, follows_protocol false s (apply_write_logs ws txn s).2.
Proof.
  induction ws as [|w ws IH]; [apply follows_refl|].
  simpl. apply follows_and_then; [apply follows_apply_write_log|exact IH].
Qed.

Lemma follows_append_delvecs (dvs : list (Z * string)) :
  forall s, follows_protocol false s (append_delvecs dvs s).2.
Proof.
  induction dvs as [|[seg data] dvs IH]; intros s; [apply follows_refl|].
  simpl.
  set (s1 := with_ext _ s).
  assert (H1 : follows_protocol false s s1).
  { repeat split; try done. by eexists [_]. }
  destruct (delvec_load _ _) as [dv|c msg]; [|exact H1].
  eapply follows_trans; [exact H1|].
  eapply follows_trans; [|apply IH]. by apply follows_same.
Qed.

Lemma follows_apply_replication_log (op : TxnLogPB_OpReplication) (txn : Z) s :
  follows_protocol false s (apply_replication_log op txn s).2.
Proof.
  unfold apply_replication_log.
  destruct (negb _); [apply follows_refl|].
  destruct (negb _); [apply follows_refl|].
  destruct (incremental_snapshot _).
  - apply follows_and_then; [apply follows_apply_write_logs|].
    intros s1. by apply follows_same.
  - destruct (fold_left _ _ _) as [nn m2].
    eapply follows_trans; [|apply follows_and_then].
    + by apply (follows_same false s (with_metadata m2 s)).
    + apply follows_append_delvecs.
    + intros s1. simpl. repeat split; try done. by eexists [_].
Qed.

Lemma follows_apply (log : TxnLogPB) s :
  follows_protocol false (with_max_txn_id (Z.max (_max_txn_id s) (txn_id log)) s)
    (apply cfg log s).2.
Proof.
  unfold apply.
  repeat apply follows_and_then; intros s1.
  - destruct (op_write log); [|apply follows_refl].
    apply follows_check_and_recover. apply follows_apply_write_log.
  - destruct (op_compaction log); [|apply follows_refl].
    apply follows_check_and_recover. apply follows_apply_compaction_log.
  - destruct (op_schema_change log); [|apply follows_refl].
    apply follows_apply_schema_change_log.
  - destruct (op_alter_metadata log); [apply follows_apply_alter_metadata|].
    destruct (op_replication log); [|apply follows_refl].
    apply follows_apply_replication_log.
Qed.

(** X11. The calls of [apply] follow the protocol of the index shard lock,
    on every path, failures and recoveries included: the lock is taken and
    released in turn and is free when [apply] returns; the primary index is
    prepared and a write or compaction is published only while the lock is
    held; the index cache release, the recover routine, the checkpoint
    write, the calls of a metadata-alter op, the loads of delete vectors and
    the unload of the index are made only while it is free; and no other
    call is made: [apply] never commits the index and never finalizes the
    builder. *)
Theorem apply_follows_call_protocol (log : TxnLogPB) s :
  exists tr,
    trace (ext (apply cfg log s).2) = trace (ext s) ++ tr /\
    protocol_run false tr = Some false.
Proof.
  destruct (follows_apply log s) as (_ & _ & _ & _ & tr & Htr & Hr).
  by exists tr.
Qed.

(** X12. Whatever it returns, [apply] leaves in [_max_txn_id] the larger of
    its old value and the transaction id of the log, and does not touch the
    finalized flag, the new version or the tablet. *)
Theorem apply_records_max_txn_id (log : TxnLogPB) s :
  let s' := (apply cfg log s).2 in
  _max_txn_id s' = Z.max (_max_txn_id s) (txn_id log) /\
  _has_finalized s' = _has_finalized s /\
  _new_version s' = _new_version s /\
  _tablet s' = _tablet s.
Proof.
  destruct (follows_apply log s) as (Ht & Hn & Hm & Hf & _).
  by repeat split.
Qed.

(** X20. After successive calls of [apply] that all succeed, [_max_txn_id]
    is the largest of its value before and the transaction ids of the logs
    applied, and the finalized flag is as it was. *)
Theorem successive_applies_record_max_txn_id (logs : list TxnLogPB) s :
  (primary_key_apply_all cfg logs s).1 = OK ->
  _max_txn_id (primary_key_apply_all cfg logs s).2
  = fold_left Z.max (txn_id <$> logs) (_max_txn_id s) /\
  _has_finalized (primary_key_apply_all cfg logs s).2 = _has_finalized s.
Proof.
  revert s. induction logs as [|log logs IH]; intros s; [done|].
  rewrite fmap_cons. cbn [primary_key_apply_all fold_left]. unfold and_then.
  destruct (follows_apply log s) as (_ & _ & Hm & Hf & _).
  destruct (apply cfg log s) as [st s1]. simpl in Hm, Hf.
  destruct (ok st) eqn:Hok.
  - intros Hall. destruct (IH s1 Hall) as [IHm IHf]. rewrite IHm, IHf, Hm, Hf. done.
  - simpl. intros ->. discriminate Hok.
Qed.

End WithCollaborators.

Lemma successive_applies_record_max_txn_id_witness :
  let logs := [write_log 7 (write_of 0); write_log 3 (write_of 0); write_log 9 (write_of 0)] in
  let r := primary_key_apply_all cfg_default logs (pk0 (script0 [] OK)) in
  r.1 = OK /\ _max_txn_id r.2 = 9 /\ _has_finalized r.2 = false.
Proof.
  intros logs r. split; [reflexivity|].
  exact (successive_applies_record_max_txn_id cfg_default logs (pk0 (script0 [] OK)) eq_refl).
Defined.

End PrimaryKeyExtras.

(** ** The index entry of the primary-key applier *)

Module IndexEntryExtras.
Import PrimaryKeyTxnLogApplier.

Lemma count_alter_calls (p : Event -> bool) (tablet : Z) (op : TxnLogPB_OpAlterMetadata) :
  (forall v, p (EvSetEnablePersistentIndex tablet v) = false) ->
  p (EvTryRemoveByKey tablet) = false ->
  count p (alter_calls tablet op) = O.
Proof.
  intros H1 H2. unfold alter_calls.
  induction (omap mu_enable_persistent_index (metadata_update_infos op)) as [|v l IH];
    [done|].
  simpl. by rewrite H1, H2, IH.
Qed.

Section WithCollaborators.
Context {World : Type} `{!Collaborators World}.
Variable cfg : Config.
Implicit Types (s : @t World) (f : Step (@t World)).

Lemma quiet_same s s' :
  _index_entry s' = _index_entry s -> ext s' = ext s -> quiet_step s s'.
Proof. intros He Hx. split; [done|]. exists []. by rewrite Hx, app_nil_r. Qed.

Lemma quiet_event (e : Event) s s' :
  _index_entry s' = _index_entry s ->
  trace (ext s') = trace (ext s) ++ [e] ->
  is_prepare_event e = false -> is_recover_event e = false ->
  quiet_step s s'.
Proof.
  intros He Htr Hp Hr. split; [done|]. exists [e]. simpl. by rewrite Hp, Hr.
Qed.

Lemma quiet_trans s1 s2 s3 : quiet_step s1 s2 -> quiet_step s2 s3 -> quiet_step s1 s3.
Proof.
  intros (He1 & tr1 & Htr1 & Hp1 & Hr1) (He2 & tr2 & Htr2 & Hp2 & Hr2).
  split; [congruence|]. exists (tr1 ++ tr2).
  rewrite !RecoverClaims.count_app, Hp1, Hp2, Hr1, Hr2, Htr2, Htr1, app_assoc. done.
Qed.

Lemma unprepared_quiet s s' : quiet_step s s' -> unprepared s' = unprepared s.
Proof. intros [He _]. unfold unprepared. by rewrite He. Qed.

Lemma budget_quiet (st : Status) s s' :
  quiet_step s s' -> prepares_within_budget cfg st s s'.
Proof.
  intros Hq. pose proof (unprepared_quiet s s' Hq) as Hu.
  destruct Hq as (_ & tr & Htr & Hp & Hr).
  exists tr. rewrite Hp, Hr, Hu. split; [done|]. split; [|done].
  destruct (ok st); lia.
Qed.

Lemma budget_after_quiet (st : Status) s1 s2 s3 :
  quiet_step s1 s2 -> prepares_within_budget cfg st s2 s3 ->
  prepares_within_budget cfg st s1 s3.
Proof.
  intros Hq (tr2 & Htr2 & Hb & Hd). pose proof (unprepared_quiet s1 s2 Hq) as Hu.
  destruct Hq as (_ & tr1 & Htr1 & Hp & Hr).
  exists (tr1 ++ tr2). rewrite !RecoverClaims.count_app, Hp, Hr, <- Hu.
  split; [by rewrite Htr2, Htr1, app_assoc|]. split; [exact Hb|exact Hd].
Qed.

Lemma budget_then_quiet (st : Status) s1 s2 s3 :
  prepares_within_budget cfg st s1 s2 -> quiet_step s2 s3 ->
  prepares_within_budget cfg st s1 s3.
Proof.
  intros (tr1 & Htr1 & Hb & Hd) Hq. pose proof (unprepared_quiet s2 s3 Hq) as Hu.
  destruct Hq as (_ & tr2 & Htr2 & Hp & Hr).
  exists (tr1 ++ tr2). rewrite !RecoverClaims.count_app, Hp, Hr, Hu, !Nat.add_0_r.
  split; [by rewrite Htr2, Htr1, app_assoc|]. split; [exact Hb|exact Hd].
Qed.

Lemma budget_trans (st1 st2 : Status) s1 s2 s3 :
  ok st1 = true ->
  prepares_within_budget cfg st1 s1 s2 -> prepares_within_budget cfg st2 s2 s3 ->
  prepares_within_budget cfg st2 s1 s3.
Proof.
  intros Hok (tr1 & Htr1 & Hb1 & Hd1) (tr2 & Htr2 & Hb2 & Hd2). rewrite Hok in Hb1.
  exists (tr1 ++ tr2). rewrite !RecoverClaims.count_app.
  split; [by rewrite Htr2, Htr1, app_assoc|]. split; [lia|].
  intros Hcfg. rewrite Hd1, Hd2; done.
Qed.

Lemma budget_and_then f1 f2 :
  (forall s, prepares_within_budget cfg (f1 s).1 s (f1 s).2) ->
  (forall s, prepares_within_budget cfg (f2 s).1 s (f2 s).2) ->
  forall s, prepares_within_budget cfg (and_then f1 f2 s).1 s (and_then f1 f2 s).2.
Proof.
  intros H1 H2 s. unfold and_then. pose proof (H1 s) as Hs.
  destruct (f1 s) as [st s1]. simpl in Hs. destruct (ok st) eqn:Hok; [|exact Hs].
  eapply budget_trans; [exact Hok|exact Hs|apply H2].
Qed.

Lemma budget_prepare_index_entry s :
  prepares_within_budget cfg (prepare_index_entry s).1 s (prepare_index_entry s).2.
Proof.
  unfold prepare_index_entry. destruct (_index_entry s) eqn:He.
  - apply budget_quiet. by apply quiet_same.
  - destruct (update_mgr_prepare_primary_index _ _ _) as [[e|c msg] sh]; simpl;
      eexists [_]; (split; [done|]); unfold unprepared; simpl; rewrite ?He; simpl;
      (split; [lia|done]).
Qed.

Lemma budget_with_shard_lock (body : Step (@t World)) :
  (forall s, prepares_within_budget cfg (body s).1 s (body s).2) ->
  forall s, prepares_within_budget cfg (with_shard_lock body s).1 s (with_shard_lock body s).2.
Proof.
  intros Hb s. unfold with_shard_lock. pose proof (Hb (lock_shard s)) as Hs.
  destruct (body (lock_shard s)) as [st s1]. simpl in *.
  eapply budget_after_quiet; [by eapply (quiet_event _ s (lock_shard s))|].
  eapply budget_then_quiet; [exact Hs|]. by eapply quiet_event.
Qed.

Lemma quiet_call_shared (e : Event) (g : Shared World -> Status * Shared World) s :
  is_prepare_event e = false -> is_recover_event e = false ->
  quiet_step s (call_shared e g s).2.
Proof.
  intros Hp Hr. unfold call_shared. destruct (g (shared_of s)) as [st sh].
  by eapply quiet_event.
Qed.

Lemma budget_apply_write_log (w : TxnLogPB_OpWrite) (txn : Z) s :
  prepares_within_budget cfg (apply_write_log w txn s).1 s (apply_write_log w txn s).2.
Proof.
  apply budget_with_shard_lock. apply budget_and_then.
  - apply budget_prepare_index_entry.
  - intros s1. apply budget_quiet.
    destruct (_ && _); [by apply quiet_same|by apply quiet_call_shared].
Qed.

Lemma budget_apply_compaction_log (c : TxnLogPB_OpCompaction) (txn : Z) s :
  prepares_within_budget cfg (apply_compaction_log c txn s).1 s
    (apply_compaction_log c txn s).2.
Proof.
  apply budget_with_shard_lock. apply budget_and_then.
  - apply budget_prepare_index_entry.
  - intros s1. apply budget_quiet.
    destruct (input_rowsets c); [by apply quiet_same|by apply quiet_call_shared].
Qed.

Lemma budget_check_and_recover f :
  (forall s, prepares_within_budget cfg (f s).1 s (f s).2) ->
  forall s, prepares_within_budget cfg (check_and_recover cfg f s).1 s
              (check_and_recover cfg f s).2.
Proof.
  intros Hf s. unfold check_and_recover. pose proof (Hf s) as Hs.
  destruct (f s) as [ret s1]. simpl in Hs.
  destruct (enable_primary_key_recover cfg) eqn:Hcfg; [|exact Hs].
  destruct (need_recover s1); [|exact Hs]. simpl.
  set (s3 := with_index_entry None _).
  destruct Hs as (tr1 & Htr1 & Hb1 & _).
  assert (Hb1' : (count is_prepare_event tr1
                  <= unprepared s + count is_recover_event tr1)%nat) by lia.
  pose proof (Hf (with_builder (set_recover_flag RecoverFlag_OK
                                  (_builder (call_shared EvRecover lake_primary_key_recover s3).2))
                    (call_shared EvRecover lake_primary_key_recover s3).2)) as H5.
  assert (H4 : trace (ext (call_shared EvRecover lake_primary_key_recover s3).2)
               = trace (ext s) ++ tr1 ++ [EvReleaseIndexCache (_index_entry s1); EvRecover] /\
               _index_entry (call_shared EvRecover lake_primary_key_recover s3).2 = None).
  { unfold call_shared. destruct (lake_primary_key_recover _) as [rst sh]. simpl.
    rewrite Htr1. by rewrite <- !app_assoc. }
  destruct (call_shared EvRecover lake_primary_key_recover s3) as [rst s4].
  simpl in H4, H5. destruct H4 as [Htr4 He4].
  assert (Hu4 : unprepared s4 = 1%nat) by (unfold unprepared; by rewrite He4).
  destruct (ok rst) eqn:Hok.
  - destruct (need_re_publish s4).
    + destruct H5 as (tr2 & Htr2 & Hb2 & _). simpl in Htr2.
      unfold unprepared at 2 in Hb2. simpl in Hb2. rewrite He4 in Hb2.
      exists (tr1 ++ [EvReleaseIndexCache (_index_entry s1); EvRecover] ++ tr2).
      split; [by rewrite Htr2, Htr4, <- !app_assoc|].
      rewrite !RecoverClaims.count_app. simpl. split; [lia|congruence].
    + exists (tr1 ++ [EvReleaseIndexCache (_index_entry s1); EvRecover]).
      split; [exact Htr4|]. rewrite !RecoverClaims.count_app. simpl.
      unfold unprepared at 1. simpl. rewrite He4. split; [lia|congruence].
  - exists (tr1 ++ [EvReleaseIndexCache (_index_entry s1); EvRecover]).
    split; [exact Htr4|]. rewrite !RecoverClaims.count_app. simpl. rewrite Hok.
    split; [lia|congruence].
Qed.

Lemma quiet_apply_schema_change_log (op : TxnLogPB_OpSchemaChange) s :
  quiet_step s (apply_schema_change_log op s).2.
Proof.
  unfold apply_schema_change_log. simpl.
  destruct (_ <? _); [|by apply quiet_same].
  destruct (tablet_put_metadata _ _) as [st w]. by eapply quiet_event.
Qed.

Lemma quiet_apply_alter_metadata (op : TxnLogPB_OpAlterMetadata) s :
  quiet_step s (apply_alter_metadata op s).2.
Proof.
  unfold apply_alter_metadata.
  pose proof (AlterMetadataExtras.alter_meta_trace (metadata_update_infos op)
                (_metadata s) (ext s)) as Htr.
  unfold apply_alter_meta_log.
  destruct (fold_left alter_meta_one _ _) as [m x]. simpl in *.
  split; [done|]. eexists. split; [exact Htr|].
  by rewrite !count_alter_calls.
Qed.

Lemma budget_apply_write_logs (ws : list TxnLogPB_OpWrite) (txn : Z) :
  forall s, prepares_within_budget cfg (apply_write_logs ws txn s).1 s
              (apply_write_logs ws txn s).2.
Proof.
  induction ws as [|w ws IH].
  - intros s. apply budget_quiet. by apply quiet_same.
  - simpl. apply budget_and_then; [apply budget_apply_write_log|exact IH].
Qed.

Lemma quiet_append_delvecs (dvs : list (Z * string)) :
  forall s, quiet_step s (append_delvecs dvs s).2.
Proof.
  induction dvs as [|[seg data] dvs IH]; intros s; [by apply quiet_same|].
  simpl. set (s1 := with_ext _ s).
  assert (H1 : quiet_step s s1) by (by eapply quiet_event).
  destruct (delvec_load _ _) as [dv|c msg]; [|exact H1].
  eapply quiet_trans; [exact H1|].
  eapply quiet_trans; [|apply IH]. by apply quiet_same.
Qed.

Lemma budget_apply_replication_log (op : TxnLogPB_OpReplication) (txn : Z) s :
  prepares_within_budget cfg (apply_replication_log op txn s).1 s
    (apply_replication_log op txn s).2.
Proof.
  unfold apply_replication_log.
  destruct (negb _); [apply budget_quiet; by apply quiet_same|].
  destruct (negb _); [apply budget_quiet; by apply quiet_same|].
  destruct (incremental_snapshot _).
  - apply budget_and_then; [apply budget_apply_write_logs|].
    intros s1. apply budget_quiet. by apply quiet_same.
  - destruct (fold_left _ _ _) as [nn m2]. apply budget_quiet.
    unfold and_then.
    pose proof (quiet_append_delvecs (delvecs op) (with_metadata m2 s)) as Hd.
    destruct (append_delvecs (delvecs op) (with_metadata m2 s)) as [st s1].
    simpl in Hd.
    assert (H0 : quiet_step s s1).
    { eapply quiet_trans; [|exact Hd]. by apply quiet_same. }
    destruct (ok st); [|exact H0].
    eapply quiet_trans; [exact H0|]. by eapply quiet_event.
Qed.

Lemma budget_apply (log : TxnLogPB) s :
  prepares_within_budget cfg (apply cfg log s).1 s (apply cfg log s).2.
Proof.
  unfold apply.
  eapply budget_after_quiet;
    [apply (quiet_same s (with_max_txn_id (Z.max (_max_txn_id s) (txn_id log)) s)); done|].
  repeat apply budget_and_then; intros s1.
  - destruct (op_write log); [|apply budget_quiet; by apply quiet_same].
    apply budget_check_and_recover. apply budget_apply_write_log.
  - destruct (op_compaction log); [|apply budget_quiet; by apply quiet_same].
    apply budget_check_and_recover. apply budget_apply_compaction_log.
  - destruct (op_schema_change log); [|apply budget_quiet; by apply quiet_same].
    apply budget_quiet. apply quiet_apply_schema_change_log.
  - destruct (op_alter_metadata log);
      [apply budget_quiet; apply quiet_apply_alter_metadata|].
    destruct (op_replication log); [|apply budget_quiet; by apply quiet_same].
    apply budget_apply_replication_log.
Qed.

Lemma budget_apply_all (logs : list TxnLogPB) :
  forall s, prepares_within_budget cfg (primary_key_apply_all cfg logs s).1 s
              (primary_key_apply_all cfg logs s).2.
Proof.
  induction logs as [|log logs IH].
  - intros s. apply budget_quiet. by apply quiet_same.
  - simpl. apply budget_and_then; [apply budget_apply|exact IH].
Qed.

(** X13. Over the successive calls of [apply] on one applier, up to the
    first that fails, the primary index is prepared at most once when the
    applier starts without an index entry and never when it starts with one,
    plus once for each call of the recover routine; and the recover routine
    is called only when recovery is enabled, so that with recovery disabled
    the index is prepared at most once. *)
Theorem index_prepared_once_per_recovery (logs : list TxnLogPB) s :
  exists tr,
    trace (ext (primary_key_apply_all cfg logs s).2) = trace (ext s) ++ tr /\
    (count is_prepare_event tr <= unprepared s + count is_recover_event tr)%nat /\
    (enable_primary_key_recover cfg = false ->
     count is_recover_event tr = O /\ (count is_prepare_event tr <= 1)%nat).
Proof.
  destruct (budget_apply_all logs s) as (tr & Htr & Hb & Hd).
  exists tr. split; [exact Htr|]. split; [lia|].
  intros Hcfg. specialize (Hd Hcfg). split; [exact Hd|].
  rewrite Hd in Hb. unfold unprepared in Hb. destruct (_index_entry s); lia.
Qed.

Lemma finish_outcome s :
  let r := finish s in
  _has_finalized r.2 = ok r.1 || _has_finalized s /\
  _index_entry r.2 = _index_entry s /\
  exists tr,
    trace (ext r.2) = trace (ext s) ++ tr /\
    match _index_entry s with
    | Some e =>
        let committed := (index_commit e (shared_of s)).1 in
        if ok committed
        then tr = [EvIndexCommit e; EvUpdateObjectSize e; EvFinalize (_max_txn_id s)]
        else tr = [EvIndexCommit e] /\ r.1 = committed
    | None => tr = [EvFinalize (_max_txn_id s)]
    end.
Proof.
  unfold finish, and_then, call_shared.
  destruct (_index_entry s) as [e|] eqn:He.
  - destruct (index_commit e (shared_of s)) as [st1 sh1]. simpl.
    destruct (ok st1) eqn:Hok1.
    + destruct (builder_finalize _ _) as [st2 sh2]. simpl.
      destruct (ok st2) eqn:Hok2; simpl; rewrite ?Hok2; simpl;
        (split; [done|]); (split; [done|]); eexists; (split; [|reflexivity]);
        by rewrite <- !app_assoc.
    + simpl. rewrite Hok1. simpl. rewrite Hok1. simpl. split; [done|]. split; [done|].
      by eexists.
  - simpl. destruct (builder_finalize _ _) as [st2 sh2]. simpl.
    destruct (ok st2) eqn:Hok2; simpl; rewrite ?Hok2; simpl;
      (split; [done|]); (split; [done|]); by eexists.
Qed.

(** X14. [finish] commits the index before it finalizes the builder: with
    an index entry, the index is committed first; when the commit succeeds
    the size of the entry is updated in the cache and the builder is
    finalized, and when it fails its status is returned and no other call is
    made; without an entry the builder alone is finalized. The builder is
    finalized with [_max_txn_id]. The finalized flag is set afterwards
    exactly when [finish] returned [OK] or the flag was set before, and the
    index entry is kept. *)
Theorem finish_commits_then_finalizes s :
  let r := finish s in
  _has_finalized r.2 = ok r.1 || _has_finalized s /\
  _index_entry r.2 = _index_entry s /\
  exists tr,
    trace (ext r.2) = trace (ext s) ++ tr /\
    match _index_entry s with
    | Some e =>
        let committed := (index_commit e (shared_of s)).1 in
        if ok committed
        then tr = [EvIndexCommit e; EvUpdateObjectSize e; EvFinalize (_max_txn_id s)]
        else tr = [EvIndexCommit e] /\ r.1 = committed
    | None => tr = [EvFinalize (_max_txn_id s)]
    end.
Proof. apply finish_outcome. Qed.

(** X15. The destructor after [finish], on an applier not finalized before:
    when [finish] returned [OK] the index entry is released to the cache and
    the index is neither unloaded nor removed; when [finish] failed and an
    entry is held, the index is unloaded and then removed from the cache, so
    that a retry starts from a clean index; without an entry the release is
    called on the null entry. In every case the applier holds no entry
    afterwards. *)
Theorem destructor_after_finish s :
  _has_finalized s = false ->
  let r := finish s in
  let s' := handle_failure r.2 in
  _index_entry s' = None /\
  trace (ext s')
  = trace (ext r.2) ++
    match _index_entry s with
    | Some e => if ok r.1 then [EvReleaseIndexCache (Some e)]
                else [EvIndexUnload e; EvRemoveIndexCache (Some e)]
    | None => [EvReleaseIndexCache None]
    end.
Proof.
  intros Hfin r s'.
  destruct (finish_outcome s) as (Hf & He & _).
  fold r in Hf, He. rewrite Hfin, orb_false_r in Hf.
  subst s'. unfold handle_failure. rewrite He, Hf. split; [done|].
  destruct (_index_entry s) as [e|]; [|done].
  destruct (ok r.1); simpl; [done|]. by rewrite <- app_assoc.
Qed.

End WithCollaborators.

Lemma destructor_after_finish_witness :
  let s := with_index_entry (Some 1) (pk0 (script0 [] OK)) in
  let s' := handle_failure (finish s).2 in
  (finish s).1 = OK /\
  _index_entry s' = None /\
  trace (ext s')
  = [EvIndexCommit 1; EvUpdateObjectSize 1; EvFinalize 0; EvReleaseIndexCache (Some 1)].
Proof.
  intros s s'. split; [reflexivity|].
  destruct (destructor_after_finish (with_index_entry (Some 1) (pk0 (script0 [] OK)))
              eq_refl) as [He Htr].
  split; [exact He|exact Htr].
Defined.

End IndexEntryExtras.

(** ** A full-snapshot replication that fails *)

Module ReplicationFailureExtras.
Import PrimaryKeyTxnLogApplier.

Section WithCollaborators.
Context {World : Type} `{!Collaborators World}.
Implicit Types (s : @t World).

Lemma append_delvecs_failure (dvs : list (Z * string)) :
  forall s,
    let r := append_delvecs dvs s in
    _metadata r.2 = _metadata s /\
    exists n : nat,
      (n <= length dvs)%nat /\
      trace (ext r.2) = trace (ext s) ++ replicate n (EvDelvecLoad (_new_version s)) /\
      (r.1 <> OK ->
       (1 <= n)%nat /\
       exists code msg d,
         r.1 = Failed code msg /\ d ∈ dvs /\
         delvec_load (_new_version s) d.2 = Error code msg).
Proof.
  induction dvs as [|[seg data] dvs IH]; intros s; cbn zeta.
  - simpl. split; [done|]. exists O. by rewrite app_nil_r.
  - cbn [append_delvecs].
    destruct (delvec_load (_new_version s) data) as [dv|code msg] eqn:Hload.
    + set (s2 := with_builder _ _).
      assert (Hm2 : _metadata s2 = _metadata s) by done.
      assert (Hv2 : _new_version s2 = _new_version s) by done.
      assert (Htr2 : trace (ext s2) = trace (ext s) ++ [EvDelvecLoad (_new_version s)])
        by done.
      destruct (IH s2) as (Hm & n & Hn & Htr & Hfail).
      rewrite Hm, Htr, Hv2, Hm2, Htr2. split; [done|]. exists (S n).
      split; [simpl; lia|]. split; [by rewrite <- app_assoc|].
      intros Hne. destruct (Hfail Hne) as (_ & c & msg & d & Hst & Hd & Hl).
      split; [lia|]. exists c, msg, d. rewrite Hv2 in Hl.
      split; [exact Hst|]. split; [by apply elem_of_cons; right|exact Hl].
    + simpl. split; [done|]. exists 1%nat. split; [lia|]. split; [done|].
      intros _. split; [lia|]. exists code, msg, (seg, data).
      split; [done|]. split; [apply elem_of_cons; by left|exact Hload].
Qed.

(** X18. A full-snapshot replication of the primary-key applier fails, once
    its framing is valid, only on a delete vector that does not load, with
    the status of that load, and it is not atomic: the rowsets have already
    been replaced by those of the embedded writes under their shifted ids and
    the delvec metadata cleared, while the next rowset id has not been
    advanced, the rowsets from before the step have not been saved to the
    compaction inputs and the primary index has not been unloaded; the only
    calls made are the loads. *)
Theorem full_replication_failure_not_atomic (op : TxnLogPB_OpReplication) (txn : Z) s :
  txn_state (txn_meta op) = TXN_REPLICATED ->
  snapshot_version (txn_meta op) = _new_version s ->
  incremental_snapshot (txn_meta op) = false ->
  let r := apply_replication_log op txn s in
  r.1 <> OK ->
  (exists code msg d,
     r.1 = Failed code msg /\ d ∈ delvecs op /\
     delvec_load (_new_version s) d.2 = Error code msg) /\
  rowsets (_metadata r.2) = rebased32 (next_rowset_id (_metadata s)) <$> op_writes op /\
  delvec_meta (_metadata r.2) = [] /\
  next_rowset_id (_metadata r.2) = next_rowset_id (_metadata s) /\
  compaction_inputs (_metadata r.2) = compaction_inputs (_metadata s) /\
  cumulative_point (_metadata r.2) = cumulative_point (_metadata s) /\
  exists n : nat,
    (1 <= n <= length (delvecs op))%nat /\
    trace (ext r.2) = trace (ext s) ++ replicate n (EvDelvecLoad (_new_version s)).
Proof.
  intros Hstate Hver Hinc r. subst r. unfold apply_replication_log.
  rewrite Hstate, Hver, Z.eqb_refl, Hinc. cbn [is_replicated negb].
  rewrite (ReplicationClaims.rebase_fold (op_writes op) _
             (next_rowset_id (_metadata s))) by done.
  unfold and_then.
  match goal with |- context [append_delvecs _ ?s1] =>
    destruct (append_delvecs_failure (delvecs op) s1) as (Hm & n & Hn & Htr & Hfail) end.
  destruct (append_delvecs (delvecs op) _) as [st s1]. simpl in Hm, Htr, Hfail.
  destruct (ok st) eqn:Hok; [intros Hne; by destruct Hne|].
  simpl. intros Hne. destruct (Hfail Hne) as (H1 & code & msg & d & Hst & Hd & Hl).
  split; [by exists code, msg, d|].
  rewrite Hm. simpl. repeat split; try done.
  exists n. split; [lia|exact Htr].
Qed.

End WithCollaborators.

Lemma full_replication_failure_not_atomic_witness :
  let s := pk_tablet 3 [rs 1 1 5] 5 6 (script0 [] OK) in
  let r := apply_replication_log bad_delvec_snapshot 7 s in
  r.1 <> OK /\
  rowsets (_metadata r.2) = [rs 3 1 100] /\
  next_rowset_id (_metadata r.2) = 3 /\
  compaction_inputs (_metadata r.2) = [].
Proof.
  intros s r.
  assert (Hne : r.1 <> OK) by discriminate.
  destruct (full_replication_failure_not_atomic bad_delvec_snapshot 7
              (pk_tablet 3 [rs 1 1 5] 5 6 (script0 [] OK)) eq_refl eq_refl eq_refl Hne)
    as (_ & Hrs & _ & Hnext & Hci & _).
  split; [exact Hne|]. split; [exact Hrs|]. split; [exact Hnext|exact Hci].
Defined.

End ReplicationFailureExtras.

(** ** The calls of the non-primary-key applier *)

Module NonPrimaryKeyExtras.
Import NonPrimaryKeyTxnLogApplier.

Lemma is_alter_call_alter_calls (tablet : Z) (op : TxnLogPB_OpAlterMetadata) :
  Forall (fun e => is_alter_call e = true) (alter_calls tablet op).
Proof.
  unfold alter_calls.
  induction (omap mu_enable_persistent_index (metadata_update_infos op)) as [|v l IH];
    simpl; [constructor|].
  constructor; [done|]. constructor; [done|]. exact IH.
Qed.

Lemma and_then_assoc4 {S : Type} (a b c d e : Step S) :
  forall x, and_then a (and_then b (and_then c (and_then d e))) x
            = and_then (and_then a (and_then b (and_then c d))) e x.
Proof.
  intros x. unfold and_then.
  destruct (a x) as [st1 s1]. destruct (ok st1) eqn:H1; [|by rewrite H1].
  destruct (b s1) as [st2 s2]. destruct (ok st2) eqn:H2; [|by rewrite H2].
  destruct (c s2) as [st3 s3]. destruct (ok st3) eqn:H3; [|by rewrite H3].
  done.
Qed.

Section WithCollaborators.
Context {World : Type} `{!Collaborators World}.
Variable cfg : Config.
Implicit Types (s : @t World).

Lemma on_metadata_frame (f : Step TabletMetadata) s :
  _tablet (on_metadata f s).2 = _tablet s /\
  _new_version (on_metadata f s).2 = _new_version s /\
  ext (on_metadata f s).2 = ext s.
Proof. unfold on_metadata. by destruct (f (_metadata s)). Qed.

Lemma and_then_frame (f1 f2 : Step (@t World)) :
  (forall s, _tablet (f1 s).2 = _tablet s /\ _new_version (f1 s).2 = _new_version s /\
             ext (f1 s).2 = ext s) ->
  (forall s, _tablet (f2 s).2 = _tablet s /\ _new_version (f2 s).2 = _new_version s /\
             ext (f2 s).2 = ext s) ->
  forall s, _tablet (and_then f1 f2 s).2 = _tablet s /\
            _new_version (and_then f1 f2 s).2 = _new_version s /\
            ext (and_then f1 f2 s).2 = ext s.
Proof.
  intros H1 H2 s. unfold and_then. destruct (H1 s) as (Ht & Hn & Hx).
  destruct (f1 s) as [st s1]. simpl in *. destruct (ok st); [|done].
  destruct (H2 s1) as (Ht2 & Hn2 & Hx2). repeat split; congruence.
Qed.

Lemma rowset_steps_frame (log : TxnLogPB) s :
  let f :=
    and_then
      (match op_write log with
       | Some w => on_metadata (apply_write_log w)
       | None => skip
       end)
      (and_then
         (match op_compaction log with
          | Some c => on_metadata (apply_compaction_log cfg c)
          | None => skip
          end)
         (and_then
            (match op_schema_change log with
             | Some sc => on_metadata (apply_schema_change_log sc)
             | None => skip
             end)
            (match op_replication log with
             | Some r => fun s => on_metadata (apply_replication_log (_new_version s) r) s
             | None => skip
             end))) in
  _tablet (f s).2 = _tablet s /\ _new_version (f s).2 = _new_version s /\
  ext (f s).2 = ext s.
Proof.
  cbn zeta. revert s. repeat apply and_then_frame; intros s.
  - destruct (op_write log); [apply on_metadata_frame|done].
  - destruct (op_compaction log); [apply on_metadata_frame|done].
  - destruct (op_schema_change log); [apply on_metadata_frame|done].
  - destruct (op_replication log); [apply on_metadata_frame|done].
Qed.


(** X19. [apply] of the non-primary-key applier works on the in-memory
    metadata: it keeps the tablet and the new version, it never writes the
    metadata to the store, the only calls it makes are those of a
    metadata-alter op, and on a log without one it makes no call and leaves
    the collaborators' state as it was. *)
Theorem apply_is_in_memory (log : TxnLogPB) s :
  let s' := (apply cfg log s).2 in
  _tablet s' = _tablet s /\ _new_version s' = _new_version s /\
  (op_alter_metadata log = None -> ext s' = ext s) /\
  exists tr,
    trace (ext s') = trace (ext s) ++ tr /\
    Forall (fun e => is_alter_call e = true) tr /\
    count is_put_metadata_event tr = O.
Proof.
  cbn zeta. unfold apply. rewrite and_then_assoc4.
  destruct (rowset_steps_frame log s) as (Ht & Hn & Hx). cbn zeta in Ht, Hn, Hx.
  match goal with
  | |- context [and_then ?F ?G s] =>
      assert (Heq : and_then F G s
                    = (let '(st, s1) := F s in if ok st then G s1 else (st, s1)))
        by reflexivity;
      rewrite Heq; clear Heq; destruct (F s) as [st s1]
  end.
  simpl in Ht, Hn, Hx.
  assert (Hnil : exists tr, trace (ext s1) = trace (ext s) ++ tr /\
                            Forall (fun e => is_alter_call e = true) tr /\
                            count is_put_metadata_event tr = O).
  { exists []. by rewrite Hx, app_nil_r. }
  destruct (ok st); [|by repeat split].
  destruct (op_alter_metadata log) as [am|]; [|by repeat split].
  unfold apply_alter_metadata.
  pose proof (AlterMetadataExtras.alter_meta_trace (metadata_update_infos am)
                (_metadata s1) (ext s1)) as Htr.
  unfold apply_alter_meta_log.
  destruct (fold_left alter_meta_one _ _) as [m x]. simpl in *.
  repeat split; try done.
  eexists. rewrite Htr, Hx. split; [done|]. split.
  - apply is_alter_call_alter_calls.
  - by apply IndexEntryExtras.count_alter_calls.
Qed.

End WithCollaborators.
End NonPrimaryKeyExtras.
